(** * cpu-process-profiler: CPU delta sampler, process ranker, validation

    A shallow embedding of [main.go].  The file holds two historical
    versions of the plugin, one after the other: the first ranks processes
    by running [ps]/[tasklist] and parsing the text ([parseProcessOutput]),
    the second by querying every process directly.  [checkArgs] and
    [executeCheck] are the same in both.

    Conventions.
    - Go's [float64] is Rocq's primitive binary64 [float]: the same IEEE 754
      operations, one rounding per operation (no fused multiply-add).
    - Go's [int] is a [Z]; slices are lists, a slice index out of range is a
      panic of the model ([Panic]).
    - A Go [error] value is its message; [nil] is [None].
    - Everything the program asks of its environment (CPU counters, the
      sleep, the spawned command, the process table, standard output) goes
      through an explicit [Env] and a [State] that logs what was done. *)

From Stdlib Require Import ZArith String Ascii List Bool Lia.
From Stdlib Require Import Floats QArith Qfield Qpower Qabs Lqa.
From Stdlib Require Import Permutation.
Import ListNotations.

Set Implicit Arguments.

(* ------------------------------------------------------------------ *)
(** * Results, panics and state *)

(** A computation of Go code either returns or panics. *)
Inductive Res (A : Type) : Type :=
| Ok (a : A)
| Panic.
Arguments Ok {A} a.
Arguments Panic {A}.

(** Code that reads and writes a state of type [S] and may panic. *)
Definition ST (S A : Type) : Type := S -> Res (A * S).

Definition ret {S A} (a : A) : ST S A := fun s => Ok (a, s).

Definition bind {S A B} (m : ST S A) (k : A -> ST S B) : ST S B :=
  fun s => match m s with
           | Ok (a, s') => k a s'
           | Panic => Panic
           end.

Definition panic {S A} : ST S A := fun _ => Panic.

Declare Scope go_scope.
Delimit Scope go_scope with go.
Notation "x <- m ;; k" := (bind m (fun x => k))
  (at level 61, m at next level, right associativity) : go_scope.
Notation "' p <- m ;; k" := (bind m (fun x => match x with p => k end))
  (at level 61, p pattern, m at next level, right associativity) : go_scope.
Notation "m ;;; k" := (bind m (fun _ => k))
  (at level 61, right associativity) : go_scope.

(** A Go [error]: its message. *)
Definition error : Type := string.

(** [fmt.Errorf(prefix + "%v", err)]. *)
Definition Errorf (prefix : string) (err : error) : error :=
  (prefix ++ err)%string.

(** The sensu check states. *)
Definition CheckStateOK : Z := 0.
Definition CheckStateWarning : Z := 1.
Definition CheckStateCritical : Z := 2.

(* ------------------------------------------------------------------ *)
(** * The arithmetic of the sampler

    The formulas of [executeCheck] are written over the operations they
    use, which the program has on [float64]. *)

Class Arith (F : Type) : Type := {
  add : F -> F -> F;
  sub : F -> F -> F;
  mul : F -> F -> F;
  div : F -> F -> F;
  hundred : F
}.

#[global] Instance Arith_float64 : Arith float := {
  add := PrimFloat.add;
  sub := PrimFloat.sub;
  mul := PrimFloat.mul;
  div := PrimFloat.div;
  hundred := 100%float
}.

Declare Scope arith_scope.
Delimit Scope arith_scope with ar.
Infix "+" := add : arith_scope.
Infix "-" := sub : arith_scope.
Infix "*" := mul : arith_scope.
Infix "/" := div : arith_scope.

(** [cpu.TimesStat] of gopsutil: the cumulative counters, in seconds. *)
Record TimesStat (F : Type) : Type := {
  User : F;
  System : F;
  Idle : F;
  Nice : F;
  Iowait : F;
  Irq : F;
  Softirq : F;
  Steal : F;
  Guest : F;
  GuestNice : F
}.

(** What [executeCheck] computes from the two snapshots. *)
Record Usage (F : Type) : Type := {
  idlePct : F;
  usedPct : F;
  userPct : F;
  sysPct : F;
  nicePct : F;
  iowaitPct : F;
  irqPct : F;
  softirqPct : F;
  stealPct : F;
  guestPct : F;
  guestnicePct : F
}.

Section SamplerArithmetic.
Context {F : Type} `{Arith F}.
Local Open Scope arith_scope.

(** [startTotal] and [endTotal]: the ten counters added left to right. *)
Definition total (t : TimesStat F) : F :=
  User t + System t + Idle t + Nice t + Iowait t + Irq t + Softirq t
  + Steal t + Guest t + GuestNice t.

(** [diff := endTotal - startTotal]. *)
Definition diff (start end_ : TimesStat F) : F :=
  total end_ - total start.

(** The body of [executeCheck] between the second snapshot and
    [perfData]. *)
Definition usage (start end_ : TimesStat F) : Usage F :=
  let startTotal := total start in
  let endTotal := total end_ in
  let diff := endTotal - startTotal in
  let idlePct := ((Idle end_ - Idle start) / diff) * hundred in
  let usedPct := hundred - idlePct in
  let userPct := ((User end_ - User start) / diff) * hundred in
  let sysPct := ((System end_ - System start) / diff) * hundred in
  let nicePct := ((Nice end_ - Nice start) / diff) * hundred in
  let iowaitPct := ((Iowait end_ - Iowait start) / diff) * hundred in
  let irqPct := ((Irq end_ - Irq start) / diff) * hundred in
  let softirqPct := ((Softirq end_ - Softirq start) / diff) * hundred in
  let stealPct := ((Steal end_ - Steal start) / diff) * hundred in
  let guestPct := ((Guest end_ - Guest start) / diff) * hundred in
  let guestnicePct :=
    ((GuestNice end_ - GuestNice start) / diff) * hundred in
  {| idlePct := idlePct; usedPct := usedPct; userPct := userPct;
     sysPct := sysPct; nicePct := nicePct; iowaitPct := iowaitPct;
     irqPct := irqPct; softirqPct := softirqPct; stealPct := stealPct;
     guestPct := guestPct; guestnicePct := guestnicePct |}.

(** The ten category percentages, in the order of the claim: user,
    system, idle, nice, iowait, irq, softirq, steal, guest,
    guest-nice. *)
Definition categories (u : Usage F) : list F :=
  [userPct u; sysPct u; idlePct u; nicePct u; iowaitPct u; irqPct u;
   softirqPct u; stealPct u; guestPct u; guestnicePct u].

(** Their sum, added in that order. *)
Definition sum_categories (u : Usage F) : F :=
  userPct u + sysPct u + idlePct u + nicePct u + iowaitPct u + irqPct u
  + softirqPct u + stealPct u + guestPct u + guestnicePct u.
End SamplerArithmetic.

(** Go's [a > b] on [float64]: false as soon as one side is NaN. *)
Definition fgt (a b : float) : bool := PrimFloat.ltb b a.

(** Go's [a == b] on [float64]. *)
Definition feq (a b : float) : bool := PrimFloat.eqb a b.

(** Go's [a <= b] on [float64]. *)
Definition fle (a b : float) : bool := PrimFloat.leb a b.

(* ------------------------------------------------------------------ *)
(** * Configuration and validation *)

(** [Config]: the three options bound to the global [plugin]. *)
Record Config : Type := {
  Critical : float;
  Warning : float;
  Interval : Z
}.

(** [checkArgs]. *)
Definition checkArgs (plugin : Config) : Z * option error :=
  if feq (Critical plugin) 0 then
    (CheckStateWarning, Some "--critical is required"%string)
  else if feq (Warning plugin) 0 then
    (CheckStateWarning, Some "--warning is required"%string)
  else if fgt (Warning plugin) (Critical plugin) then
    (CheckStateWarning,
     Some "--warning cannot be greater than --critical"%string)
  else if (Interval plugin =? 0)%Z then
    (CheckStateWarning, Some "--interval is required"%string)
  else (CheckStateOK, None).

(* ------------------------------------------------------------------ *)
(** * The Go standard library, as far as the program uses it

    A Go string is a sequence of bytes: [string], whose characters are
    the 256 values of [ascii]. *)

Module strings.

Definition byte (c : ascii) : N := N_of_ascii c.

(** [strings.Split(s, sep)] for a separator of one byte (the program
    splits at "\n" and at ","): one more piece than there are
    separators, never the empty list. *)
Fixpoint Split_from (cur : string) (s : string) (sep : ascii)
  : list string :=
  match s with
  | EmptyString => [cur]
  | String c s' =>
      if Ascii.eqb c sep then cur :: Split_from EmptyString s' sep
      else Split_from (cur ++ String c EmptyString)%string s' sep
  end.

Definition Split (s : string) (sep : ascii) : list string :=
  Split_from EmptyString s sep.

(** The white space of [unicode.IsSpace] in UTF-8, met at the head of
    [s]: the number of bytes it takes.  '\t' '\n' '\v' '\f' '\r' ' ',
    U+0085, U+00A0, U+1680, U+2000..U+200A, U+2028, U+2029, U+202F,
    U+205F, U+3000.  Each of the longer ones starts with a lead byte, so
    it is met at a rune boundary wherever it stands: scanning bytes
    finds the same white space as decoding runes, and a byte that is
    part of no white space belongs to a field either way. *)
Definition space_width (s : string) : option nat :=
  match s with
  | EmptyString => None
  | String c0 s0 =>
      let b0 := byte c0 in
      if ((9 <=? b0) && (b0 <=? 13) || (b0 =? 32))%N then Some 1%nat
      else
        match s0 with
        | EmptyString => None
        | String c1 s1 =>
            let b1 := byte c1 in
            if ((b0 =? 194) && ((b1 =? 133) || (b1 =? 160)))%N
            then Some 2%nat
            else
              match s1 with
              | EmptyString => None
              | String c2 _ =>
                  let b2 := byte c2 in
                  if ((b0 =? 225) && (b1 =? 154) && (b2 =? 128)
                      || (b0 =? 226) && (b1 =? 128)
                         && ((128 <=? b2) && (b2 <=? 138)
                             || (b2 =? 168) || (b2 =? 169)
                             || (b2 =? 175))
                      || (b0 =? 226) && (b1 =? 129) && (b2 =? 159)
                      || (b0 =? 227) && (b1 =? 128) && (b2 =? 128))%N
                  then Some 3%nat
                  else None
              end
        end
  end.

(** [strings.Fields(s)]: the maximal runs of bytes between white
    space.  [skip] counts the bytes left of the white space being
    passed, [cur] is the field being read, if any. *)
Fixpoint Fields_from (skip : nat) (cur : option string) (s : string)
  : list string :=
  match s with
  | EmptyString =>
      match cur with Some f => [f] | None => [] end
  | String c s' =>
      match skip with
      | S k => Fields_from k cur s'
      | O =>
          match space_width s with
          | Some w =>
              match cur with
              | Some f => f :: Fields_from (w - 1) None s'
              | None => Fields_from (w - 1) None s'
              end
          | None =>
              let f := match cur with Some f => f | None => EmptyString end in
              Fields_from 0 (Some (f ++ String c EmptyString)%string) s'
          end
      end
  end.

Definition Fields (s : string) : list string :=
  Fields_from 0 None s.

(** [strings.Trim(s, cutset)] for a cutset of one ASCII byte (the
    program trims the double quote): that byte removed from both
    ends. *)
Fixpoint TrimLeft (s : string) (c : ascii) : string :=
  match s with
  | EmptyString => EmptyString
  | String c0 s' => if Ascii.eqb c0 c then TrimLeft s' c else s
  end.

Fixpoint TrimRight (s : string) (c : ascii) : string :=
  match s with
  | EmptyString => EmptyString
  | String c0 s' =>
      match TrimRight s' c with
      | EmptyString =>
          if Ascii.eqb c0 c then EmptyString else String c0 EmptyString
      | t => String c0 t
      end
  end.

Definition Trim (s : string) (c : ascii) : string :=
  TrimRight (TrimLeft s c) c.

(** [strings.TrimSuffix(s, suffix)]: [s] without the suffix when it
    ends with it, [s] otherwise. *)
Definition TrimSuffix (s suffix : string) : string :=
  let n := String.length s in
  let k := String.length suffix in
  if (k <=? n)%nat && String.eqb (substring (n - k) k s) suffix
  then substring 0 (n - k) s
  else s.

End strings.

Module strconv.
Import strings.

Definition is_digit (c : ascii) : bool :=
  ((48 <=? byte c) && (byte c <=? 57))%N.

Definition digit (c : ascii) : Z := Z.of_N (byte c) - 48.

(** [lower(c)] of strconv: [c | ('x' - 'X')]. *)
Definition lower (c : ascii) : N := N.lor (byte c) 32.

Definition is_hex_letter (c : ascii) : bool :=
  ((97 <=? lower c) && (lower c <=? 102))%N.

Fixpoint digits_value (acc : Z) (s : string) : option Z :=
  match s with
  | EmptyString => Some acc
  | String c s' =>
      if is_digit c then digits_value (acc * 10 + digit c) s' else None
  end.

(** [strconv.Atoi(s)] on a 64-bit platform: an optional sign and at
    least one decimal digit, the value within [int]; [None] stands for
    a non-nil error. *)
Definition Atoi (s : string) : option Z :=
  match s with
  | EmptyString => None
  | String c s' =>
      let neg := Ascii.eqb c "-" in
      let ds := if neg || Ascii.eqb c "+" then s' else s in
      match ds with
      | EmptyString => None
      | _ =>
          match digits_value 0 ds with
          | None => None
          | Some n =>
              let v := if neg then (- n)%Z else n in
              if ((- 2 ^ 63 <=? v) && (v <=? 2 ^ 63 - 1))%Z
              then Some v else None
          end
      end
  end.

(** [commonPrefixLenIgnoreCase(s, prefix)], [prefix] in lower case. *)
Fixpoint commonPrefixLenIgnoreCase (s prefix : string) : nat :=
  match s, prefix with
  | String c s', String p prefix' =>
      let c' := if ((65 <=? byte c) && (byte c <=? 90))%N
                then (byte c + 32)%N else byte c in
      if (c' =? byte p)%N
      then S (commonPrefixLenIgnoreCase s' prefix')
      else O
  | _, _ => O
  end.

Definition special_inf (neg : bool) (nsign : nat) (s : string)
  : option (spec_float * nat) :=
  let n := commonPrefixLenIgnoreCase s "infinity" in
  let n := if ((3 <? n) && (n <? 8))%nat then 3%nat else n in
  if ((n =? 3) || (n =? 8))%nat
  then Some (S754_infinity neg, (nsign + n)%nat)
  else None.

(** [special(s)]: "inf" and "infinity" with an optional sign, "nan"
    without one, in any case; the value and how many bytes it took. *)
Definition special (s : string) : option (spec_float * nat) :=
  match s with
  | EmptyString => None
  | String c s' =>
      if Ascii.eqb c "+" || Ascii.eqb c "-"
      then special_inf (Ascii.eqb c "-") 1 s'
      else if Ascii.eqb c "i" || Ascii.eqb c "I"
      then special_inf false 0 s
      else if Ascii.eqb c "n" || Ascii.eqb c "N"
      then if (commonPrefixLenIgnoreCase s "nan" =? 3)%nat
           then Some (S754_nan, 3%nat) else None
      else None
  end.

(** The variables of [readFloat]'s digit loop.  [mantissa] keeps every
    significant digit: Go keeps the first 19 (16 in base 16) with a flag
    for a non-zero rest, and falls back on up to 800 digits with such
    a flag; each is enough to round to the nearest [float64], which is
    what this model does with all the digits. *)
Record digits_state : Type := {
  mantissa : Z;
  nd : Z;
  dp : Z;
  sawdot : bool;
  sawdigits : bool;
  underscores : bool
}.

(** The loop over the digits; returns the state and what is left. *)
Fixpoint read_digits (hex : bool) (st : digits_state) (s : string)
  : digits_state * string :=
  match s with
  | EmptyString => (st, s)
  | String c s' =>
      if Ascii.eqb c "_" then
        read_digits hex
          {| mantissa := mantissa st; nd := nd st; dp := dp st;
             sawdot := sawdot st; sawdigits := sawdigits st;
             underscores := true |} s'
      else if Ascii.eqb c "." then
        if sawdot st then (st, s)
        else
          read_digits hex
            {| mantissa := mantissa st; nd := nd st; dp := nd st;
               sawdot := true; sawdigits := sawdigits st;
               underscores := underscores st |} s'
      else if is_digit c then
        if Ascii.eqb c "0" && (nd st =? 0)%Z then
          read_digits hex
            {| mantissa := mantissa st; nd := nd st; dp := dp st - 1;
               sawdot := sawdot st; sawdigits := true;
               underscores := underscores st |} s'
        else
          read_digits hex
            {| mantissa :=
                 mantissa st * (if hex then 16 else 10) + digit c;
               nd := nd st + 1; dp := dp st;
               sawdot := sawdot st; sawdigits := true;
               underscores := underscores st |} s'
      else if hex && is_hex_letter c then
        read_digits hex
          {| mantissa := mantissa st * 16 + (Z.of_N (lower c) - 97 + 10);
             nd := nd st + 1; dp := dp st;
             sawdot := sawdot st; sawdigits := true;
             underscores := underscores st |} s'
      else (st, s)
  end.

(** The digits of the exponent, underscores skipped; the value stops
    growing once it has reached 10000.  Returns the value, whether an
    underscore was seen, and what is left. *)
Fixpoint read_exponent (e : Z) (us : bool) (s : string)
  : Z * bool * string :=
  match s with
  | EmptyString => (e, us, s)
  | String c s' =>
      if Ascii.eqb c "_" then read_exponent e true s'
      else if is_digit c then
        read_exponent (if (e <? 10000)%Z then e * 10 + digit c else e)
          us s'
      else (e, us, s)
  end.

(** [underscoreOK(s)]: an underscore only between digits, or between
    a base prefix and a digit.  [saw] is the last character seen:
    "0" for a digit, "_", "!" for anything else, "^" at the start. *)
Fixpoint underscoreOK_from (hex : bool) (saw : ascii) (s : string)
  : bool :=
  match s with
  | EmptyString => negb (Ascii.eqb saw "_")
  | String c s' =>
      if is_digit c || hex && is_hex_letter c
      then underscoreOK_from hex "0" s'
      else if Ascii.eqb c "_" then
        if Ascii.eqb saw "0" then underscoreOK_from hex "_" s'
        else false
      else if Ascii.eqb saw "_" then false
      else underscoreOK_from hex "!" s'
  end.

Definition has_base_prefix (s : string) : option (N * string) :=
  match s with
  | String c0 (String c1 s') =>
      if Ascii.eqb c0 "0"
         && ((lower c1 =? 98) || (lower c1 =? 111) || (lower c1 =? 120))%N
      then Some (lower c1, s') else None
  | _ => None
  end.

Definition underscoreOK (s : string) : bool :=
  let s := match s with
           | String c s' =>
               if Ascii.eqb c "-" || Ascii.eqb c "+" then s' else s
           | EmptyString => s
           end in
  match has_base_prefix s with
  | Some (p, s') => underscoreOK_from (p =? 120)%N "0" s'
  | None => underscoreOK_from false "^" s
  end.

(** The [float64] nearest to [m * 2^e2 * 10^e10] for [0 <= m], ties
    to even, infinite when that is out of range; [neg] is its sign.
    A negative power of ten is divided out with enough bits and a
    last bit that says whether anything was left. *)
Definition nearest_float64 (neg : bool) (m e2 e10 : Z) : spec_float :=
  let sgn (x : Z) := if neg then (- x)%Z else x in
  if (0 <=? e10)%Z then
    binary_normalize prec emax (sgn (m * 10 ^ e10)%Z) e2 neg
  else
    let d := (10 ^ (- e10))%Z in
    let k := (Z.log2 d + 66)%Z in
    let n := (m * 2 ^ k)%Z in
    let q := (n / d)%Z in
    let sticky := if (n mod d =? 0)%Z then 0%Z else 1%Z in
    binary_normalize prec emax (sgn (2 * q + sticky)%Z) (e2 - k - 1) neg.

(** [readFloat] and the conversion of what it read: the sign, an
    optional "0x", the digits, the exponent ("e", or "p" which base 16
    requires).  [None] where Go reports a syntax error; the whole
    string has to be read. *)
Definition read_number (s : string) : option spec_float :=
  match s with
  | EmptyString => None
  | String c s' =>
      let neg := Ascii.eqb c "-" in
      let body := if neg || Ascii.eqb c "+" then s' else s in
      let '(hex, body) :=
        match body with
        | String c0 (String c1 ((String _ _) as t)) =>
            if Ascii.eqb c0 "0" && (lower c1 =? 120)%N
            then (true, t) else (false, body)
        | _ => (false, body)
        end in
      let '(st, rest) :=
        read_digits hex
          {| mantissa := 0; nd := 0; dp := 0; sawdot := false;
             sawdigits := false; underscores := false |} body in
      if negb (sawdigits st) then None
      else
        let dp := if sawdot st then dp st else nd st in
        let dp := if hex then (dp * 4)%Z else dp in
        let expChar := if hex then 112%N else 101%N in
        let after_exponent : option (Z * bool * string) :=
          match rest with
          | String ce rest1 =>
              if (lower ce =? expChar)%N then
                match rest1 with
                | EmptyString => None
                | String cs rest2 =>
                    let esign := if Ascii.eqb cs "-" then (-1)%Z else 1%Z in
                    let ds := if Ascii.eqb cs "+" || Ascii.eqb cs "-"
                              then rest2 else rest1 in
                    match ds with
                    | EmptyString => None
                    | String cd _ =>
                        if is_digit cd then
                          let '(e, us, rest3) :=
                            read_exponent 0 (underscores st) ds in
                          Some ((dp + e * esign)%Z, us, rest3)
                        else None
                    end
                end
              else if hex then None
              else Some (dp, underscores st, rest)
          | EmptyString =>
              if hex then None else Some (dp, underscores st, rest)
          end in
        match after_exponent with
        | None => None
        | Some (dp, us, rest) =>
            match rest with
            | String _ _ => None
            | EmptyString =>
                if us && negb (underscoreOK s) then None
                else if (mantissa st =? 0)%Z then Some (S754_zero neg)
                else if hex then
                  Some (nearest_float64 neg (mantissa st)
                          (dp - 4 * nd st) 0)
                else
                  Some (nearest_float64 neg (mantissa st) 0
                          (dp - nd st))
            end
        end
  end.

(** [strconv.ParseFloat(s, 64)]; [None] stands for a non-nil error:
    bad syntax, or a value out of the range of [float64]. *)
Definition ParseFloat (s : string) : option float :=
  match special s with
  | Some (v, n) =>
      if (n =? String.length s)%nat then Some (SF2Prim v) else None
  | None =>
      match read_number s with
      | None => None
      | Some (S754_infinity _) => None
      | Some v => Some (SF2Prim v)
      end
  end.

End strconv.

(* ------------------------------------------------------------------ *)
(** * [sort.Slice]

    The pattern-defeating quicksort of Go's [sort] package (Go 1.19 and
    later), as [sort.Slice] runs it: the slice is reached only through
    [Less(i, j)] and [Swap(i, j)].  The state is the slice; an index out
    of range panics.  [less x y] is what the closure handed to
    [sort.Slice] computes from the two elements it reads. *)

Module sort.
Section Slice.
Variable T : Type.
Variable less : T -> T -> bool.

Local Open Scope go_scope.
Local Open Scope nat_scope.

Definition SortM (A : Type) : Type := ST (list T) A.

Fixpoint set_nth (i : nat) (x : T) (l : list T) : list T :=
  match l, i with
  | [], _ => []
  | _ :: l', O => x :: l'
  | y :: l', S i' => y :: set_nth i' x l'
  end.

(** [data.Less(i, j)]. *)
Definition Less (i j : nat) : SortM bool :=
  fun s => match nth_error s i, nth_error s j with
           | Some x, Some y => Ok (less x y, s)
           | _, _ => Panic
           end.

(** [data.Swap(i, j)]. *)
Definition Swap (i j : nat) : SortM unit :=
  fun s => match nth_error s i, nth_error s j with
           | Some x, Some y => Ok (tt, set_nth j x (set_nth i y s))
           | _, _ => Panic
           end.

(** [for _, i := range idxs { body(i) }]. *)
Fixpoint for_each (idxs : list nat) (body : nat -> SortM unit)
  : SortM unit :=
  match idxs with
  | [] => ret tt
  | i :: idxs' => body i ;;; for_each idxs' body
  end.

(** [for j := i; j > a && data.Less(j, j-1); j-- { data.Swap(j, j-1) }] *)
Fixpoint insert_down (a j : nat) : SortM unit :=
  match j with
  | O => ret tt
  | S j' =>
      if a <? j then
        c <- Less j j' ;;
        if c then Swap j j' ;;; insert_down a j' else ret tt
      else ret tt
  end.

(** [insertionSort_func(data, a, b)]. *)
Definition insertionSort_func (a b : nat) : SortM unit :=
  for_each (seq (a + 1) (b - (a + 1))) (fun i => insert_down a i).

(** The loop of [siftDown_func]; [root] grows at every turn, [fuel]
    bounds the turns. *)
Fixpoint siftDown_loop (fuel root hi first : nat) : SortM unit :=
  let child := 2 * root + 1 in
  if hi <=? child then ret tt
  else
    match fuel with
    | O => panic
    | S fuel' =>
        c <- (if child + 1 <? hi
              then Less (first + child) (first + child + 1)
              else ret false) ;;
        let child := if c then child + 1 else child in
        c <- Less (first + root) (first + child) ;;
        if negb c then ret tt
        else
          Swap (first + root) (first + child) ;;;
          siftDown_loop fuel' child hi first
    end.

(** [siftDown_func(data, lo, hi, first)]. *)
Definition siftDown_func (lo hi first : nat) : SortM unit :=
  siftDown_loop hi lo hi first.

(** [heapSort_func(data, a, b)]. *)
Definition heapSort_func (a b : nat) : SortM unit :=
  let first := a in
  let lo := 0 in
  let hi := b - a in
  for_each (rev (seq 0 ((hi - 1) / 2 + 1)))
    (fun i => siftDown_func i hi first) ;;;
  for_each (rev (seq 0 hi))
    (fun i => Swap first (first + i) ;;; siftDown_func lo i first).

Inductive sortedHint : Type :=
| unknownHint
| increasingHint
| decreasingHint.

(** [order2_func(data, a, b, &swaps)]. *)
Definition order2_func (a b swaps : nat) : SortM (nat * nat * nat) :=
  c <- Less b a ;;
  if c then ret (b, a, S swaps) else ret (a, b, swaps).

(** [median_func(data, a, b, c, &swaps)]. *)
Definition median_func (a b c swaps : nat) : SortM (nat * nat) :=
  '(a, b, swaps) <- order2_func a b swaps ;;
  '(b, c, swaps) <- order2_func b c swaps ;;
  '(a, b, swaps) <- order2_func a b swaps ;;
  ret (b, swaps).

(** [medianAdjacent_func(data, a, &swaps)]. *)
Definition medianAdjacent_func (a swaps : nat) : SortM (nat * nat) :=
  median_func (a - 1) a (a + 1) swaps.

(** [choosePivot_func(data, a, b)]. *)
Definition choosePivot_func (a b : nat) : SortM (nat * sortedHint) :=
  let shortestNinther := 50 in
  let maxSwaps := 4 * 3 in
  let l := b - a in
  let swaps := 0 in
  let i := a + l / 4 * 1 in
  let j := a + l / 4 * 2 in
  let k := a + l / 4 * 3 in
  '(j, swaps) <-
    (if 8 <=? l then
       '(i, j, k, swaps) <-
         (if shortestNinther <=? l then
            '(i, swaps) <- medianAdjacent_func i swaps ;;
            '(j, swaps) <- medianAdjacent_func j swaps ;;
            '(k, swaps) <- medianAdjacent_func k swaps ;;
            ret (i, j, k, swaps)
          else ret (i, j, k, swaps)) ;;
       median_func i j k swaps
     else ret (j, swaps)) ;;
  if swaps =? 0 then ret (j, increasingHint)
  else if swaps =? maxSwaps then ret (j, decreasingHint)
  else ret (j, unknownHint).

(** The loop of [reverseRange_func]. *)
Fixpoint reverseRange_loop (fuel i j : nat) : SortM unit :=
  if i <? j then
    match fuel with
    | O => panic
    | S fuel' => Swap i j ;;; reverseRange_loop fuel' (i + 1) (j - 1)
    end
  else ret tt.

(** [reverseRange_func(data, a, b)]. *)
Definition reverseRange_func (a b : nat) : SortM unit :=
  reverseRange_loop (b - a) a (b - 1).

(** [for i < b && !data.Less(i, i-1) { i++ }]; returns [i]. *)
Fixpoint skip_ordered (fuel i b : nat) : SortM nat :=
  if i <? b then
    match fuel with
    | O => panic
    | S fuel' =>
        c <- Less i (i - 1) ;;
        if negb c then skip_ordered fuel' (i + 1) b else ret i
    end
  else ret i.

(** [for j := i - 1; j >= 1; j-- { if !data.Less(j, j-1) { break };
    data.Swap(j, j-1) }], entered at [j]. *)
Fixpoint shift_left (j : nat) : SortM unit :=
  match j with
  | O => ret tt
  | S j' =>
      c <- Less j j' ;;
      if negb c then ret tt else Swap j j' ;;; shift_left j'
  end.

(** [for j := i + 1; j < b; j++ { if !data.Less(j, j-1) { break };
    data.Swap(j, j-1) }], entered at [j]. *)
Fixpoint shift_right (fuel j b : nat) : SortM unit :=
  if j <? b then
    match fuel with
    | O => panic
    | S fuel' =>
        c <- Less j (j - 1) ;;
        if negb c then ret tt
        else Swap j (j - 1) ;;; shift_right fuel' (j + 1) b
    end
  else ret tt.

(** The outer loop of [partialInsertionSort_func]: [steps] turns are
    left, [i] is kept from one turn to the next. *)
Fixpoint partialInsertionSort_steps (steps a b i : nat) : SortM bool :=
  let shortestShifting := 50 in
  match steps with
  | O => ret false
  | S steps' =>
      i <- skip_ordered (b - i) i b ;;
      if i =? b then ret true
      else if b - a <? shortestShifting then ret false
      else
        Swap i (i - 1) ;;;
        (if 2 <=? i - a then shift_left (i - 1) else ret tt) ;;;
        (if 2 <=? b - i then shift_right (b - (i + 1)) (i + 1) b
         else ret tt) ;;;
        partialInsertionSort_steps steps' a b i
  end.

(** [partialInsertionSort_func(data, a, b)]. *)
Definition partialInsertionSort_func (a b : nat) : SortM bool :=
  let maxSteps := 5 in
  partialInsertionSort_steps maxSteps a b (a + 1).

(** [xorshift.Next]: the state is a [uint64].  The shift amounts are
    those of the xorshift paper the library cites; they only choose
    which elements [breakPatterns_func] swaps, and nothing proved below
    depends on their values. *)
Definition xorshift_Next (r : Z) : Z :=
  let r := Z.lxor r (Z.shiftl r 13 mod 2 ^ 64) in
  let r := Z.lxor r (Z.shiftr r 7) in
  let r := Z.lxor r (Z.shiftl r 17 mod 2 ^ 64) in
  r.

(** [bits.Len(x)]: the bits it takes to write [x]. *)
Definition bits_Len (x : nat) : nat :=
  match x with
  | O => 0
  | _ => Nat.log2 x + 1
  end.

(** [nextPowerOfTwo(length)]. *)
Definition nextPowerOfTwo (length : nat) : nat :=
  2 ^ bits_Len length.

(** [breakPatterns_func(data, a, b)]. *)
Definition breakPatterns_func (a b : nat) : SortM unit :=
  let length := b - a in
  if 8 <=? length then
    let random0 := Z.of_nat length in
    let modulus := nextPowerOfTwo length in
    let idx := a + (length / 4) * 2 - 1 in
    let swap_at (i : nat) (random : Z) : SortM unit :=
      let other := Z.to_nat (Z.land random (Z.of_nat modulus - 1)) in
      let other := if length <=? other then other - length else other in
      Swap (idx - 1 + i) (a + other) in
    let random1 := xorshift_Next random0 in
    let random2 := xorshift_Next random1 in
    let random3 := xorshift_Next random2 in
    swap_at 0 random1 ;;; swap_at 1 random2 ;;; swap_at 2 random3
  else ret tt.

(** [for i <= j && data.Less(i, a) { i++ }]; returns [i]. *)
Fixpoint scan_up (fuel a i j : nat) : SortM nat :=
  if i <=? j then
    match fuel with
    | O => panic
    | S fuel' =>
        c <- Less i a ;;
        if c then scan_up fuel' a (i + 1) j else ret i
    end
  else ret i.

(** [for i <= j && !data.Less(j, a) { j-- }]; returns [j]. *)
Fixpoint scan_down (fuel a i j : nat) : SortM nat :=
  if i <=? j then
    match fuel with
    | O => panic
    | S fuel' =>
        c <- Less j a ;;
        if negb c then scan_down fuel' a i (j - 1) else ret j
    end
  else ret j.

(** The last loop of [partition_func]; returns [j]. *)
Fixpoint partition_loop (fuel a i j : nat) : SortM nat :=
  match fuel with
  | O => panic
  | S fuel' =>
      i <- scan_up (j + 1 - i) a i j ;;
      j <- scan_down (j + 1 - i) a i j ;;
      if j <? i then ret j
      else Swap i j ;;; partition_loop fuel' a (i + 1) (j - 1)
  end.

(** [partition_func(data, a, b, pivot)]. *)
Definition partition_func (a b pivot : nat) : SortM (nat * bool) :=
  Swap a pivot ;;;
  let i := a + 1 in
  let j := b - 1 in
  i <- scan_up (j + 1 - i) a i j ;;
  j <- scan_down (j + 1 - i) a i j ;;
  if j <? i then
    Swap j a ;;; ret (j, true)
  else
    Swap i j ;;;
    j <- partition_loop (b - a) a (i + 1) (j - 1) ;;
    Swap j a ;;; ret (j, false).

(** [for i <= j && !data.Less(a, i) { i++ }]; returns [i]. *)
Fixpoint scan_up_eq (fuel a i j : nat) : SortM nat :=
  if i <=? j then
    match fuel with
    | O => panic
    | S fuel' =>
        c <- Less a i ;;
        if negb c then scan_up_eq fuel' a (i + 1) j else ret i
    end
  else ret i.

(** [for i <= j && data.Less(a, j) { j-- }]; returns [j]. *)
Fixpoint scan_down_eq (fuel a i j : nat) : SortM nat :=
  if i <=? j then
    match fuel with
    | O => panic
    | S fuel' =>
        c <- Less a j ;;
        if c then scan_down_eq fuel' a i (j - 1) else ret j
    end
  else ret j.

(** The loop of [partitionEqual_func]; returns [i]. *)
Fixpoint partitionEqual_loop (fuel a i j : nat) : SortM nat :=
  match fuel with
  | O => panic
  | S fuel' =>
      i <- scan_up_eq (j + 1 - i) a i j ;;
      j <- scan_down_eq (j + 1 - i) a i j ;;
      if j <? i then ret i
      else Swap i j ;;; partitionEqual_loop fuel' a (i + 1) (j - 1)
  end.

(** [partitionEqual_func(data, a, b, pivot)]. *)
Definition partitionEqual_func (a b pivot : nat) : SortM nat :=
  Swap a pivot ;;;
  partitionEqual_loop (b - a) a (a + 1) (b - 1).

Definition is_increasing (h : sortedHint) : bool :=
  match h with increasingHint => true | _ => false end.

Definition is_decreasing (h : sortedHint) : bool :=
  match h with decreasingHint => true | _ => false end.

(** [pdqsort_func(data, a, b, limit)].  A turn of its loop and a call
    of itself both take one unit of [fuel]; [wasBalanced] and
    [wasPartitioned] are the two flags of the loop. *)
Fixpoint pdqsort_loop (fuel a b limit : nat)
  (wasBalanced wasPartitioned : bool) : SortM unit :=
  let maxInsertion := 12 in
  let length := b - a in
  if length <=? maxInsertion then insertionSort_func a b
  else
    match fuel with
    | O => panic
    | S fuel' =>
        if limit =? 0 then heapSort_func a b
        else
          limit <- (if negb wasBalanced
                    then breakPatterns_func a b ;;; ret (limit - 1)
                    else ret limit) ;;
          '(pivot, hint) <- choosePivot_func a b ;;
          '(pivot, hint) <-
            (if is_decreasing hint
             then reverseRange_func a b ;;;
                  ret ((b - 1) - (pivot - a), increasingHint)
             else ret (pivot, hint)) ;;
          sorted <-
            (if wasBalanced && wasPartitioned && is_increasing hint
             then partialInsertionSort_func a b
             else ret false) ;;
          if sorted then ret tt
          else
            dup <- (if 0 <? a
                    then c <- Less (a - 1) pivot ;; ret (negb c)
                    else ret false) ;;
            if dup then
              mid <- partitionEqual_func a b pivot ;;
              pdqsort_loop fuel' mid b limit wasBalanced wasPartitioned
            else
              '(mid, alreadyPartitioned) <- partition_func a b pivot ;;
              let wasPartitioned := alreadyPartitioned in
              let leftLen := mid - a in
              let rightLen := b - mid in
              let balanceThreshold := length / 8 in
              if leftLen <? rightLen then
                let wasBalanced := balanceThreshold <=? leftLen in
                pdqsort_loop fuel' a mid limit true true ;;;
                pdqsort_loop fuel' (mid + 1) b limit
                  wasBalanced wasPartitioned
              else
                let wasBalanced := balanceThreshold <=? rightLen in
                pdqsort_loop fuel' (mid + 1) b limit true true ;;;
                pdqsort_loop fuel' a mid limit
                  wasBalanced wasPartitioned
    end.

Definition pdqsort_func (a b limit : nat) : SortM unit :=
  pdqsort_loop (S (b - a)) a b limit true true.

(** [sort.Slice(x, less)]: the slice after the call. *)
Definition Slice (x : list T) : Res (list T) :=
  let length := List.length x in
  let limit := bits_Len length in
  match pdqsort_func 0 length limit x with
  | Ok (_, x') => Ok x'
  | Panic => Panic
  end.

End Slice.
End sort.

(* ------------------------------------------------------------------ *)
(** * Processes and their ranking *)

Open Scope string_scope.

(** [ProcessInfo]. *)
Record ProcessInfo : Type := {
  PID : Z;
  CPU : float;
  Name : string
}.

(** The closure handed to [sort.Slice], on the two elements it reads:
    [processes[i].CPU > processes[j].CPU]. *)
Definition cpu_greater (p q : ProcessInfo) : bool := fgt (CPU p) (CPU q).

(** Straight-line code that may panic. *)
Definition bindR {A B} (m : Res A) (k : A -> Res B) : Res B :=
  match m with
  | Ok a => k a
  | Panic => Panic
  end.

Declare Scope res_scope.
Delimit Scope res_scope with res.
Notation "x <- m ;; k" := (bindR m (fun x => k))
  (at level 61, m at next level, right associativity) : res_scope.

(** [l[i]]. *)
Definition index {A} (l : list A) (i : nat) : Res A :=
  match nth_error l i with
  | Some x => Ok x
  | None => Panic
  end.

(** [l[i:]]. *)
Definition slice_from {A} (l : list A) (i : nat) : Res (list A) :=
  if (i <=? List.length l)%nat then Ok (skipn i l) else Panic.

(** [if len(l) > 10 { l = l[:10] }]. *)
Definition truncate10 {A} (l : list A) : list A :=
  if (10 <? List.length l)%nat then firstn 10 l else l.

(** One turn of the loop over the lines of [ps aux]: [Ok None] is
    [continue], [Ok (Some p)] appends [p]. *)
Definition parse_ps_line (line : string) : Res (option ProcessInfo) :=
  (let fields := strings.Fields line in
   if (List.length fields <? 11)%nat then Ok None
   else
     f2 <- index fields 2 ;;
     match strconv.ParseFloat f2 with
     | None => Ok None
     | Some cpu =>
         f1 <- index fields 1 ;;
         match strconv.Atoi f1 with
         | None => Ok None
         | Some pid =>
             f10 <- index fields 10 ;;
             Ok (Some {| PID := pid; CPU := cpu; Name := f10 |})
         end
     end)%res.

(** The double quote. *)
Definition quote : ascii := "034"%char.

(** One turn of the loop over the lines of [tasklist /fo csv]. *)
Definition parse_tasklist_line (line : string)
  : Res (option ProcessInfo) :=
  (let fields := strings.Split line "," in
   if (List.length fields <? 8)%nat then Ok None
   else
     f7 <- index fields 7 ;;
     let cpu := strings.Trim f7 quote in
     match strconv.ParseFloat (strings.TrimSuffix cpu " K") with
     | None => Ok None
     | Some cpuFloat =>
         f1 <- index fields 1 ;;
         match strconv.Atoi (strings.Trim f1 quote) with
         | None => Ok None
         | Some pid =>
             f0 <- index fields 0 ;;
             Ok (Some {| PID := pid; CPU := cpuFloat;
                         Name := strings.Trim f0 quote |})
         end
     end)%res.

(** [for _, line := range lines { ... processes = append(processes, p) }]. *)
Fixpoint parse_lines (parse : string -> Res (option ProcessInfo))
  (lines : list string) (processes : list ProcessInfo)
  : Res (list ProcessInfo) :=
  match lines with
  | [] => Ok processes
  | line :: lines' =>
      match parse line with
      | Panic => Panic
      | Ok None => parse_lines parse lines' processes
      | Ok (Some p) => parse_lines parse lines' (processes ++ [p])%list
      end
  end.

(** What the [switch os] of [parseProcessOutput] leaves in
    [processes]. *)
Definition collect (output os : string) : Res (list ProcessInfo) :=
  (let lines := strings.Split output "010" in
   if String.eqb os "darwin" || String.eqb os "linux" then
     data <- slice_from lines 1 ;;
     parse_lines parse_ps_line data []
   else if String.eqb os "windows" then
     parse_lines parse_tasklist_line lines []
   else Ok [])%res.

(** [parseProcessOutput(output, os)]. *)
Definition parseProcessOutput (output os : string)
  : Res (list ProcessInfo * option error) :=
  (processes <- collect output os ;;
   processes <- sort.Slice cpu_greater processes ;;
   let processes := truncate10 processes in
   Ok (processes, None))%res.

(* ------------------------------------------------------------------ *)
(** * The program and its environment *)

(** A [*process.Process] of gopsutil: its id and what its two queries
    answer. *)
Module process.
Record Process : Type := {
  Pid : Z;
  CPUPercent : float * option error;
  Name : string * option error
}.
End process.

(** What the outside world answers. *)
Record Env : Type := {
  (** [cpu.Times(false)], at its first, second, ... call *)
  cpu_Times : nat -> list (TimesStat float) * option error;
  (** [runtime.GOOS] *)
  runtime_GOOS : string;
  (** [exec.Command(name, args...).Output()] *)
  cmd_Output : string -> list string -> string * option error;
  (** [process.Processes()] *)
  process_Processes : list process.Process * option error
}.

(** What the program did to the outside world. *)
Inductive Event : Type :=
| EvTimes
| EvSleep (nanoseconds : Z)
| EvExec (name : string) (args : list string)
| EvProcesses
| EvPrintf (status : string) (usedPct : float)
    (perfData : list (string * float)) (topProcesses : list ProcessInfo).

Record State : Type := {
  times_calls : nat;
  log : list Event
}.

Definition M (A : Type) : Type := ST State A.

Definition emit (e : Event) : M unit :=
  fun st => Ok (tt, {| times_calls := times_calls st;
                       log := (log st ++ [e])%list |}).

Definition call_cpu_Times (env : Env)
  : M (list (TimesStat float) * option error) :=
  fun st => Ok (cpu_Times env (times_calls st),
                {| times_calls := S (times_calls st);
                   log := (log st ++ [EvTimes])%list |}).

Definition call_cmd_Output (env : Env) (name : string)
  (args : list string) : M (string * option error) :=
  bind (emit (EvExec name args)) (fun _ => ret (cmd_Output env name args)).

Definition call_process_Processes (env : Env)
  : M (list process.Process * option error) :=
  bind (emit EvProcesses) (fun _ => ret (process_Processes env)).

(** Code that may panic, run where there is a state. *)
Definition lift {A} (r : Res A) : M A :=
  fun st => match r with
            | Ok a => Ok (a, st)
            | Panic => Panic
            end.

(** [time.ParseDuration(fmt.Sprintf("%ds", n))]: [n] seconds in
    nanoseconds, an error when that does not fit a [Duration]. *)
Definition ParseDuration_seconds (n : Z) : Z * option error :=
  if (Z.abs n >? 9223372036)%Z
  then (0%Z, Some "time: invalid duration")
  else ((n * 1000000000)%Z, None).

(** The first version: [ps] or [tasklist], and their text parsed. *)
Module CommandRanker.
Local Open Scope go_scope.

(** What follows the [switch] of [getTopCPUProcesses], once a command
    was chosen and run. *)
Definition run_and_parse (env : Env) (name : string) (args : list string)
  : M (list ProcessInfo * option error) :=
  '(output, err) <- call_cmd_Output env name args ;;
  match err with
  | Some e => ret ([], Some (Errorf "error executing command: " e))
  | None => lift (parseProcessOutput output (runtime_GOOS env))
  end.

(** [getTopCPUProcesses()]. *)
Definition getTopCPUProcesses (env : Env)
  : M (list ProcessInfo * option error) :=
  let GOOS := runtime_GOOS env in
  if String.eqb GOOS "darwin" || String.eqb GOOS "linux" then
    run_and_parse env "ps" ["aux"; "--sort=-pcpu"]
  else if String.eqb GOOS "windows" then
    run_and_parse env "tasklist" ["/v"; "/fo"; "csv"; "/nh"; "/sort:cpu"]
  else
    ret ([], Some (Errorf "unsupported operating system: " GOOS)).
End CommandRanker.

(** The second version: every process asked directly. *)
Module DirectRanker.
Local Open Scope go_scope.

(** The loop over [procs]. *)
Fixpoint collect (procs : list process.Process)
  (processList : list ProcessInfo) : list ProcessInfo :=
  match procs with
  | [] => processList
  | p :: procs' =>
      let '(cpuPercent, err) := process.CPUPercent p in
      match err with
      | Some _ => collect procs' processList
      | None =>
          let '(name, err) := process.Name p in
          match err with
          | Some _ => collect procs' processList
          | None =>
              collect procs'
                (processList
                 ++ [{| PID := process.Pid p; CPU := cpuPercent;
                        Name := name |}])%list
          end
      end
  end.

(** [getTopCPUProcesses()]. *)
Definition getTopCPUProcesses (env : Env)
  : M (list ProcessInfo * option error) :=
  '(procs, err) <- call_process_Processes env ;;
  match err with
  | Some e => ret ([], Some e)
  | None =>
      let processList := collect procs [] in
      processList <- lift (sort.Slice cpu_greater processList) ;;
      let processList := truncate10 processList in
      ret (processList, None)
  end.
End DirectRanker.

Section Check.
Variable env : Env.
Variable plugin : Config.
(** either of the two [getTopCPUProcesses] *)
Variable getTopCPUProcesses : M (list ProcessInfo * option error).

Local Open Scope go_scope.

(** The arguments of the format of [perfData], in its order. *)
Definition perfData (u : Usage float) : list (string * float) :=
  [("cpu_idle", idlePct u); ("cpu_system", sysPct u);
   ("cpu_user", userPct u); ("cpu_nice", nicePct u);
   ("cpu_iowait", iowaitPct u); ("cpu_irq", irqPct u);
   ("cpu_softirq", softirqPct u); ("cpu_steal", stealPct u);
   ("cpu_guest", guestPct u); ("cpu_guestnice", guestnicePct u)].

(** [executeCheck].  What it prints is kept as the values it formats. *)
Definition executeCheck : M (Z * option error) :=
  '(start, err) <- call_cpu_Times env ;;
  match err with
  | Some e =>
      ret (CheckStateCritical,
           Some (Errorf "error obtaining CPU timings: " e))
  | None =>
      start0 <- lift (index start 0) ;;
      let '(duration, err) := ParseDuration_seconds (Interval plugin) in
      match err with
      | Some e =>
          ret (CheckStateCritical,
               Some (Errorf "error parsing duration: " e))
      | None =>
          emit (EvSleep duration) ;;;
          '(end_, err) <- call_cpu_Times env ;;
          match err with
          | Some e =>
              ret (CheckStateCritical,
                   Some (Errorf "error obtaining CPU timings: " e))
          | None =>
              end0 <- lift (index end_ 0) ;;
              let u := usage start0 end0 in
              '(topProcesses, err) <- getTopCPUProcesses ;;
              match err with
              | Some e =>
                  ret (CheckStateCritical,
                       Some (Errorf "error obtaining top CPU processes: "
                               e))
              | None =>
                  if fgt (usedPct u) (Critical plugin) then
                    emit (EvPrintf "Critical" (usedPct u) (perfData u)
                            topProcesses) ;;;
                    ret (CheckStateCritical, None)
                  else if fgt (usedPct u) (Warning plugin) then
                    emit (EvPrintf "Warning" (usedPct u) (perfData u)
                            topProcesses) ;;;
                    ret (CheckStateWarning, None)
                  else
                    emit (EvPrintf "OK" (usedPct u) (perfData u)
                            topProcesses) ;;;
                    ret (CheckStateOK, None)
              end
          end
      end
  end.

(** The workflow of a check of the sensu plugin SDK, which [main]
    starts: the arguments are validated, and the check runs only when
    validation returned no error. *)
Definition goCheckWorkflow : M (Z * option error) :=
  let '(status, err) := checkArgs plugin in
  match err with
  | Some e => ret (status, Some (Errorf "error validating input: " e))
  | None =>
      '(status, err) <- executeCheck ;;
      match err with
      | Some e => ret (status, Some (Errorf "error executing check: " e))
      | None => ret (status, None)
      end
  end.
End Check.

(** [main], first version: the check with the ranker that parses the
    output of a command. *)
Definition main_with_command (env : Env) (plugin : Config)
  : M (Z * option error) :=
  goCheckWorkflow env plugin (CommandRanker.getTopCPUProcesses env).

(** [main], second version: the check with the ranker that asks every
    process. *)
Definition main_direct (env : Env) (plugin : Config)
  : M (Z * option error) :=
  goCheckWorkflow env plugin (DirectRanker.getTopCPUProcesses env).

(** The state a run starts in. *)
Definition initial : State := {| times_calls := 0; log := [] |}.

(** The status and the word [executeCheck] prints for a used
    percentage. *)
Definition threshold_status (plugin : Config) (used : float) : Z * string :=
  if fgt used (Critical plugin) then (CheckStateCritical, "Critical")
  else if fgt used (Warning plugin) then (CheckStateWarning, "Warning")
  else (CheckStateOK, "OK").

(** The state after the two snapshots and the sleep between them. *)
Definition sampled (plugin : Config) (st : State) : State :=
  {| times_calls := S (S (times_calls st));
     log := (((log st ++ [EvTimes])
              ++ [EvSleep (fst (ParseDuration_seconds (Interval plugin)))])
             ++ [EvTimes])%list |}.

(** The state after the report has been printed. *)
Definition reported (plugin : Config) (u : Usage float)
  (top : list ProcessInfo) (st : State) : State :=
  {| times_calls := times_calls st;
     log := (log st
             ++ [EvPrintf (snd (threshold_status plugin (usedPct u)))
                   (usedPct u) (perfData u) top])%list |}.


(* ------------------------------------------------------------------ *)
(** * Sample inputs *)

(** A snapshot with the given user and idle counters, the other
    counters at zero. *)
Definition snapshot {F : Type} (zero user idle : F) : TimesStat F :=
  {| User := user; System := zero; Idle := idle; Nice := zero;
     Iowait := zero; Irq := zero; Softirq := zero; Steal := zero;
     Guest := zero; GuestNice := zero |}.

(** A Linux host on which [cpu.Times] answers [s] at its first call and
    [e] afterwards, [ps] prints [output], and no process is listed
    directly. *)
Definition host (s e : TimesStat float) (output : string) : Env :=
  {| cpu_Times := fun n => match n with
                           | O => ([s], None)
                           | _ => ([e], None)
                           end;
     runtime_GOOS := "linux";
     cmd_Output := fun _ _ => (output, None);
     process_Processes := ([], None) |}.

(** The same host with a command that fails. *)
Definition host_without_ps (s e : TimesStat float) : Env :=
  {| cpu_Times := fun n => match n with
                           | O => ([s], None)
                           | _ => ([e], None)
                           end;
     runtime_GOOS := "linux";
     cmd_Output := fun _ _ => ("", Some "exit status 1");
     process_Processes := ([], None) |}.

(** A FreeBSD host: the same counters, a [ps] that would print
    nothing. *)
Definition freebsd_host : Env :=
  {| cpu_Times := fun n => match n with
                           | O => ([snapshot 0%float 0%float 0%float], None)
                           | _ => ([snapshot 0%float 80%float 20%float],
                                   None)
                           end;
     runtime_GOOS := "freebsd";
     cmd_Output := fun _ _ => ("", None);
     process_Processes := ([], None) |}.

(** A Linux host with the snapshots [s] and [e] and one process. *)
Definition small_host (s e : TimesStat float) : Env :=
  host s e
    ("USER PID %CPU %MEM VSZ RSS TTY STAT START TIME COMMAND"
     ++ String "010" "root 1 0.5 0.1 1000 500 ? Ss 10:00 0:01 init").

(** The process of [small_host]. *)
Definition init_process : ProcessInfo :=
  {| PID := 1; CPU := 0.5; Name := "init" |}.

(** Two snapshots in which every counter advances, each by its own
    amount: 100, 60, 40, 20, 12, 8, 6, 5, 3 and 2 seconds, 256 in
    all. *)
Definition ten_counters_start : TimesStat float :=
  {| User := 1000; System := 900; Idle := 8000; Nice := 70;
     Iowait := 60; Irq := 50; Softirq := 40; Steal := 30; Guest := 20;
     GuestNice := 10 |}%float.

Definition ten_counters_end : TimesStat float :=
  {| User := 1100; System := 960; Idle := 8040; Nice := 90;
     Iowait := 72; Irq := 58; Softirq := 46; Steal := 35; Guest := 23;
     GuestNice := 12 |}%float.

(** The thresholds of the spec's end-to-end example. *)
Definition thresholds_90_75 : Config :=
  {| Critical := 90; Warning := 75; Interval := 2 |}.

(* ------------------------------------------------------------------ *)
(** * The numbers that floats stand for *)

(** [2 ^ e], for an exponent of either sign. *)
Definition pow2 (e : Z) : Q := (2 ^ e)%Q.

(** The rational a float of the specification stands for (0 for the
    infinities and NaN). *)
Definition SF2Q (x : spec_float) : Q :=
  match x with
  | S754_finite s m e =>
      ((if s then -1 else 1) * (inject_Z (Zpos m) * pow2 e))%Q
  | _ => 0%Q
  end.

(** A zero or a positive finite float. *)
Definition nonneg_finite (x : spec_float) : bool :=
  match x with
  | S754_zero _ => true
  | S754_finite false _ _ => true
  | _ => false
  end.

(** How far [shr_fexp] shifts a mantissa [m] with exponent [e]. *)
Definition n_shift (m e : Z) : Z := (fexp prec emax (Zdigits2 m + e) - e)%Z.

(** One unit in the last place of [v], and the smallest subnormal. *)
Definition ulp_bound (v : Q) : Q :=
  (v * (1 # 4503599627370496) + pow2 (-1074))%Q.

(** The rational a [float64] stands for (0 for the infinities and
    NaN). *)
Definition value (x : float) : Q := SF2Q (Prim2SF x).

(** Neither an infinity nor NaN. *)
Definition finite (x : float) : bool :=
  match Prim2SF x with
  | S754_zero _ | S754_finite _ _ _ => true
  | _ => false
  end.

(** Finite and not negative. *)
Definition counted (x : float) : bool := nonneg_finite (Prim2SF x).

(** The ten counters of a snapshot, in the order [executeCheck] adds
    them. *)
Definition counters : list (TimesStat float -> float) :=
  [@User float; @System float; @Idle float; @Nice float; @Iowait float;
   @Irq float; @Softirq float; @Steal float; @Guest float;
   @GuestNice float].

(** What a counter has gained from the first snapshot to the second, as
    [executeCheck] computes it: [t2[0].Idle - t1[0].Idle] and the
    like. *)
Definition delta (start end_ : TimesStat float)
    (counter : TimesStat float -> float) : float :=
  (counter end_ - counter start)%float.

(* ------------------------------------------------------------------ *)
(** * What sorting is to achieve *)

Module SortSpec.
Section Spec.
Local Open Scope nat_scope.
Variable T : Type.
Variable less : T -> T -> bool.

(** [less] at two places of a slice; false out of range. *)
Definition lessAt (s : list T) (i j : nat) : bool :=
  match nth_error s i, nth_error s j with
  | Some x, Some y => less x y
  | _, _ => false
  end.

(** The slice after [Swap(i, j)]. *)
Definition swapped (i j : nat) (s : list T) : list T :=
  match nth_error s i, nth_error s j with
  | Some x, Some y => sort.set_nth j x (sort.set_nth i y s)
  | _, _ => s
  end.

(** Nothing moved outside [a, b). *)
Definition same_outside (a b : nat) (s s' : list T) : Prop :=
  forall k, k < a \/ b <= k -> nth_error s' k = nth_error s k.

(** The elements of [a, b) rearranged, the others left where they
    were. *)
Definition range_perm (a b : nat) (s s' : list T) : Prop :=
  Permutation s s' /\ same_outside a b s s'.

(** [s[a:b]] in the order of [less]: no element is less than one that
    stands before it. *)
Definition sorted_range (a b : nat) (s : list T) : Prop :=
  forall i j, a <= i -> i < j -> j < b -> lessAt s j i = false.

(** The whole slice in the order of [less]. *)
Definition sorted (s : list T) : Prop := sorted_range 0 (length s) s.

(** The elements that a test [p] picks, in their order.  Two slices
    that agree on it for every [p] that picks no two elements of which
    one is less than the other hold the elements that [less] does not
    tell apart in the same order: the second is a stable rearrangement
    of the first. *)
Definition ties_kept (s s' : list T) : Prop :=
  forall p : T -> bool,
    (forall x y, p x = true -> p y = true -> less x y = false) ->
    filter p s' = filter p s.


(** Where the element at [k] comes from after a swap. *)
Definition transpose (i j k : nat) : nat :=
  if Nat.eqb k i then j else if Nat.eqb k j then i else k.

(** What the scans of [partition_func] have established: the pivot is
    at [a], everything in (a, i) is less than it, nothing in (j, b)
    is. *)
Definition split_at (a b i j : nat) (s : list T) : Prop :=
  (forall k, a < k -> k < i -> lessAt s k a = true)
  /\ (forall k, j < k -> k < b -> lessAt s k a = false).

(** What [partition_func] returns: everything before [mid] is less
    than the element at [mid], nothing after it is. *)
Definition partitioned (a b mid : nat) (s : list T) : Prop :=
  (forall k, a <= k -> k < mid -> lessAt s k mid = true)
  /\ (forall k, mid < k -> k < b -> lessAt s k mid = false).

(** What [partitionEqual_func] establishes: the pivot is at [a], it is
    less than nothing in (a, mid) and less than everything in
    [mid, b). *)
Definition split_eq (a b i j : nat) (s : list T) : Prop :=
  (forall k, a < k -> k < i -> lessAt s a k = false)
  /\ (forall k, j < k -> k < b -> lessAt s a k = true).

(** The elements of [a, b), as a list. *)
Definition segment (a b : nat) (s : list T) : list T :=
  firstn (b - a) (skipn a s).


(** [s[a:k]] is in order but for the element at [j], which is not
    above those after it: where insertion stands while its element
    moves down. *)
Definition sorted_but (j a k : nat) (s : list T) : Prop :=
  (forall p q, a <= p -> p < q -> q < k -> p <> j -> q <> j ->
     lessAt s q p = false)
  /\ (forall q, j < q -> q < k -> lessAt s q j = false).


(** The heap of [heapSort_func]: the node [c] is a child of [k]. *)
Definition child_of (c k : nat) : Prop := c = 2 * k + 1 \/ c = 2 * k + 2.

(** From the node [lo] on, no node of the heap of [hi] elements that
    starts at [first] is less than a child of its own. *)
Definition heap (lo hi first : nat) (s : list T) : Prop :=
  forall k c, lo <= k -> c < hi -> child_of c k ->
    lessAt s (first + k) (first + c) = false.

(** The same but for the node [root], whose parent is not less than
    the children of [root]: where sifting down stands. *)
Definition heap_but (root lo hi first : nat) (s : list T) : Prop :=
  (forall k c, lo <= k -> c < hi -> child_of c k -> k <> root ->
     lessAt s (first + k) (first + c) = false)
  /\ (forall p c, lo <= p -> child_of root p -> c < hi ->
        child_of c root ->
        lessAt s (first + p) (first + c) = false).

(** Nothing in [m, hi) is less than anything in [0, m), counted from
    [first]. *)
Definition below (m hi first : nat) (s : list T) : Prop :=
  forall p q, p < m -> m <= q -> q < hi ->
    lessAt s (first + q) (first + p) = false.


(** Nothing in [a, b) is less than the element just before [a]: what
    the sort knows of the range it works on. *)
Definition bounded_below (a b : nat) (s : list T) : Prop :=
  a = 0 \/ forall k, a <= k -> k < b -> lessAt s k (a - 1) = false.

End Spec.
End SortSpec.

(* ------------------------------------------------------------------ *)
(** * The rows of an acquisition output, read declaratively *)

(** The [i]-th field of a row, empty when the row is shorter. *)
Definition field (fields : list string) (i : nat) : string :=
  nth i fields "".

(** The three columns of a row that the parser reads: where the PID,
    the CPU value and the name stand, after the quotes and the unit of
    the CSV format are stripped. *)
Record Columns : Type := {
  enough_fields : bool;
  pid_column : string;
  cpu_column : string;
  name_column : string
}.

Definition ps_columns (row : string) : Columns :=
  let fields := strings.Fields row in
  {| enough_fields := (11 <=? length fields)%nat;
     pid_column := field fields 1;
     cpu_column := field fields 2;
     name_column := field fields 10 |}.

Definition tasklist_columns (row : string) : Columns :=
  let fields := strings.Split row "," in
  {| enough_fields := (8 <=? length fields)%nat;
     pid_column := strings.Trim (field fields 1) quote;
     cpu_column :=
       strings.TrimSuffix (strings.Trim (field fields 7) quote) " K";
     name_column := strings.Trim (field fields 0) quote |}.

Definition is_some {A} (o : option A) : bool :=
  match o with Some _ => true | None => false end.

(** A row parses when it has enough fields, a numeric CPU value and a
    numeric PID. *)
Definition parses (c : Columns) : bool :=
  enough_fields c
  && is_some (strconv.ParseFloat (cpu_column c))
  && is_some (strconv.Atoi (pid_column c)).

(** The sample of a row that parses. *)
Definition sample (c : Columns) : ProcessInfo :=
  {| PID := match strconv.Atoi (pid_column c) with
            | Some pid => pid
            | None => 0%Z
            end;
     CPU := match strconv.ParseFloat (cpu_column c) with
            | Some cpu => cpu
            | None => 0%float
            end;
     Name := name_column c |}.

Definition is_unix (os : string) : bool :=
  String.eqb os "darwin" || String.eqb os "linux".

Definition is_windows (os : string) : bool := String.eqb os "windows".

(** The rows of an output: its lines, without the header that [ps]
    prints. *)
Definition data_rows (output os : string) : list Columns :=
  if is_unix os then map ps_columns (tl (strings.Split output "010"))
  else if is_windows os
  then map tasklist_columns (strings.Split output "010")
  else [].

(** The samples of the rows that parse, in the order of the rows. *)
Definition parsed_samples (output os : string) : list ProcessInfo :=
  map sample (filter parses (data_rows output os)).

(** The line feed. *)
Definition nl : string := String "010" EmptyString.

(** An output of [ps aux]: the header and the given rows. *)
Definition ps_output (rows : list string) : string :=
  fold_left (fun text row => text ++ nl ++ row) rows
    "USER PID %CPU %MEM VSZ RSS TTY STAT START TIME COMMAND".

(** A row of [ps aux] with the given PID, CPU column and command. *)
Definition ps_row (pid cpu command : string) : string :=
  "root " ++ pid ++ " " ++ cpu ++ " 0.1 1000 500 ? Ss 10:00 0:01 "
  ++ command.

(** Eleven rows that parse, with the CPU values 11.0 down to 1.0. *)
Definition eleven_rows : string :=
  ps_output
    (map (fun n => ps_row n (n ++ ".0") ("c" ++ n))
       ["11"; "10"; "9"; "8"; "7"; "6"; "5"; "4"; "3"; "2"; "1"]).

(** The CPU value that a row's CPU column denotes, if any. *)
Definition cpu_value (c : Columns) : option float :=
  strconv.ParseFloat (cpu_column c).

(** Whether [runtime.GOOS] is one that [getTopCPUProcesses] knows. *)
Definition supported (os : string) : bool := is_unix os || is_windows os.

(* ------------------------------------------------------------------ *)
(** * What ranking is to achieve *)

(** Go's [x == x]: [x] is a number, not NaN. *)
Definition not_nan (x : float) : bool := feq x x.

(** The sample has a CPU value that is a number. *)
Definition cpu_not_nan (p : ProcessInfo) : Prop := not_nan (CPU p) = true.

(** Sorted by CPU value descending: the CPU value of a sample is
    greater than or equal to that of every sample after it. *)
Definition descending (l : list ProcessInfo) : Prop :=
  forall i j p q,
    (i < j)%nat -> nth_error l i = Some p -> nth_error l j = Some q ->
    fle (CPU q) (CPU p) = true.

(** No sample of [rest] has a CPU value above that of a sample of
    [l]. *)
Definition none_above (l rest : list ProcessInfo) : Prop :=
  forall p q, In p l -> In q rest -> fle (CPU q) (CPU p) = true.

(** The samples with the CPU value [c]. *)
Definition with_cpu (c : float) (l : list ProcessInfo) : list ProcessInfo :=
  filter (fun p => feq (CPU p) c) l.

(** Ties broken by enumeration order: the samples of [l] that share a
    CPU value stand in [l] in the order they have in [samples], none
    left out before one that is kept. *)
Definition ties_in_enumeration_order (samples l : list ProcessInfo)
  : Prop :=
  forall c, exists rest, with_cpu c samples = (with_cpu c l ++ rest)%list.

(** Thirteen rows, all with the CPU value 0.0 but the seventh. *)
Definition thirteen_rows : string :=
  ps_output
    (map (fun n => ps_row n (if String.eqb n "7" then "5.0" else "0.0")
                     ("c" ++ n))
       ["1"; "2"; "3"; "4"; "5"; "6"; "7"; "8"; "9"; "10"; "11"; "12";
        "13"]).

(** Three rows, the second with a CPU column that reads NaN. *)
Definition rows_with_nan (first last : string) : string :=
  ps_output [ps_row "1" first "a"; ps_row "2" "NaN" "b";
             ps_row "3" last "c"].

(* ================================================================== *)
(** * Further vocabulary: runs of the check *)

(** Either version of [getTopCPUProcesses], on the host [env]. *)
Definition ranker_of (env : Env)
  (getTop : M (list ProcessInfo * option error)) : Prop :=
  getTop = CommandRanker.getTopCPUProcesses env
  \/ getTop = DirectRanker.getTopCPUProcesses env.

(** The event is a report written to standard output. *)
Definition is_report (ev : Event) : bool :=
  match ev with
  | EvPrintf _ _ _ _ => true
  | _ => false
  end.

(** The reports among the events. *)
Definition reports (evs : list Event) : list Event := filter is_report evs.

(** A host whose process table holds the given processes, with the
    snapshots [s] and [e]. *)
Definition host_with_processes (s e : TimesStat float)
  (procs : list process.Process) : Env :=
  {| cpu_Times := fun n => match n with
                           | O => ([s], None)
                           | _ => ([e], None)
                           end;
     runtime_GOOS := "linux";
     cmd_Output := fun _ _ => ("", None);
     process_Processes := (procs, None) |}.

(** A host whose [cpu.Times] answers an empty slice and no error. *)
Definition host_without_counters : Env :=
  {| cpu_Times := fun _ => ([], None);
     runtime_GOOS := "linux";
     cmd_Output := fun _ _ => ("", None);
     process_Processes := ([], None) |}.

(** A host of the given operating system, 80% busy, whose commands
    print nothing. *)
Definition host_on (GOOS : string) : Env :=
  {| cpu_Times := fun n =>
       match n with
       | O => ([snapshot 0%float 0%float 0%float], None)
       | _ => ([snapshot 0%float 80%float 20%float], None)
       end;
     runtime_GOOS := GOOS;
     cmd_Output := fun _ _ => ("", None);
     process_Processes := ([], None) |}.

(* ------------------------------------------------------------------ *)
(** * Further vocabulary: text *)

(** The bytes of a string. *)
Definition bytes (s : string) : list ascii := list_ascii_of_string s.

(** White space of one byte: '\t' '\n' '\v' '\f' '\r' ' '. *)
Definition is_ascii_space (c : ascii) : bool :=
  let b := strings.byte c in
  ((9 <=? b) && (b <=? 13) || (b =? 32))%N.

(** The first and the last byte of a string. *)
Definition first_byte (s : string) : option ascii :=
  match s with
  | EmptyString => None
  | String c _ => Some c
  end.

Fixpoint last_byte (s : string) : option ascii :=
  match s with
  | EmptyString => None
  | String c EmptyString => Some c
  | String _ s' => last_byte s'
  end.

(** [strings.Join(elems, sep)]: the elements with [sep] between
    them. *)
Fixpoint Join (elems : list string) (sep : string) : string :=
  match elems with
  | [] => EmptyString
  | e :: rest =>
      match rest with
      | [] => e
      | _ :: _ => e ++ sep ++ Join rest sep
      end
  end.

(** The bytes that a numeral accepted by [strconv.ParseFloat] can
    hold: letters, digits, the sign, the point and the underscore. *)
Definition numeral_byte (c : ascii) : bool :=
  let b := strings.byte c in
  ((48 <=? b) && (b <=? 57) || (65 <=? b) && (b <=? 90)
   || (97 <=? b) && (b <=? 122) || (b =? 43) || (b =? 45) || (b =? 46)
   || (b =? 95))%N.

(** Whether the byte [c] stands in [s]. *)
Definition has_byte (c : ascii) (s : string) : bool :=
  existsb (Ascii.eqb c) (bytes s).

(* ------------------------------------------------------------------ *)
(** * Further vocabulary: ranking *)

(** [descending], decided. *)
Fixpoint descendingb (l : list ProcessInfo) : bool :=
  match l with
  | [] => true
  | p :: l' => forallb (fun q => fle (CPU q) (CPU p)) l' && descendingb l'
  end.

(** A process answers when neither [CPUPercent()] nor [Name()]
    returns an error. *)
Definition answers (p : process.Process) : bool :=
  negb (is_some (snd (process.CPUPercent p)))
  && negb (is_some (snd (process.Name p))).

(** The sample of a process that answers. *)
Definition info_of (p : process.Process) : ProcessInfo :=
  {| PID := process.Pid p;
     CPU := fst (process.CPUPercent p);
     Name := fst (process.Name p) |}.

(** Three processes, of which the second has exited. *)
Definition three_processes : list process.Process :=
  [{| process.Pid := 1; process.CPUPercent := (0.5%float, None);
      process.Name := ("init", None) |};
   {| process.Pid := 2; process.CPUPercent := (0%float, Some "gone");
      process.Name := ("", Some "gone") |};
   {| process.Pid := 3; process.CPUPercent := (12.5%float, None);
      process.Name := ("sh", None) |}].

(** A row of [tasklist /v /fo csv /nh]. *)
Definition tasklist_row (name pid cpu : string) : string :=
  String quote name ++ String quote "," ++ String quote pid
  ++ String quote ",Console,1,4 K,Running,user,"
  ++ String quote cpu ++ String quote ",N/A".

(* ------------------------------------------------------------------ *)
(** * Rounding in float64

    What one operation of the sampler does to the number it computes:
    [binary_round_aux], to which the specifications of the primitive
    operations lead, returns a float within one unit in the last place
    of the exact result.  Only finite operands that are not negative are
    treated, which is what the sampler has when no counter decreases. *)

Module Rounding.
Local Open Scope Z_scope.

(** ** Powers of two *)

Lemma pow2_pos e : (0 < pow2 e)%Q.
Proof. apply Qpower_0_lt. reflexivity. Qed.

Lemma pow2_add a b : (pow2 (a + b) == pow2 a * pow2 b)%Q.
Proof. apply Qpower_plus. discriminate. Qed.

Lemma pow2_le a b : a <= b -> (pow2 a <= pow2 b)%Q.
Proof. intros H. apply Qpower_le_compat_l; [exact H|discriminate]. Qed.

Lemma pow2_Z n : 0 <= n -> (pow2 n == inject_Z (2 ^ n))%Q.
Proof. intros H. unfold pow2. now rewrite Zpower_Qpower. Qed.

(** ** The number of digits *)

Lemma digits2_size p : digits2_pos p = Pos.size p.
Proof. induction p; cbn; congruence. Qed.

Lemma digits_bounds p :
  2 ^ (Zpos (digits2_pos p) - 1) <= Zpos p < 2 ^ Zpos (digits2_pos p).
Proof.
  rewrite digits2_size.
  pose proof (Pos.size_gt p) as Hgt.
  pose proof (Pos.size_le p) as Hle.
  assert (H1 : Zpos p < 2 ^ Zpos (Pos.size p)).
  { rewrite <- Pos2Z.inj_pow. now apply Pos2Z.pos_lt_pos. }
  assert (H2 : 2 ^ Zpos (Pos.size p) <= 2 * Zpos p).
  { rewrite <- Pos2Z.inj_pow. change (2 * Zpos p) with (Zpos p~0).
    now apply Pos2Z.pos_le_pos. }
  split; [|exact H1].
  replace (Zpos (Pos.size p)) with (Zpos (Pos.size p) - 1 + 1) in H2 by lia.
  rewrite Z.pow_add_r in H2 by lia. lia.
Qed.

Lemma Zdigits2_nonneg m : 0 <= Zdigits2 m.
Proof. destruct m; cbn; lia. Qed.

Lemma Zdigits2_bounds m :
  0 < m -> 2 ^ (Zdigits2 m - 1) <= m < 2 ^ Zdigits2 m.
Proof. destruct m as [|p|p]; try lia. intros _. apply digits_bounds. Qed.

(** A number below [2 ^ k] has at most [k] digits. *)
Lemma Zdigits2_le m k : 0 <= m -> 0 <= k -> m < 2 ^ k -> Zdigits2 m <= k.
Proof.
  intros Hm Hk Hlt. destruct (Z.eq_dec m 0) as [->|Hne]; [cbn; lia|].
  destruct (Zdigits2_bounds (m := m) ltac:(lia)) as [Hlo _].
  destruct (Z_le_gt_dec (Zdigits2 m) k) as [|Hgt]; [assumption|].
  assert (2 ^ k <= 2 ^ (Zdigits2 m - 1)) by (apply Z.pow_le_mono_r; lia).
  lia.
Qed.

(** ** Shifting right *)

Lemma shr_1_m mrs : 0 <= shr_m mrs -> shr_m (shr_1 mrs) = shr_m mrs / 2.
Proof.
  destruct mrs as [m r s]. cbn [shr_m]. intros Hm.
  destruct m as [|[p|p|]|p]; cbn [shr_1 shr_m]; try lia.
  all: try reflexivity.
  - rewrite Pos2Z.inj_xI. apply Z.div_unique with 1; lia.
  - rewrite Pos2Z.inj_xO. apply Z.div_unique with 0; lia.
Qed.

Lemma shr_1_nonneg mrs : 0 <= shr_m mrs -> 0 <= shr_m (shr_1 mrs).
Proof.
  intros H. rewrite shr_1_m by exact H. apply Z.div_pos; lia.
Qed.

Lemma iter_shr_m p : forall mrs,
  0 <= shr_m mrs ->
  shr_m (SpecFloat.iter_pos shr_1 p mrs) = shr_m mrs / 2 ^ Zpos p.
Proof.
  assert (Hpow : forall q, 0 < 2 ^ Zpos q)
    by (intros q; apply Z.pow_pos_nonneg; lia).
  induction p as [p IH|p IH|]; intros mrs Hm; cbn [SpecFloat.iter_pos].
  - assert (H1 := shr_1_nonneg mrs Hm).
    assert (H2 : 0 <= shr_m (SpecFloat.iter_pos shr_1 p (shr_1 mrs))).
    { rewrite IH by exact H1. apply Z.div_pos; [exact H1|apply Hpow]. }
    assert (E : 2 ^ Zpos (xI p) = 2 * (2 ^ Zpos p * 2 ^ Zpos p)).
    { rewrite Pos2Z.inj_xI.
      replace (2 * Zpos p + 1) with (1 + Zpos p + Zpos p) by lia.
      rewrite !Z.pow_add_r by lia. lia. }
    rewrite (IH _ H2), (IH _ H1), shr_1_m by exact Hm.
    rewrite E, !Z.div_div by (try apply Hpow; try apply Z.mul_pos_pos;
                              try apply Hpow; lia).
    reflexivity.
  - assert (H2 : 0 <= shr_m (SpecFloat.iter_pos shr_1 p mrs)).
    { rewrite IH by exact Hm. apply Z.div_pos; [exact Hm|apply Hpow]. }
    assert (E : 2 ^ Zpos (xO p) = 2 ^ Zpos p * 2 ^ Zpos p).
    { change (2 ^ Zpos (xO p)) with (2 ^ (2 * Zpos p)).
      apply Z.pow_twice_r. }
    rewrite (IH _ H2), (IH _ Hm).
    rewrite E, Z.div_div by (try apply Hpow; lia).
    reflexivity.
  - rewrite shr_1_m by exact Hm. reflexivity.
Qed.

Lemma shr_spec mrs e n :
  0 <= shr_m mrs ->
  exists mrs',
    shr mrs e n = (mrs', e + Z.max n 0)
    /\ shr_m mrs' = shr_m mrs / 2 ^ Z.max n 0
    /\ (n <= 0 -> mrs' = mrs).
Proof.
  intros Hm. destruct n as [|p|p]; cbn [shr].
  - exists mrs. rewrite Z.add_0_r. cbn. rewrite Z.div_1_r. auto.
  - exists (SpecFloat.iter_pos shr_1 p mrs).
    replace (Z.max (Zpos p) 0) with (Zpos p) by lia.
    split; [reflexivity|]. split; [now apply iter_shr_m|lia].
  - exists mrs. replace (Z.max (Zneg p) 0) with 0 by lia.
    rewrite Z.add_0_r. cbn. rewrite Z.div_1_r. auto.
Qed.

Lemma shr_m_of_loc m l : shr_m (shr_record_of_loc m l) = m.
Proof. destruct l as [|[]]; reflexivity. Qed.

Lemma shr_fexp_spec m e l :
  0 <= m ->
  let n := fexp prec emax (Zdigits2 m + e) - e in
  exists mrs',
    shr_fexp prec emax m e l = (mrs', e + Z.max n 0)
    /\ shr_m mrs' = m / 2 ^ Z.max n 0
    /\ (n <= 0 -> mrs' = shr_record_of_loc m l).
Proof.
  intros Hm n. unfold shr_fexp. fold n.
  destruct (shr_spec (shr_record_of_loc m l) e n) as (mrs' & H1 & H2 & H3).
  { now rewrite shr_m_of_loc. }
  exists mrs'. rewrite shr_m_of_loc in H2. auto.
Qed.

Lemma round_nearest_even_bounds m l :
  m <= round_nearest_even m l <= m + 1.
Proof.
  destruct l as [|[]]; cbn; try lia. destruct (Z.even m); lia.
Qed.

Lemma loc_of_exact m :
  loc_of_shr_record (shr_record_of_loc m loc_Exact) = loc_Exact.
Proof. reflexivity. Qed.

(** ** [binary_round_aux], on integers *)

Lemma fexp_unfold z : fexp prec emax z = Z.max (z - 53) (-1074).
Proof. reflexivity. Qed.

Lemma pow2_53 : 2 ^ 53 = 9007199254740992.
Proof. reflexivity. Qed.

(** After the first shift the mantissa has at most 53 digits. *)
Lemma shifted_below m e :
  0 <= m -> 0 <= n_shift m e -> m / 2 ^ n_shift m e < 2 ^ 53.
Proof.
  intros Hm Hn.
  assert (Hp : 0 < 2 ^ n_shift m e) by (apply Z.pow_pos_nonneg; lia).
  apply Z.div_lt_upper_bound; [exact Hp|].
  destruct (Z.eq_dec m 0) as [->|Hne]; [lia|].
  destruct (Zdigits2_bounds (m := m) ltac:(lia)) as [_ Hhi].
  assert (Hd : Zdigits2 m <= n_shift m e + 53).
  { unfold n_shift in *. rewrite fexp_unfold in *. lia. }
  assert (2 ^ Zdigits2 m <= 2 ^ (n_shift m e + 53))
    by (apply Z.pow_le_mono_r; lia).
  rewrite Z.pow_add_r in H by lia. lia.
Qed.

(** The second shift: none, or one bit when rounding went up to
    [2 ^ 53]. *)
Lemma second_shift m2 e1 :
  0 <= m2 <= 2 ^ 53 -> -1074 <= e1 ->
  n_shift m2 e1 <= 0 \/ (n_shift m2 e1 = 1 /\ m2 = 2 ^ 53).
Proof.
  intros Hm He.
  destruct (Z.eq_dec m2 (2 ^ 53)) as [->|Hne].
  - right. split; [|reflexivity]. unfold n_shift. rewrite fexp_unfold.
    change (Zdigits2 (2 ^ 53)) with 54. lia.
  - left. assert (Hd : Zdigits2 m2 <= 53)
      by (apply Zdigits2_le; lia).
    unfold n_shift. rewrite fexp_unfold. lia.
Qed.

Lemma bra_spec sx mx ex lx :
  0 <= mx ->
  (0 <= n_shift mx ex \/ lx = loc_Exact) ->
  let k := Z.max (n_shift mx ex) 0 in
  exists m2,
    mx / 2 ^ k <= m2 <= mx / 2 ^ k + 1
    /\ (lx = loc_Exact -> n_shift mx ex <= 0 -> m2 = mx)
    /\ ((m2 = 0
         /\ binary_round_aux prec emax sx mx ex lx = S754_zero sx)
        \/ exists m3 e3,
             Zpos m3 * 2 ^ (e3 - (ex + k)) = m2
             /\ ex + k <= e3
             /\ (binary_round_aux prec emax sx mx ex lx
                 = S754_finite sx m3 e3
                 \/ (binary_round_aux prec emax sx mx ex lx
                     = S754_infinity sx /\ 971 < e3))).
Proof.
  intros Hmx Hc k.
  destruct (@shr_fexp_spec mx ex lx Hmx) as (mrs1 & E1 & Hm1 & Hsame1).
  fold (n_shift mx ex) in E1, Hm1, Hsame1. fold k in E1, Hm1.
  set (m2 := round_nearest_even (shr_m mrs1) (loc_of_shr_record mrs1)).
  assert (Hk : 0 <= k) by lia.
  assert (Hpk : 0 < 2 ^ k) by (apply Z.pow_pos_nonneg; lia).
  assert (H0m1 : 0 <= mx / 2 ^ k) by (apply Z.div_pos; lia).
  assert (Hb : mx / 2 ^ k <= m2 <= mx / 2 ^ k + 1).
  { unfold m2. rewrite <- Hm1. apply round_nearest_even_bounds. }
  assert (Hexact : lx = loc_Exact -> n_shift mx ex <= 0 -> m2 = mx).
  { intros -> Hn. unfold m2. rewrite (Hsame1 Hn). cbn.
    reflexivity. }
  assert (H0m2 : 0 <= m2) by lia.
  destruct (@shr_fexp_spec m2 (ex + k) loc_Exact H0m2)
    as (mrs2 & E2 & Hm2 & _).
  fold (n_shift m2 (ex + k)) in E2, Hm2.
  assert (Hn2 : n_shift m2 (ex + k) <= 0
                \/ (n_shift m2 (ex + k) = 1 /\ m2 = 2 ^ 53)).
  { destruct (Z_le_gt_dec 0 (n_shift mx ex)) as [Hn1|Hn1].
    - apply second_shift.
      + split; [exact H0m2|].
        assert (mx / 2 ^ k < 2 ^ 53).
        { replace k with (n_shift mx ex) by lia.
          now apply shifted_below. }
        lia.
      + replace k with (n_shift mx ex) by lia.
        unfold n_shift. rewrite fexp_unfold. lia.
    - destruct Hc as [Hc|Hc]; [lia|].
      left. rewrite (Hexact Hc ltac:(lia)).
      replace k with 0 by lia. rewrite Z.add_0_r. lia. }
  exists m2. split; [exact Hb|]. split; [exact Hexact|].
  unfold binary_round_aux. rewrite E1. fold m2. rewrite E2.
  destruct Hn2 as [Hn2|[Hn2 Hm253]].
  - replace (Z.max (n_shift m2 (ex + k)) 0) with 0 in * by lia.
    rewrite Z.div_1_r in Hm2. rewrite Hm2, Z.add_0_r.
    destruct m2 as [|p|p]; [left; auto| |lia].
    right. exists p, (ex + k).
    rewrite Z.sub_diag, Z.mul_1_r. split; [reflexivity|].
    split; [lia|].
    destruct (Z.leb_spec (ex + k) (emax - prec)) as [Hle|Hgt].
    + left. reflexivity.
    + right. split; [reflexivity|]. unfold emax, prec in Hgt. lia.
  - replace (Z.max (n_shift m2 (ex + k)) 0) with 1 in * by lia.
    rewrite Hm2, Hm253. change (2 ^ 53 / 2 ^ 1) with (Zpos (2 ^ 52)).
    right. exists (2 ^ 52)%positive, (ex + k + 1).
    replace (ex + k + 1 - (ex + k)) with 1 by lia.
    split; [reflexivity|]. split; [lia|].
    destruct (Z.leb_spec (ex + k + 1) (emax - prec)) as [Hle|Hgt].
    + left. reflexivity.
    + right. split; [reflexivity|]. unfold emax, prec in Hgt. lia.
Qed.

End Rounding.

(** ** The value that is returned *)

Module RoundedValue.
Import Rounding.
Local Open Scope Q_scope.

Lemma pow2_sub_Z (a b : Z) :
  (b <= a)%Z -> pow2 a == inject_Z (2 ^ (a - b)) * pow2 b.
Proof.
  intros H. rewrite <- pow2_Z by lia. rewrite <- pow2_add.
  now replace (a - b + b)%Z with a by lia.
Qed.

Lemma Qabs_between (r v lo hi : Q) :
  lo <= r -> r <= hi -> lo <= v -> v <= hi -> Qabs (r - v) <= hi - lo.
Proof.
  intros. apply Qabs_case; intros; lra.
Qed.

(** What [binary_round_aux] returns for a number [v] whose place is
    known: a float within one unit in the last place of [v]. *)
Lemma round_value mx ex lx (v : Q) :
  (0 <= mx)%Z ->
  (0 <= n_shift mx ex)%Z \/ lx = loc_Exact ->
  inject_Z mx * pow2 ex <= v ->
  v <= inject_Z (mx + 1) * pow2 ex ->
  (lx = loc_Exact -> v == inject_Z mx * pow2 ex) ->
  v <= pow2 970 ->
  nonneg_finite (binary_round_aux prec emax false mx ex lx) = true
  /\ Qabs (SF2Q (binary_round_aux prec emax false mx ex lx) - v)
     <= v * (1 # 4503599627370496) + pow2 (-1074).
Proof.
  intros Hmx Hc Hlo Hhi Hex Hbig.
  destruct (@bra_spec false mx ex lx Hmx Hc) as (m2 & Hb & Hexact & Hres).
  set (k := Z.max (n_shift mx ex) 0) in *.
  assert (Hk : (0 <= k)%Z) by lia.
  assert (HP : 0 < pow2 ex) by apply pow2_pos.
  assert (Hv0 : 0 <= v).
  { eapply Qle_trans; [|exact Hlo].
    apply Qmult_le_0_compat; [|lra].
    change 0 with (inject_Z 0). now rewrite <- Zle_Qle. }
  (* the value that is returned *)
  set (r := inject_Z m2 * pow2 (ex + k)).
  assert (Hr : Qabs (r - v) <= v * (1 # 4503599627370496) + pow2 (-1074)).
  { destruct (Z_le_gt_dec 0 (n_shift mx ex)) as [Hn|Hn].
    - (* shifted by [k = n_shift] bits *)
      assert (Ek : k = n_shift mx ex) by lia.
      assert (HK : (0 < 2 ^ k)%Z) by (apply Z.pow_pos_nonneg; lia).
      pose proof (Z.mul_div_le mx (2 ^ k) HK) as Hd1.
      pose proof (Z.mul_succ_div_gt mx (2 ^ k) HK) as Hd2.
      set (m1 := (mx / 2 ^ k)%Z) in *.
      assert (Epow : pow2 (ex + k) == pow2 ex * inject_Z (2 ^ k)).
      { rewrite pow2_add, (@pow2_Z k Hk). reflexivity. }
      assert (H1 : inject_Z m1 * pow2 (ex + k) <= v).
      { eapply Qle_trans; [|exact Hlo]. rewrite Epow.
        rewrite (Qmult_comm (pow2 ex)), Qmult_assoc.
        apply Qmult_le_compat_r; [|lra].
        rewrite <- inject_Z_mult, <- Zle_Qle. lia. }
      assert (H2 : v <= inject_Z (m1 + 1) * pow2 (ex + k)).
      { eapply Qle_trans; [exact Hhi|]. rewrite Epow.
        rewrite (Qmult_comm (pow2 ex)), Qmult_assoc.
        apply Qmult_le_compat_r; [|lra].
        rewrite <- inject_Z_mult, <- Zle_Qle. lia. }
      assert (H3 : inject_Z m1 * pow2 (ex + k) <= r).
      { unfold r. apply Qmult_le_compat_r; [|apply Qlt_le_weak, pow2_pos].
        rewrite <- Zle_Qle. lia. }
      assert (H4 : r <= inject_Z (m1 + 1) * pow2 (ex + k)).
      { unfold r. apply Qmult_le_compat_r; [|apply Qlt_le_weak, pow2_pos].
        rewrite <- Zle_Qle. lia. }
      pose proof (Qabs_between H3 H4 H1 H2) as Habs.
      assert (Ewidth : inject_Z (m1 + 1) * pow2 (ex + k)
                       - inject_Z m1 * pow2 (ex + k) == pow2 (ex + k)).
      { rewrite inject_Z_plus. ring. }
      rewrite Ewidth in Habs.
      eapply Qle_trans; [exact Habs|].
      (* one unit in the last place against [v] *)
      assert (He1 : (ex + k = Z.max (Zdigits2 mx + ex - 53) (-1074))%Z).
      { rewrite Ek. unfold n_shift. rewrite fexp_unfold. lia. }
      destruct (Z_le_gt_dec (Zdigits2 mx + ex - 53) (-1074)) as [Hsub|Hnorm].
      + replace (ex + k)%Z with (-1074)%Z by lia.
        assert (0 <= v * (1 # 4503599627370496))
          by (apply Qmult_le_0_compat; [exact Hv0|discriminate]).
        lra.
      + assert (Hmxpos : (0 < mx)%Z).
        { destruct (Z.eq_dec mx 0) as [->|]; [|lia].
          unfold n_shift in Hn. rewrite fexp_unfold in Hn.
          cbn in Hn, Hnorm. lia. }
        destruct (@Zdigits2_bounds mx Hmxpos) as [Hdig _].
        assert (Hd0 : (0 <= Zdigits2 mx - 1)%Z).
        { clear - Hmxpos. destruct mx as [|p|p]; try lia.
          unfold Zdigits2. lia. }
        assert (Hv : inject_Z (2 ^ (Zdigits2 mx - 1)) * pow2 ex <= v).
        { eapply Qle_trans; [|exact Hlo].
          apply Qmult_le_compat_r; [|lra]. now rewrite <- Zle_Qle. }
        rewrite <- (@pow2_Z (Zdigits2 mx - 1) Hd0), <- pow2_add in Hv.
        replace (Zdigits2 mx - 1 + ex)%Z with (52 + (ex + k))%Z in Hv by lia.
        rewrite pow2_add in Hv.
        assert (E52 : pow2 52 == 4503599627370496) by reflexivity.
        rewrite E52 in Hv.
        pose proof (pow2_pos (-1074)).
        pose proof (pow2_pos (ex + k)).
        lra.
    - (* nothing shifted, nothing rounded *)
      destruct Hc as [Hc|Hc]; [lia|].
      assert (Em2 : m2 = mx) by (apply Hexact; [exact Hc|lia]).
      assert (Ek : k = 0%Z) by lia.
      unfold r. rewrite Em2, Ek, Z.add_0_r, (Hex Hc).
      setoid_replace (inject_Z mx * pow2 ex - inject_Z mx * pow2 ex)
        with 0 by ring.
      cbn [Qabs Z.abs Qnum].
      pose proof (pow2_pos (-1074)).
      assert (0 <= inject_Z mx * pow2 ex * (1 # 4503599627370496)).
      { apply Qmult_le_0_compat; [|discriminate].
        rewrite <- (Hex Hc). exact Hv0. }
      lra. }
  (* the float that is returned has that value *)
  assert (Hrbig : r < pow2 972).
  { assert (Hrv : r <= v + (v * (1 # 4503599627370496) + pow2 (-1074))).
    { revert Hr. apply Qabs_case; intros; lra. }
    assert (E972 : pow2 972 == 4 * pow2 970).
    { replace 972%Z with (2 + 970)%Z by lia. rewrite pow2_add.
      reflexivity. }
    assert (pow2 (-1074) <= pow2 970) by (apply pow2_le; lia).
    pose proof (pow2_pos 970).
    rewrite E972. lra. }
  destruct Hres as [[Hm2 ->]|(m3 & e3 & Hm3 & He3 & Hres)].
  - split; [reflexivity|].
    cbn [SF2Q]. unfold r in Hr. rewrite Hm2 in Hr.
    setoid_replace (inject_Z 0 * pow2 (ex + k)) with 0 in Hr by ring.
    exact Hr.
  - assert (Eval : inject_Z (Zpos m3) * pow2 e3 == r).
    { unfold r. rewrite <- Hm3, inject_Z_mult.
      rewrite (@pow2_sub_Z e3 (ex + k)) by lia. ring. }
    destruct Hres as [->|[-> Hover]].
    + split; [reflexivity|]. cbn [SF2Q].
      setoid_replace (1 * (inject_Z (Zpos m3) * pow2 e3)) with r
        by (rewrite Eval; ring).
      exact Hr.
    + exfalso.
      assert (pow2 972 <= inject_Z (Zpos m3) * pow2 e3).
      { assert (pow2 972 <= pow2 e3) by (apply pow2_le; lia).
        assert (1 <= inject_Z (Zpos m3)).
        { change 1 with (inject_Z 1). rewrite <- Zle_Qle. lia. }
        pose proof (pow2_pos e3).
        eapply Qle_trans; [exact H|].
        rewrite <- (Qmult_1_l (pow2 e3)) at 1.
        apply Qmult_le_compat_r; lra. }
      rewrite Eval in H. lra.
Qed.

End RoundedValue.

(** ** The operations of the sampler *)

Module Operations.
Import Rounding RoundedValue.
Local Open Scope Q_scope.

#[global] Instance ulp_bound_proper :
  Proper (Qeq ==> Qeq) ulp_bound.
Proof. intros a b E. unfold ulp_bound. now rewrite E. Qed.

Lemma inject_Z_pos p : 0 < inject_Z (Zpos p).
Proof. change 0 with (inject_Z 0). rewrite <- Zlt_Qlt. lia. Qed.

Lemma SF2Q_nonneg x : nonneg_finite x = true -> 0 <= SF2Q x.
Proof.
  destruct x as [s|s| |s m e]; cbn; intros Hx; try discriminate; try lra.
  destruct s; [discriminate|].
  rewrite Qmult_1_l. apply Qmult_le_0_compat.
  - apply Qlt_le_weak, inject_Z_pos.
  - apply Qlt_le_weak, pow2_pos.
Qed.

Lemma ulp_bound_nonneg v : 0 <= v -> 0 <= ulp_bound v.
Proof.
  intros Hv. unfold ulp_bound. pose proof (pow2_pos (-1074)).
  assert (0 <= v * (1 # 4503599627370496))
    by (apply Qmult_le_0_compat; [exact Hv|discriminate]).
  lra.
Qed.

Lemma exact_within v : 0 <= v -> Qabs (v - v) <= ulp_bound v.
Proof.
  intros Hv. setoid_replace (v - v) with 0 by ring.
  cbn [Qabs Z.abs Qnum]. now apply ulp_bound_nonneg.
Qed.

(** Rounding a number that is given exactly. *)
Lemma round_exact m e (v : Q) :
  (0 <= m)%Z -> v == inject_Z m * pow2 e -> v <= pow2 970 ->
  nonneg_finite (binary_round_aux prec emax false m e loc_Exact) = true
  /\ Qabs (SF2Q (binary_round_aux prec emax false m e loc_Exact) - v)
     <= ulp_bound v.
Proof.
  intros Hm Hv Hbig. apply round_value.
  - exact Hm.
  - now right.
  - rewrite Hv. apply Qle_refl.
  - rewrite Hv. apply Qmult_le_compat_r.
    + rewrite <- Zle_Qle. lia.
    + apply Qlt_le_weak, pow2_pos.
  - intros _. exact Hv.
  - exact Hbig.
Qed.

(** ** Aligning exponents *)

Lemma iter_xO m d : Zpos (Pos.iter xO m d) = (Zpos m * 2 ^ Zpos d)%Z.
Proof.
  induction d as [|d IH] using Pos.peano_ind.
  - cbn [Pos.iter]. change (2 ^ 1)%Z with 2%Z. lia.
  - rewrite Pos.iter_succ, Pos2Z.inj_succ, Z.pow_succ_r by lia.
    change (Zpos (Pos.iter xO m d)~0) with (2 * Zpos (Pos.iter xO m d))%Z.
    rewrite IH. lia.
Qed.

Lemma shl_align_value m e e' :
  inject_Z (Zpos (fst (shl_align m e e'))) * pow2 (snd (shl_align m e e'))
  == inject_Z (Zpos m) * pow2 e.
Proof.
  unfold shl_align. destruct (e' - e)%Z as [|p|p] eqn:E; cbn [fst snd];
    try reflexivity.
  rewrite iter_xO, inject_Z_mult.
  assert (Hp : (0 <= Zpos p)%Z) by lia.
  rewrite <- (@pow2_Z (Zpos p) Hp), <- Qmult_assoc, <- pow2_add.
  now replace (Zpos p + e')%Z with e by lia.
Qed.

Lemma shl_align_fst m e e' :
  (e' <= e)%Z ->
  inject_Z (Zpos (fst (shl_align m e e'))) * pow2 e'
  == inject_Z (Zpos m) * pow2 e.
Proof.
  intros Hle. pose proof (shl_align_value m e e') as H.
  unfold shl_align in *. destruct (e' - e)%Z as [|p|p] eqn:E;
    cbn [fst snd] in *; try lia.
  - now replace e' with e by lia.
  - exact H.
Qed.

Lemma binary_round_value m e (v : Q) :
  v == inject_Z (Zpos m) * pow2 e -> v <= pow2 970 ->
  nonneg_finite (binary_round prec emax false m e) = true
  /\ Qabs (SF2Q (binary_round prec emax false m e) - v) <= ulp_bound v.
Proof.
  intros Hv Hbig. unfold binary_round.
  pose proof (shl_align_value m e
                (fexp prec emax (Zpos (digits2_pos m) + e))) as Hal.
  destruct (shl_align m e (fexp prec emax (Zpos (digits2_pos m) + e)))
    as [mz ez]. cbn [fst snd] in Hal.
  apply round_exact; [lia| |exact Hbig].
  now rewrite Hal.
Qed.

(** ** Addition *)

Lemma SFadd_value x y :
  nonneg_finite x = true -> nonneg_finite y = true ->
  SF2Q x + SF2Q y <= pow2 970 ->
  nonneg_finite (SFadd prec emax x y) = true
  /\ Qabs (SF2Q (SFadd prec emax x y) - (SF2Q x + SF2Q y))
     <= ulp_bound (SF2Q x + SF2Q y).
Proof.
  intros Hx Hy Hbig.
  pose proof (SF2Q_nonneg _ Hx) as Hx0.
  pose proof (SF2Q_nonneg _ Hy) as Hy0.
  destruct x as [sx|sx| |sx mx ex]; try discriminate;
    destruct y as [sy|sy| |sy my ey]; try discriminate.
  - (* zero + zero *)
    split; [destruct sx, sy; reflexivity|].
    assert (E : SF2Q (SFadd prec emax (S754_zero sx) (S754_zero sy)) == 0)
      by (destruct sx, sy; reflexivity).
    rewrite E. cbn [SF2Q].
    setoid_replace (0 - (0 + 0)) with 0 by ring.
    cbn [Qabs Z.abs Qnum]. apply ulp_bound_nonneg. lra.
  - (* zero + finite *)
    split; [exact Hy|].
    change (SFadd prec emax (S754_zero sx) (S754_finite sy my ey))
      with (S754_finite sy my ey).
    change (SF2Q (S754_zero sx)) with 0.
    setoid_replace (0 + SF2Q (S754_finite sy my ey))
      with (SF2Q (S754_finite sy my ey)) by ring.
    now apply exact_within.
  - (* finite + zero *)
    split; [exact Hx|].
    change (SFadd prec emax (S754_finite sx mx ex) (S754_zero sy))
      with (S754_finite sx mx ex).
    change (SF2Q (S754_zero sy)) with 0.
    setoid_replace (SF2Q (S754_finite sx mx ex) + 0)
      with (SF2Q (S754_finite sx mx ex)) by ring.
    now apply exact_within.
  - (* finite + finite *)
    destruct sx; [discriminate|]. destruct sy; [discriminate|].
    unfold SFadd. cbn [cond_Zopp].
    set (ez := Z.min ex ey).
    pose proof (@shl_align_fst mx ex ez ltac:(lia)) as Ha.
    pose proof (@shl_align_fst my ey ez ltac:(lia)) as Hb.
    set (a := fst (shl_align mx ex ez)) in *.
    set (b := fst (shl_align my ey ez)) in *.
    change (Zpos a + Zpos b)%Z with (Zpos (a + b)).
    cbn [binary_normalize].
    apply binary_round_value; [|exact Hbig].
    cbn [SF2Q]. rewrite Pos2Z.inj_add, inject_Z_plus.
    rewrite Qmult_plus_distr_l, Ha, Hb. ring.
Qed.

(** ** Multiplication *)

Lemma SFmul_value x y :
  nonneg_finite x = true -> nonneg_finite y = true ->
  SF2Q x * SF2Q y <= pow2 970 ->
  nonneg_finite (SFmul prec emax x y) = true
  /\ Qabs (SF2Q (SFmul prec emax x y) - SF2Q x * SF2Q y)
     <= ulp_bound (SF2Q x * SF2Q y).
Proof.
  intros Hx Hy Hbig.
  pose proof (SF2Q_nonneg _ Hx) as Hx0.
  pose proof (SF2Q_nonneg _ Hy) as Hy0.
  assert (Hzero : forall s v, v == 0 ->
            nonneg_finite (S754_zero s) = true
            /\ Qabs (SF2Q (S754_zero s) - v) <= ulp_bound v).
  { intros s v Ev. split; [reflexivity|]. cbn [SF2Q]. rewrite Ev.
    setoid_replace (0 - 0) with 0 by ring.
    cbn [Qabs Z.abs Qnum]. apply ulp_bound_nonneg. lra. }
  destruct x as [sx|sx| |sx mx ex]; try discriminate;
    destruct y as [sy|sy| |sy my ey]; try discriminate.
  - apply Hzero. cbn [SF2Q]. ring.
  - apply Hzero. cbn [SF2Q]. ring.
  - apply Hzero. cbn [SF2Q]. ring.
  - destruct sx; [discriminate|]. destruct sy; [discriminate|].
    unfold SFmul. cbn [xorb].
    apply round_exact; [lia| |exact Hbig].
    cbn [SF2Q]. rewrite Pos2Z.inj_mul, inject_Z_mult, pow2_add. ring.
Qed.

(** ** Division *)

Lemma new_location_exact nb k : new_location nb k = loc_Exact -> k = 0%Z.
Proof.
  unfold new_location, new_location_even, new_location_odd.
  destruct (Z.even nb); destruct (Z.eqb_spec k 0); congruence.
Qed.

Lemma div_core_spec mx ex my ey :
  let e' := Z.min (fexp prec emax (Zdigits2 (Zpos mx) + ex
                                   - (Zdigits2 (Zpos my) + ey)))
                  (ex - ey) in
  let s := (ex - ey - e')%Z in
  exists l,
    SFdiv_core_binary prec emax (Zpos mx) ex (Zpos my) ey
    = ((Zpos mx * 2 ^ s) / Zpos my, e', l)%Z
    /\ (l = loc_Exact -> ((Zpos mx * 2 ^ s) mod Zpos my = 0)%Z).
Proof.
  intros e' s. unfold SFdiv_core_binary.
  fold e'. fold s.
  assert (Hs : (0 <= s)%Z) by (unfold s, e'; lia).
  assert (Em : match s with
               | Zpos _ => Z.shiftl (Zpos mx) s
               | Z0 => Zpos mx
               | Zneg _ => 0%Z
               end = (Zpos mx * 2 ^ s)%Z).
  { destruct s as [|p|p] eqn:Es.
    - now rewrite Z.mul_1_r.
    - apply Z.shiftl_mul_pow2. lia.
    - lia. }
  rewrite Em. unfold Z.div, Z.modulo.
  destruct (Z.div_eucl (Zpos mx * 2 ^ s) (Zpos my)) as [q r].
  eexists. split; [reflexivity|]. apply new_location_exact.
Qed.

Lemma SFdiv_value x y :
  nonneg_finite x = true -> nonneg_finite y = true ->
  0 < SF2Q y ->
  SF2Q x / SF2Q y <= pow2 970 ->
  nonneg_finite (SFdiv prec emax x y) = true
  /\ Qabs (SF2Q (SFdiv prec emax x y) - SF2Q x / SF2Q y)
     <= ulp_bound (SF2Q x / SF2Q y).
Proof.
  intros Hx Hy Hpos Hbig.
  destruct y as [sy|sy| |sy my ey]; try discriminate.
  destruct sy; [discriminate|].
  destruct x as [sx|sx| |sx mx ex]; try discriminate.
  - (* zero / finite *)
    split; [reflexivity|].
    change (SFdiv prec emax (S754_zero sx) (S754_finite false my ey))
      with (S754_zero (xorb sx false)).
    cbn [SF2Q].
    setoid_replace (0 - 0 / (1 * (inject_Z (Zpos my) * pow2 ey))) with 0
      by (unfold Qdiv; ring).
    cbn [Qabs Z.abs Qnum]. apply ulp_bound_nonneg.
    apply Qle_refl.
  - destruct sx; [discriminate|].
    unfold SFdiv.
    destruct (div_core_spec mx ex my ey) as (l & -> & Hl).
    cbn [xorb].
    set (e' := Z.min (fexp prec emax (Zdigits2 (Zpos mx) + ex
                                      - (Zdigits2 (Zpos my) + ey)))
                     (ex - ey)) in *.
    set (s := (ex - ey - e')%Z) in *.
    assert (Hs : (0 <= s)%Z) by (unfold s, e'; lia).
    set (M := (Zpos mx * 2 ^ s)%Z) in *.
    assert (HM : (0 < M)%Z).
    { unfold M. apply Z.mul_pos_pos; [lia|]. apply Z.pow_pos_nonneg; lia. }
    set (q := (M / Zpos my)%Z).
    assert (Hq0 : (0 <= q)%Z) by (apply Z.div_pos; lia).
    pose proof (Z.mul_div_le M (Zpos my) ltac:(lia)) as Hq1.
    pose proof (Z.mul_succ_div_gt M (Zpos my) ltac:(lia)) as Hq2.
    fold q in Hq1, Hq2.
    (* the quotient, as a rational *)
    set (v := SF2Q (S754_finite false mx ex)
              / SF2Q (S754_finite false my ey)) in *.
    pose proof (inject_Z_pos my) as Hmy.
    pose proof (pow2_pos ey) as Hpey.
    pose proof (pow2_pos e') as Hpe'.
    assert (Ev : v * inject_Z (Zpos my) == inject_Z M * pow2 e').
    { unfold v, M. cbn [SF2Q]. rewrite inject_Z_mult.
      rewrite <- (@pow2_Z s Hs).
      setoid_replace (inject_Z (Zpos mx) * pow2 s * pow2 e')
        with (inject_Z (Zpos mx) * (pow2 s * pow2 e')) by ring.
      rewrite <- pow2_add.
      replace (s + e')%Z with (ex - ey)%Z by (unfold s; lia).
      assert (Ee : pow2 ex == pow2 (ex - ey) * pow2 ey).
      { rewrite <- pow2_add. now replace (ex - ey + ey)%Z with ex by lia. }
      rewrite Ee. field. split; lra. }
    assert (Hlo : inject_Z q * pow2 e' <= v).
    { apply Qmult_le_r with (z := inject_Z (Zpos my)); [exact Hmy|].
      rewrite Ev.
      setoid_replace (inject_Z q * pow2 e' * inject_Z (Zpos my))
        with (inject_Z (Zpos my * q) * pow2 e')
        by (rewrite inject_Z_mult; ring).
      apply Qmult_le_compat_r; [|lra]. rewrite <- Zle_Qle. lia. }
    assert (Hhi : v <= inject_Z (q + 1) * pow2 e').
    { apply Qmult_le_r with (z := inject_Z (Zpos my)); [exact Hmy|].
      rewrite Ev.
      setoid_replace (inject_Z (q + 1) * pow2 e' * inject_Z (Zpos my))
        with (inject_Z (Zpos my * Z.succ q) * pow2 e')
        by (rewrite inject_Z_mult; unfold Z.succ; ring).
      apply Qmult_le_compat_r; [|lra]. rewrite <- Zle_Qle. lia. }
    apply round_value; [exact Hq0| |exact Hlo|exact Hhi| |exact Hbig].
    + (* the quotient has 53 digits, or the exponent is the least *)
      left. unfold n_shift. rewrite fexp_unfold.
      destruct (Z_le_gt_dec e' (-1074)) as [He|He]; [lia|].
      assert (Hs53 : (53 - Zdigits2 (Zpos mx) + Zdigits2 (Zpos my) <= s)%Z).
      { unfold s, e' in *. rewrite fexp_unfold in *. lia. }
      destruct (@Zdigits2_bounds (Zpos mx) ltac:(lia)) as [Hdx _].
      destruct (@Zdigits2_bounds (Zpos my) ltac:(lia)) as [_ Hdy].
      pose proof (Zdigits2_nonneg (Zpos my)) as Hdy0.
      assert (Hdx0 : (0 <= Zdigits2 (Zpos mx) - 1)%Z).
      { unfold Zdigits2. lia. }
      assert (HMbig : (2 ^ 52 * 2 ^ Zdigits2 (Zpos my) <= M)%Z).
      { rewrite <- Z.pow_add_r by lia.
        apply Z.le_trans
          with (2 ^ (Zdigits2 (Zpos mx) - 1) * 2 ^ s)%Z.
        - rewrite <- Z.pow_add_r by lia.
          apply Z.pow_le_mono_r; lia.
        - unfold M. apply Z.mul_le_mono_nonneg_r; [|exact Hdx].
          apply Z.pow_nonneg. lia. }
      assert (Hq52 : (2 ^ 52 <= q)%Z).
      { apply Z.div_le_lower_bound; [lia|].
        apply Z.le_trans with (2 ^ 52 * 2 ^ Zdigits2 (Zpos my))%Z;
          [|exact HMbig].
        rewrite Z.mul_comm. apply Z.mul_le_mono_nonneg_l; lia. }
      destruct (@Zdigits2_bounds q ltac:(lia)) as [_ Hdq].
      assert (Hdq53 : (53 <= Zdigits2 q)%Z).
      { destruct (Z_le_gt_dec 53 (Zdigits2 q)) as [|Hlt]; [assumption|].
        pose proof (Zdigits2_nonneg q).
        assert (2 ^ Zdigits2 q <= 2 ^ 52)%Z
          by (apply Z.pow_le_mono_r; lia).
        lia. }
      lia.
    + intros El. specialize (Hl El).
      assert (EM : M = (Zpos my * q)%Z).
      { pose proof (Z.div_mod M (Zpos my) ltac:(lia)) as Hdm.
        fold q in Hdm. lia. }
      apply Qmult_inj_r with (z := inject_Z (Zpos my)); [lra|].
      rewrite Ev, EM, !inject_Z_mult. ring.
Qed.

End Operations.

(** ** The sum of the ten percentages *)

Module Percentages.
Import Rounding RoundedValue Operations.
Local Open Scope Q_scope.

Lemma value_100 : value 100 == 100.
Proof. vm_compute. reflexivity. Qed.

Lemma counted_100 : counted 100 = true.
Proof. vm_compute. reflexivity. Qed.

Lemma tiny : pow2 (-1074) <= 1 # 1000000000000000000000000000000.
Proof. vm_compute. discriminate. Qed.

Lemma big : 10000 <= pow2 970.
Proof.
  apply Qle_trans with (pow2 14); [vm_compute; discriminate|].
  apply pow2_le. lia.
Qed.

Lemma Prim2SF_zero : Prim2SF 0 = S754_zero false.
Proof. vm_compute. reflexivity. Qed.

(** Go's [0 <= d] on a finite [d]. *)
Lemma counted_of_fle d :
  finite d = true -> PrimFloat.leb 0 d = true -> counted d = true.
Proof.
  unfold finite, counted. rewrite FloatAxioms.leb_spec, Prim2SF_zero.
  destruct (Prim2SF d) as [s|s| |s m e]; try discriminate.
  - reflexivity.
  - destruct s; [discriminate|reflexivity].
Qed.

(** Go's [T > 0] on a finite [T]. *)
Lemma counted_of_fgt T :
  finite T = true -> PrimFloat.ltb 0 T = true ->
  counted T = true /\ 0 < value T.
Proof.
  unfold finite, counted, value.
  rewrite FloatAxioms.ltb_spec, Prim2SF_zero.
  destruct (Prim2SF T) as [s|s| |s m e]; try discriminate.
  destruct s; [discriminate|]. intros _ _. split; [reflexivity|].
  cbn [SF2Q]. rewrite Qmult_1_l.
  apply Qmult_lt_0_compat; [apply inject_Z_pos|apply pow2_pos].
Qed.

Lemma counted_finite x : counted x = true -> finite x = true.
Proof.
  unfold counted, finite. destruct (Prim2SF x) as [s|s| |s m e];
    try discriminate; reflexivity.
Qed.

Lemma value_nonneg x : counted x = true -> 0 <= value x.
Proof. apply SF2Q_nonneg. Qed.

Lemma two_sided (x v b : Q) :
  Qabs (x - v) <= b -> v - b <= x /\ x <= v + b.
Proof. intros H. apply Qabs_Qle_condition in H. split; lra. Qed.

Lemma add_value x y :
  counted x = true -> counted y = true ->
  value x + value y <= pow2 970 ->
  counted (x + y) = true
  /\ value x + value y - ulp_bound (value x + value y) <= value (x + y)
  /\ value (x + y) <= value x + value y + ulp_bound (value x + value y).
Proof.
  unfold counted, value. intros Hx Hy Hbig.
  rewrite FloatAxioms.add_spec.
  destruct (@SFadd_value _ _ Hx Hy Hbig) as [Hn Hb].
  split; [exact Hn|]. now apply two_sided.
Qed.

Lemma mul_value x y :
  counted x = true -> counted y = true ->
  value x * value y <= pow2 970 ->
  counted (x * y) = true
  /\ value x * value y - ulp_bound (value x * value y) <= value (x * y)
  /\ value (x * y) <= value x * value y + ulp_bound (value x * value y).
Proof.
  unfold counted, value. intros Hx Hy Hbig.
  rewrite FloatAxioms.mul_spec.
  destruct (@SFmul_value _ _ Hx Hy Hbig) as [Hn Hb].
  split; [exact Hn|]. now apply two_sided.
Qed.

Lemma div_value x y :
  counted x = true -> counted y = true -> 0 < value y ->
  value x / value y <= pow2 970 ->
  counted (x / y) = true
  /\ value x / value y - ulp_bound (value x / value y) <= value (x / y)
  /\ value (x / y) <= value x / value y + ulp_bound (value x / value y).
Proof.
  unfold counted, value. intros Hx Hy Hpos Hbig.
  rewrite FloatAxioms.div_spec.
  destruct (@SFdiv_value _ _ Hx Hy Hpos Hbig) as [Hn Hb].
  split; [exact Hn|]. now apply two_sided.
Qed.

(** One percentage: [d / T * 100] against [100 * (d / T)]. *)
Lemma percent_value d T :
  counted d = true -> counted T = true -> 0 < value T ->
  value d <= value T ->
  let v := value d / value T in
  let w := value (d / T * 100) in
  counted (d / T * 100) = true
  /\ 100 * v - (v * (300 # 4503599627370496) + 102 * pow2 (-1074)) <= w
  /\ w <= 100 * v + (v * (300 # 4503599627370496) + 102 * pow2 (-1074)).
Proof.
  intros Hd HT Hpos Hle v w.
  pose proof (@value_nonneg _ Hd) as Hd0.
  assert (Hv0 : 0 <= v).
  { unfold v. apply Qle_shift_div_l; [exact Hpos|lra]. }
  assert (Hv1 : v <= 1).
  { unfold v. apply Qle_shift_div_r; [exact Hpos|lra]. }
  pose proof big as Hbig. pose proof tiny as Htiny.
  pose proof (pow2_pos (-1074)) as Heta.
  assert (Hq : v <= pow2 970) by lra.
  destruct (@div_value _ _ Hd HT Hpos Hq) as (Nr & Lr & Ur).
  fold v in Lr, Ur.
  set (r := value (d / T)) in *.
  assert (Hm : r * value 100 <= pow2 970).
  { rewrite value_100. unfold ulp_bound in *. lra. }
  destruct (@mul_value _ _ Nr counted_100 Hm) as (Nw & Lw & Uw).
  fold r in Lw, Uw. fold w in Lw, Uw.
  rewrite value_100 in Lw, Uw.
  split; [exact Nw|].
  unfold ulp_bound in *.
  set (eta := pow2 (-1074)) in *. clearbody eta.
  clearbody r w v. clear Hm Hq Hbig.
  split; lra.
Qed.

(** One more term of the sum. *)
Lemma sum_step s p :
  counted s = true -> counted p = true ->
  value s + value p <= 10000 ->
  counted (s + p) = true
  /\ (value s + value p) - ((value s + value p) * (1 # 4503599627370496)
                            + pow2 (-1074)) <= value (s + p)
  /\ value (s + p) <= (value s + value p)
                      + ((value s + value p) * (1 # 4503599627370496)
                         + pow2 (-1074)).
Proof.
  intros Hs Hp Hbig.
  apply add_value; [exact Hs|exact Hp|].
  pose proof big. lra.
Qed.

Lemma chain d1 d2 d3 d4 d5 d6 d7 d8 d9 d10 T :
  counted d1 = true -> counted d2 = true -> counted d3 = true ->
  counted d4 = true -> counted d5 = true -> counted d6 = true ->
  counted d7 = true -> counted d8 = true -> counted d9 = true ->
  counted d10 = true ->
  counted T = true -> 0 < value T ->
  value T == value d1 + value d2 + value d3 + value d4 + value d5
             + value d6 + value d7 + value d8 + value d9 + value d10 ->
  let p d := (d / T * 100)%float in
  let S := (p d1 + p d2 + p d3 + p d4 + p d5 + p d6 + p d7 + p d8 + p d9
            + p d10)%float in
  counted S = true /\ Qabs (value S - 100) <= 1 # 1000000000000.
Proof.
  intros C1 C2 C3 C4 C5 C6 C7 C8 C9 C10 CT Hpos Hsum p S.
  pose proof (@value_nonneg _ C1) as P1. pose proof (@value_nonneg _ C2) as P2.
  pose proof (@value_nonneg _ C3) as P3. pose proof (@value_nonneg _ C4) as P4.
  pose proof (@value_nonneg _ C5) as P5. pose proof (@value_nonneg _ C6) as P6.
  pose proof (@value_nonneg _ C7) as P7. pose proof (@value_nonneg _ C8) as P8.
  pose proof (@value_nonneg _ C9) as P9. pose proof (@value_nonneg _ C10) as P10.
  assert (Hone : value d1 / value T + value d2 / value T
                 + value d3 / value T + value d4 / value T
                 + value d5 / value T + value d6 / value T
                 + value d7 / value T + value d8 / value T
                 + value d9 / value T + value d10 / value T == 1).
  { setoid_replace (value d1 / value T + value d2 / value T
                 + value d3 / value T + value d4 / value T
                 + value d5 / value T + value d6 / value T
                 + value d7 / value T + value d8 / value T
                 + value d9 / value T + value d10 / value T)
      with ((value d1 + value d2 + value d3 + value d4 + value d5
             + value d6 + value d7 + value d8 + value d9 + value d10)
            / value T) by (field; lra).
    rewrite <- Hsum. field. lra. }
  destruct (@percent_value d1 T C1 CT Hpos ltac:(lra)) as (N1 & L1 & U1).
  destruct (@percent_value d2 T C2 CT Hpos ltac:(lra)) as (N2 & L2 & U2).
  destruct (@percent_value d3 T C3 CT Hpos ltac:(lra)) as (N3 & L3 & U3).
  destruct (@percent_value d4 T C4 CT Hpos ltac:(lra)) as (N4 & L4 & U4).
  destruct (@percent_value d5 T C5 CT Hpos ltac:(lra)) as (N5 & L5 & U5).
  destruct (@percent_value d6 T C6 CT Hpos ltac:(lra)) as (N6 & L6 & U6).
  destruct (@percent_value d7 T C7 CT Hpos ltac:(lra)) as (N7 & L7 & U7).
  destruct (@percent_value d8 T C8 CT Hpos ltac:(lra)) as (N8 & L8 & U8).
  destruct (@percent_value d9 T C9 CT Hpos ltac:(lra)) as (N9 & L9 & U9).
  destruct (@percent_value d10 T C10 CT Hpos ltac:(lra))
    as (N10 & L10 & U10).
  fold (p d1) in N1, L1, U1. fold (p d2) in N2, L2, U2.
  fold (p d3) in N3, L3, U3. fold (p d4) in N4, L4, U4.
  fold (p d5) in N5, L5, U5. fold (p d6) in N6, L6, U6.
  fold (p d7) in N7, L7, U7. fold (p d8) in N8, L8, U8.
  fold (p d9) in N9, L9, U9. fold (p d10) in N10, L10, U10.
  assert (V1 : 0 <= value d1 / value T)
    by (apply Qle_shift_div_l; [exact Hpos|lra]).
  assert (V2 : 0 <= value d2 / value T)
    by (apply Qle_shift_div_l; [exact Hpos|lra]).
  assert (V3 : 0 <= value d3 / value T)
    by (apply Qle_shift_div_l; [exact Hpos|lra]).
  assert (V4 : 0 <= value d4 / value T)
    by (apply Qle_shift_div_l; [exact Hpos|lra]).
  assert (V5 : 0 <= value d5 / value T)
    by (apply Qle_shift_div_l; [exact Hpos|lra]).
  assert (V6 : 0 <= value d6 / value T)
    by (apply Qle_shift_div_l; [exact Hpos|lra]).
  assert (V7 : 0 <= value d7 / value T)
    by (apply Qle_shift_div_l; [exact Hpos|lra]).
  assert (V8 : 0 <= value d8 / value T)
    by (apply Qle_shift_div_l; [exact Hpos|lra]).
  assert (V9 : 0 <= value d9 / value T)
    by (apply Qle_shift_div_l; [exact Hpos|lra]).
  assert (V10 : 0 <= value d10 / value T)
    by (apply Qle_shift_div_l; [exact Hpos|lra]).
  set (v1 := value d1 / value T) in *. set (v2 := value d2 / value T) in *.
  set (v3 := value d3 / value T) in *. set (v4 := value d4 / value T) in *.
  set (v5 := value d5 / value T) in *. set (v6 := value d6 / value T) in *.
  set (v7 := value d7 / value T) in *. set (v8 := value d8 / value T) in *.
  set (v9 := value d9 / value T) in *.
  set (v10 := value d10 / value T) in *.
  clearbody v1 v2 v3 v4 v5 v6 v7 v8 v9 v10.
  clear Hsum P1 P2 P3 P4 P5 P6 P7 P8 P9 P10 Hpos.
  pose proof tiny as Htiny. pose proof (pow2_pos (-1074)) as Heta.
  set (eta := pow2 (-1074)) in *.
  destruct (@sum_step (p d1) (p d2) N1 N2) as (M2 & A2 & B2).
  { clearbody eta. lra. }
  set (s2 := (p d1 + p d2)%float) in *.
  destruct (@sum_step s2 (p d3) M2 N3) as (M3 & A3 & B3).
  { fold eta in A2, B2. clearbody eta. lra. }
  set (s3 := (s2 + p d3)%float) in *.
  destruct (@sum_step s3 (p d4) M3 N4) as (M4 & A4 & B4).
  { fold eta in A2, B2, A3, B3. clearbody eta. lra. }
  set (s4 := (s3 + p d4)%float) in *.
  destruct (@sum_step s4 (p d5) M4 N5) as (M5 & A5 & B5).
  { fold eta in A2, B2, A3, B3, A4, B4. clearbody eta. lra. }
  set (s5 := (s4 + p d5)%float) in *.
  destruct (@sum_step s5 (p d6) M5 N6) as (M6 & A6 & B6).
  { fold eta in A2, B2, A3, B3, A4, B4, A5, B5. clearbody eta. lra. }
  set (s6 := (s5 + p d6)%float) in *.
  destruct (@sum_step s6 (p d7) M6 N7) as (M7 & A7 & B7).
  { fold eta in A2, B2, A3, B3, A4, B4, A5, B5, A6, B6.
    clearbody eta. lra. }
  set (s7 := (s6 + p d7)%float) in *.
  destruct (@sum_step s7 (p d8) M7 N8) as (M8 & A8 & B8).
  { fold eta in A2, B2, A3, B3, A4, B4, A5, B5, A6, B6, A7, B7.
    clearbody eta. lra. }
  set (s8 := (s7 + p d8)%float) in *.
  destruct (@sum_step s8 (p d9) M8 N9) as (M9 & A9 & B9).
  { fold eta in A2, B2, A3, B3, A4, B4, A5, B5, A6, B6, A7, B7, A8, B8.
    clearbody eta. lra. }
  set (s9 := (s8 + p d9)%float) in *.
  destruct (@sum_step s9 (p d10) M9 N10) as (M10 & A10 & B10).
  { fold eta in A2, B2, A3, B3, A4, B4, A5, B5, A6, B6, A7, B7, A8, B8,
      A9, B9.
    clearbody eta. lra. }
  split; [exact M10|].
  fold eta in A2, B2, A3, B3, A4, B4, A5, B5, A6, B6, A7, B7, A8, B8,
    A9, B9, A10, B10.
  clearbody eta.
  apply Qabs_Qle_condition. unfold S.
  fold s2. fold s3. fold s4. fold s5. fold s6. fold s7. fold s8. fold s9.
  split; lra.
Qed.

End Percentages.


(* ================================================================== *)
(** * Properties of the sampler *)

(** The run of [executeCheck] in which both snapshots and the process
    list are obtained: the status comes from the thresholds, the error
    is nil, and the report carries the values of [usage]. *)
Lemma executeCheck_success env plugin getTop st s ss e es top st' :
  cpu_Times env (times_calls st) = (s :: ss, None) ->
  snd (ParseDuration_seconds (Interval plugin)) = None ->
  cpu_Times env (S (times_calls st)) = (e :: es, None) ->
  getTop (sampled plugin st) = Ok ((top, None), st') ->
  executeCheck env plugin getTop st
  = Ok ((fst (threshold_status plugin (usedPct (usage s e))), None),
        reported plugin (usage s e) top st').
Proof.
  intros Hs Hd He Htop.
  unfold executeCheck, bind, call_cpu_Times. cbn [times_calls].
  rewrite Hs. cbn [lift index nth_error].
  destruct (ParseDuration_seconds (Interval plugin)) as [d err] eqn:Hpd.
  cbn [snd] in Hd. subst err.
  unfold emit. cbn [times_calls log]. rewrite He. cbn [lift index nth_error].
  unfold sampled in Htop. rewrite Hpd in Htop. cbn [fst] in Htop.
  rewrite Htop.
  unfold reported, threshold_status.
  destruct (fgt (usedPct (usage s e)) (Critical plugin)); [reflexivity|].
  destruct (fgt (usedPct (usage s e)) (Warning plugin)); reflexivity.
Qed.

(** ** C1: a total delta that is not positive *)

(** C1, the claim refuted.  Two identical snapshots have a total delta of
    zero; [executeCheck] does not fail: it divides zero by zero, prints a
    used percentage that is NaN (the only value that differs from itself),
    and returns OK with a nil error. *)
Lemma zero_delta_is_not_an_error :
  let s := snapshot 0%float 1000%float 5000%float in
  let env := small_host s s in
  fle (diff s s) 0 = true
  /\ exists st',
      executeCheck env thresholds_90_75
        (CommandRanker.getTopCPUProcesses env) initial
      = Ok ((CheckStateOK, None), st')
      /\ exists perf top,
          last (log st') EvTimes = EvPrintf "OK" (usedPct (usage s s)) perf top
          /\ feq (usedPct (usage s s)) (usedPct (usage s s)) = false.
Proof.
  cbv zeta. split; [vm_compute; reflexivity|].
  eexists. split; [vm_compute; reflexivity|].
  eexists. eexists. split; vm_compute; reflexivity.
Qed.

(** C1, as the code has it.  A total delta that is zero or negative
    raises no error: once both snapshots and the process list are
    obtained, [executeCheck] returns a nil error and the status the
    thresholds give for the used percentage, which it computed by
    dividing by that delta. *)
Theorem nonpositive_delta_still_reports env plugin getTop st s ss e es
  top st' :
  fle (diff s e) 0 = true ->
  cpu_Times env (times_calls st) = (s :: ss, None) ->
  snd (ParseDuration_seconds (Interval plugin)) = None ->
  cpu_Times env (S (times_calls st)) = (e :: es, None) ->
  getTop (sampled plugin st) = Ok ((top, None), st') ->
  let used :=
    (100 - ((Idle e - Idle s) / (total e - total s)) * 100)%float in
  exists st'',
    executeCheck env plugin getTop st
    = Ok ((fst (threshold_status plugin used), None), st'').
Proof.
  intros _ Hs Hd He Htop used.
  eexists. rewrite (executeCheck_success _ _ _ _ Hs Hd He Htop).
  reflexivity.
Qed.

Lemma nonpositive_delta_still_reports_witness :
  let s := snapshot 0%float 1000%float 5000%float in
  let e := snapshot 0%float 1000%float 4000%float in
  fle (diff s e) 0 = true
  /\ exists st'',
      executeCheck (small_host s e) thresholds_90_75
        (CommandRanker.getTopCPUProcesses (small_host s e)) initial
      = Ok ((CheckStateOK, None), st'').
Proof.
  cbv zeta. split; [vm_compute; reflexivity|].
  eapply (@nonpositive_delta_still_reports
            (small_host (snapshot 0%float 1000%float 5000%float)
               (snapshot 0%float 1000%float 4000%float))
            thresholds_90_75 _ initial
            (snapshot 0%float 1000%float 5000%float) []
            (snapshot 0%float 1000%float 4000%float) [] [init_process]);
    vm_compute; reflexivity.
Defined.

(** ** C3: the sum of the category percentages *)


(** A counter that falls is another way for the sum to leave 100, even
    when the total delta is the sum of the ten gains: with an idle
    counter that loses 2^53 seconds while the user counter gains
    2^53 + 2, the total delta is 2 and the ten percentages sum to
    128. *)
Lemma a_falling_counter_gives_128 :
  let s := snapshot 0%float 0%float 0x1p53%float in
  let e := snapshot 0%float 9007199254740994%float 0%float in
  diff s e = 2%float
  /\ categories (usage s e)
     = [450359962737049728; 0; -450359962737049600; 0; 0; 0; 0; 0; 0;
        0]%float
  /\ sum_categories (usage s e) = 128%float.
Proof. cbv zeta. repeat split; vm_compute; reflexivity. Qed.

(** And with every condition met the sum is near 100, not 100: one
    second of user time and two of idle time give 33.33 and 66.67
    percent, which add up to a little less. *)
Lemma thirds_do_not_add_up_to_100 :
  let s := snapshot 0%float 0%float 0%float in
  let e := snapshot 0%float 1%float 2%float in
  diff s e = 3%float
  /\ sum_categories (usage s e) = 0x1.8ffffffffffffp+6%float
  /\ PrimFloat.ltb (sum_categories (usage s e)) 100 = true.
Proof. cbv zeta. repeat split; vm_compute; reflexivity. Qed.



(** ** C4: the status from the thresholds *)

(** C4.  Once both snapshots and the process list are obtained,
    [executeCheck] returns CRITICAL when the used percentage is above
    the critical threshold, otherwise WARNING when it is above the
    warning threshold, otherwise OK, and a nil error; this for every
    pair of thresholds, ordered or not. *)
Theorem status_by_thresholds env plugin getTop st s ss e es top st' :
  cpu_Times env (times_calls st) = (s :: ss, None) ->
  snd (ParseDuration_seconds (Interval plugin)) = None ->
  cpu_Times env (S (times_calls st)) = (e :: es, None) ->
  getTop (sampled plugin st) = Ok ((top, None), st') ->
  exists st'',
    executeCheck env plugin getTop st
    = Ok ((if fgt (usedPct (usage s e)) (Critical plugin)
           then CheckStateCritical
           else if fgt (usedPct (usage s e)) (Warning plugin)
                then CheckStateWarning
                else CheckStateOK, None), st'').
Proof.
  intros Hs Hd He Htop.
  eexists. rewrite (executeCheck_success _ _ _ _ Hs Hd He Htop).
  unfold threshold_status.
  destruct (fgt (usedPct (usage s e)) (Critical plugin)); [reflexivity|].
  destruct (fgt (usedPct (usage s e)) (Warning plugin)); reflexivity.
Qed.

(** The end-to-end example of the spec: 20 of 100 seconds idle is 80
    percent used, WARNING under the thresholds 90 and 75. *)
Lemma status_by_thresholds_witness :
  let s := snapshot 0%float 0%float 0%float in
  let e := snapshot 0%float 80%float 20%float in
  exists st'',
    executeCheck (small_host s e) thresholds_90_75
      (CommandRanker.getTopCPUProcesses (small_host s e)) initial
    = Ok ((CheckStateWarning, None), st'').
Proof.
  cbv zeta.
  eapply (@status_by_thresholds
            (small_host (snapshot 0%float 0%float 0%float)
               (snapshot 0%float 80%float 20%float))
            thresholds_90_75 _ initial
            (snapshot 0%float 0%float 0%float) []
            (snapshot 0%float 80%float 20%float) [] [init_process]);
    vm_compute; reflexivity.
Defined.

(** The two other cases of the example. *)
Example used_95_is_critical :
  fst (threshold_status thresholds_90_75 95) = CheckStateCritical.
Proof. reflexivity. Qed.

Example used_50_is_ok :
  fst (threshold_status thresholds_90_75 50) = CheckStateOK.
Proof. reflexivity. Qed.

(** ** C8: the formulas *)

(** C8.  The values [executeCheck] reports are, for each category, the
    quotient of the category's delta by the total delta, times 100,
    where the total delta is the sum of the ten counters of the second
    snapshot minus the sum of the ten counters of the first, and, as
    the used percentage, 100 minus the idle percentage; this for every
    total delta, positive or not. *)
Theorem reported_percentages env plugin getTop st s ss e es top st' :
  cpu_Times env (times_calls st) = (s :: ss, None) ->
  snd (ParseDuration_seconds (Interval plugin)) = None ->
  cpu_Times env (S (times_calls st)) = (e :: es, None) ->
  getTop (sampled plugin st) = Ok ((top, None), st') ->
  let sum (t : TimesStat float) :=
    (User t + System t + Idle t + Nice t + Iowait t + Irq t + Softirq t
     + Steal t + Guest t + GuestNice t)%float in
  let totalDelta := (sum e - sum s)%float in
  let pct (category : TimesStat float -> float) :=
    (((category e - category s) / totalDelta) * 100)%float in
  exists status word st'',
    executeCheck env plugin getTop st = Ok ((status, None), st'')
    /\ log st''
       = (log st'
          ++ [EvPrintf word (100 - pct (@Idle float))%float
                [("cpu_idle", pct (@Idle float));
                 ("cpu_system", pct (@System float));
                 ("cpu_user", pct (@User float));
                 ("cpu_nice", pct (@Nice float));
                 ("cpu_iowait", pct (@Iowait float));
                 ("cpu_irq", pct (@Irq float));
                 ("cpu_softirq", pct (@Softirq float));
                 ("cpu_steal", pct (@Steal float));
                 ("cpu_guest", pct (@Guest float));
                 ("cpu_guestnice", pct (@GuestNice float))]
                top])%list.
Proof.
  intros Hs Hd He Htop sum totalDelta pct.
  eexists. eexists. eexists.
  rewrite (executeCheck_success _ _ _ _ Hs Hd He Htop).
  split; reflexivity.
Qed.

(** Ten counters that all advance, each by its own amount, 256
    seconds in all: 40 of them idle, so 15.625 percent idle and 84.375
    percent used. *)
Lemma reported_percentages_witness :
  exists status word st'',
    executeCheck (small_host ten_counters_start ten_counters_end)
      thresholds_90_75
      (CommandRanker.getTopCPUProcesses
         (small_host ten_counters_start ten_counters_end)) initial
    = Ok ((status, None), st'')
    /\ log st''
       = [EvTimes; EvSleep 2000000000; EvTimes;
          EvExec "ps" ["aux"; "--sort=-pcpu"];
          EvPrintf word 84.375%float
            [("cpu_idle", 15.625); ("cpu_system", 23.4375);
             ("cpu_user", 39.0625); ("cpu_nice", 7.8125);
             ("cpu_iowait", 4.6875); ("cpu_irq", 3.125);
             ("cpu_softirq", 2.34375); ("cpu_steal", 1.953125);
             ("cpu_guest", 1.171875); ("cpu_guestnice", 0.78125)]%float
            [init_process]].
Proof.
  eapply (@reported_percentages
            (small_host ten_counters_start ten_counters_end)
            thresholds_90_75 _ initial
            ten_counters_start [] ten_counters_end [] [init_process]
            {| times_calls := 2;
               log := [EvTimes; EvSleep 2000000000; EvTimes;
                       EvExec "ps" ["aux"; "--sort=-pcpu"]] |});
    vm_compute; reflexivity.
Defined.

(** ** C5: the validation of the arguments *)

(** What [checkArgs] refuses. *)
Lemma checkArgs_refuses plugin :
  feq (Critical plugin) 0 || feq (Warning plugin) 0
  || fgt (Warning plugin) (Critical plugin)
  || (Interval plugin =? 0)%Z = true ->
  exists e, checkArgs plugin = (CheckStateWarning, Some e).
Proof.
  unfold checkArgs. intros H.
  destruct (feq (Critical plugin) 0); [eexists; reflexivity|].
  destruct (feq (Warning plugin) 0); [eexists; reflexivity|].
  destruct (fgt (Warning plugin) (Critical plugin));
    [eexists; reflexivity|].
  destruct (Interval plugin =? 0)%Z; [eexists; reflexivity|].
  discriminate H.
Qed.

(** What [checkArgs] accepts. *)
Lemma checkArgs_accepts plugin :
  feq (Critical plugin) 0 || feq (Warning plugin) 0
  || fgt (Warning plugin) (Critical plugin)
  || (Interval plugin =? 0)%Z = false ->
  checkArgs plugin = (CheckStateOK, None).
Proof.
  unfold checkArgs. intros H.
  destruct (feq (Critical plugin) 0); [discriminate H|].
  destruct (feq (Warning plugin) 0); [discriminate H|].
  destruct (fgt (Warning plugin) (Critical plugin)); [discriminate H|].
  destruct (Interval plugin =? 0)%Z; [discriminate H|].
  reflexivity.
Qed.

(** C5, the claim refuted.  A critical threshold of -1, a warning
    threshold of -2 and an interval of -1 second, none of them strictly
    positive, pass the validation, and the check goes on to take its
    first snapshot. *)
Lemma negative_arguments_are_accepted :
  let plugin := {| Critical := (-1)%float; Warning := (-2)%float;
                   Interval := (-1)%Z |} in
  let s := snapshot 0%float 0%float 0%float in
  let e := snapshot 0%float 80%float 20%float in
  fle (Critical plugin) 0 = true
  /\ fle (Warning plugin) 0 = true
  /\ (Interval plugin <=? 0)%Z = true
  /\ checkArgs plugin = (CheckStateOK, None)
  /\ exists st',
      main_with_command (small_host s e) plugin initial
      = Ok ((CheckStateCritical, None), st')
      /\ head (log st') = Some EvTimes.
Proof.
  cbv zeta. repeat split; try (vm_compute; reflexivity).
  eexists. split; vm_compute; reflexivity.
Qed.

(** C5, as the code has it.  A configuration whose critical threshold
    is zero, whose warning threshold is zero, whose warning threshold is
    greater than the critical one or whose interval is zero is rejected
    with a WARNING status and an error before anything is measured: the
    state of the world is left as it was. *)
Theorem zero_or_inverted_arguments_are_rejected env plugin getTop st :
  feq (Critical plugin) 0 || feq (Warning plugin) 0
  || fgt (Warning plugin) (Critical plugin)
  || (Interval plugin =? 0)%Z = true ->
  exists err,
    goCheckWorkflow env plugin getTop st
    = Ok ((CheckStateWarning, Some err), st).
Proof.
  intros H. destruct (checkArgs_refuses plugin H) as [err Herr].
  unfold goCheckWorkflow. rewrite Herr.
  eexists. reflexivity.
Qed.

(** The example of the spec: warning 85 above critical 80. *)
Lemma zero_or_inverted_arguments_are_rejected_witness :
  let env := small_host (snapshot 0%float 0%float 0%float)
               (snapshot 0%float 80%float 20%float) in
  exists err,
    main_with_command env
      {| Critical := 80; Warning := 85; Interval := 2 |} initial
    = Ok ((CheckStateWarning, Some err), initial).
Proof.
  exact (@zero_or_inverted_arguments_are_rejected
           (small_host (snapshot 0%float 0%float 0%float)
              (snapshot 0%float 80%float 20%float))
           {| Critical := 80; Warning := 85; Interval := 2 |}
           (CommandRanker.getTopCPUProcesses
              (small_host (snapshot 0%float 0%float 0%float)
                 (snapshot 0%float 80%float 20%float)))
           initial eq_refl).
Defined.

(* ================================================================== *)
(** * [sort.Slice] with any [less]: it returns, and rearranges *)

Module SortAny.
Import sort.
Section Any.
Local Open Scope list_scope.
Local Open Scope nat_scope.
Variable T : Type.
Variable less : T -> T -> bool.

Local Abbreviation SortM := (sort.SortM T).
Local Abbreviation Less := (sort.Less less).
Local Abbreviation lessAt := (SortSpec.lessAt less).
Local Abbreviation swapped := (@SortSpec.swapped T).
Local Abbreviation same_outside := (@SortSpec.same_outside T).
Local Abbreviation range_perm := (@SortSpec.range_perm T).
Local Abbreviation transpose := SortSpec.transpose.
Local Abbreviation split_at := (SortSpec.split_at less).
Local Abbreviation partitioned := (SortSpec.partitioned less).
Local Abbreviation split_eq := (SortSpec.split_eq less).

(** ** Slices *)

Lemma length_set_nth i (x : T) s : length (set_nth i x s) = length s.
Proof.
  revert i; induction s as [|y s IH]; intros [|i]; simpl; auto.
Qed.

Lemma nth_error_set_nth i (x : T) s k :
  i < length s ->
  nth_error (set_nth i x s) k
  = if Nat.eqb k i then Some x else nth_error s k.
Proof.
  revert i k; induction s as [|y s IH]; intros [|i] [|k] Hi; simpl in *;
    try lia; auto.
  apply IH. lia.
Qed.

Lemma nth_error_in_range (s : list T) k :
  k < length s -> exists x, nth_error s k = Some x.
Proof.
  intros H. destruct (nth_error s k) eqn:E; [eauto|].
  apply nth_error_None in E. lia.
Qed.

Lemma swapped_length i j (s : list T) : length (swapped i j s) = length s.
Proof.
  unfold SortSpec.swapped.
  destruct (nth_error s i), (nth_error s j); auto.
  now rewrite !length_set_nth.
Qed.


Lemma nth_error_swapped i j (s : list T) k :
  i < length s -> j < length s ->
  nth_error (swapped i j s) k = nth_error s (transpose i j k).
Proof.
  intros Hi Hj. unfold SortSpec.swapped, SortSpec.transpose.
  destruct (nth_error_in_range s Hi) as [x Hx].
  destruct (nth_error_in_range s Hj) as [y Hy].
  rewrite Hx, Hy.
  rewrite nth_error_set_nth by (rewrite length_set_nth; lia).
  rewrite nth_error_set_nth by lia.
  destruct (Nat.eqb_spec k j), (Nat.eqb_spec k i); subst; congruence.
Qed.

Lemma transpose_l i j : transpose i j i = j.
Proof. unfold SortSpec.transpose. now rewrite Nat.eqb_refl. Qed.

Lemma transpose_r i j : transpose i j j = i.
Proof.
  unfold SortSpec.transpose. rewrite Nat.eqb_refl.
  destruct (Nat.eqb_spec j i); auto.
Qed.

Lemma transpose_other i j k : k <> i -> k <> j -> transpose i j k = k.
Proof.
  intros Hi Hj. unfold SortSpec.transpose.
  destruct (Nat.eqb_spec k i), (Nat.eqb_spec k j); congruence.
Qed.

Lemma lessAt_swapped i j (s : list T) k l :
  i < length s -> j < length s ->
  lessAt (swapped i j s) k l
  = lessAt s (transpose i j k) (transpose i j l).
Proof.
  intros Hi Hj. unfold SortSpec.lessAt.
  now rewrite !nth_error_swapped.
Qed.

Lemma replace_perm (a y : T) s j :
  nth_error s j = Some y ->
  Permutation (a :: s) (y :: set_nth j a s).
Proof.
  revert j; induction s as [|z s IH]; intros [|j] H; simpl in *;
    try discriminate.
  - injection H as ->. apply perm_swap.
  - apply IH in H.
    eapply perm_trans; [apply perm_swap|].
    eapply perm_trans; [apply perm_skip, H|].
    apply perm_swap.
Qed.

Lemma set_nth_same (x : T) s i :
  nth_error s i = Some x -> set_nth i x s = s.
Proof.
  revert i; induction s as [|z s IH]; intros [|i] H; simpl in *;
    try discriminate; auto.
  - now injection H as ->.
  - f_equal. auto.
Qed.

Lemma swapped_perm i j (s : list T) : Permutation s (swapped i j s).
Proof.
  unfold SortSpec.swapped.
  destruct (nth_error s i) as [x|] eqn:Hx; [|apply Permutation_refl].
  destruct (nth_error s j) as [y|] eqn:Hy; [|apply Permutation_refl].
  revert i j Hx Hy.
  induction s as [|z s IH]; intros [|i] [|j] Hx Hy; simpl in *;
    try discriminate.
  - injection Hx as ->. injection Hy as ->. apply Permutation_refl.
  - injection Hx as ->. now apply replace_perm.
  - injection Hy as ->.
    destruct s as [|w s]; [destruct i; discriminate|].
    eapply perm_trans; [apply (replace_perm y (w :: s) i Hx)|].
    apply Permutation_refl.
  - apply perm_skip. now apply IH.
Qed.

(** ** The two operations *)

Lemma Less_run i j (s : list T) :
  i < length s -> j < length s ->
  Less i j s = Ok (lessAt s i j, s).
Proof.
  intros Hi Hj. unfold sort.Less, SortSpec.lessAt.
  destruct (nth_error_in_range s Hi) as [x ->].
  destruct (nth_error_in_range s Hj) as [y ->].
  reflexivity.
Qed.

Lemma Swap_run i j (s : list T) :
  i < length s -> j < length s ->
  Swap i j s = Ok (tt, swapped i j s).
Proof.
  intros Hi Hj. unfold Swap, swapped.
  destruct (nth_error_in_range s Hi) as [x ->].
  destruct (nth_error_in_range s Hj) as [y ->].
  reflexivity.
Qed.

(** ** Rearranging within a range *)

Lemma same_outside_refl a b (s : list T) : same_outside a b s s.
Proof. intros k _. reflexivity. Qed.

Lemma range_perm_refl a b (s : list T) : range_perm a b s s.
Proof. split; [apply Permutation_refl|apply same_outside_refl]. Qed.

Lemma range_perm_trans a b (s1 s2 s3 : list T) :
  range_perm a b s1 s2 -> range_perm a b s2 s3 -> range_perm a b s1 s3.
Proof.
  intros [P1 O1] [P2 O2]. split; [eapply perm_trans; eauto|].
  intros k Hk. rewrite O2, O1; auto.
Qed.

Lemma range_perm_widen a b a' b' (s s' : list T) :
  a' <= a -> b <= b' -> range_perm a b s s' -> range_perm a' b' s s'.
Proof.
  intros Ha Hb [P O]. split; [exact P|].
  intros k Hk. apply O. lia.
Qed.

Lemma range_perm_length a b (s s' : list T) :
  range_perm a b s s' -> length s' = length s.
Proof. intros [P _]. symmetry. now apply Permutation_length. Qed.

Lemma range_perm_swapped a b i j (s : list T) :
  a <= i -> i < b -> a <= j -> j < b -> b <= length s ->
  range_perm a b s (swapped i j s).
Proof.
  intros Hai Hib Haj Hjb Hb. split; [apply swapped_perm|].
  intros k Hk. rewrite nth_error_swapped by lia.
  unfold SortSpec.transpose.
  destruct (Nat.eqb_spec k i), (Nat.eqb_spec k j); subst; auto; lia.
Qed.


Lemma range_perm_Permutation a b (s s' : list T) :
  range_perm a b s s' -> Permutation s s'.
Proof. now intros [P _]. Qed.

(** ** Ties *)

Lemma ties_kept_refl (s : list T) : SortSpec.ties_kept less s s.
Proof. intros p _. reflexivity. Qed.

Lemma ties_kept_trans (s1 s2 s3 : list T) :
  SortSpec.ties_kept less s1 s2 -> SortSpec.ties_kept less s2 s3 ->
  SortSpec.ties_kept less s1 s3.
Proof. intros H1 H2 p Hp. rewrite H2, H1; auto. Qed.

Lemma set_nth_adjacent (s : list T) j x y :
  nth_error s j = Some y -> nth_error s (S j) = Some x ->
  exists l1 l2,
    s = l1 ++ y :: x :: l2
    /\ set_nth j x (set_nth (S j) y s) = l1 ++ x :: y :: l2.
Proof.
  revert j. induction s as [|z s IH]; intros [|j] Hy Hx; simpl in *;
    try discriminate.
  - injection Hy as ->. destruct s as [|w s]; [discriminate|].
    simpl in Hx. injection Hx as ->.
    exists [], s. split; reflexivity.
  - destruct (IH j Hy Hx) as (l1 & l2 & E1 & E2).
    exists (z :: l1), l2. split; simpl; congruence.
Qed.

Lemma swapped_adjacent (s : list T) j x y :
  nth_error s j = Some y -> nth_error s (S j) = Some x ->
  exists l1 l2,
    s = l1 ++ y :: x :: l2 /\ swapped (S j) j s = l1 ++ x :: y :: l2.
Proof.
  intros Hy Hx. unfold SortSpec.swapped. rewrite Hx, Hy.
  now apply set_nth_adjacent.
Qed.

(** Swapping two neighbours of which one is less than the other keeps
    the ties. *)
Lemma ties_kept_swapped (s : list T) j :
  lessAt s (S j) j = true ->
  SortSpec.ties_kept less s (swapped (S j) j s).
Proof.
  unfold SortSpec.lessAt. intros H.
  destruct (nth_error s (S j)) as [x|] eqn:Hx; [|discriminate].
  destruct (nth_error s j) as [y|] eqn:Hy; [|discriminate].
  destruct (swapped_adjacent s j Hy Hx) as (l1 & l2 & E1 & E2).
  intros p Hp. rewrite E2. rewrite E1 at 1.
  rewrite !filter_app. f_equal. simpl.
  destruct (p x) eqn:Px, (p y) eqn:Py; auto.
  rewrite (Hp x y Px Py) in H. discriminate.
Qed.

(** ** Insertion sort *)

Ltac run H :=
  unfold bind at 1;
  let H' := fresh in
  pose proof H as H'; unfold sort.SortM in H';
  rewrite H'; clear H'; cbv beta iota.

Lemma insert_down_run a j (s : list T) :
  j < length s ->
  exists s',
    insert_down less a j s = Ok (tt, s')
    /\ range_perm a (S j) s s'
    /\ SortSpec.ties_kept less s s'.
Proof.
  revert s. induction j as [|j IH]; intros s Hj; simpl.
  - exists s. auto using range_perm_refl, ties_kept_refl.
  - destruct (Nat.ltb_spec a (S j)) as [Ha|Ha].
    + run (@Less_run (S j) j s ltac:(lia) ltac:(lia)).
      destruct (lessAt s (S j) j) eqn:Hc.
      * run (@Swap_run (S j) j s ltac:(lia) ltac:(lia)).
        destruct (IH (swapped (S j) j s)) as (s' & Hrun & Hp & Ht).
        { rewrite swapped_length. lia. }
        exists s'. split; [exact Hrun|]. split.
        -- eapply range_perm_trans.
           ++ apply (@range_perm_swapped a (S (S j)) (S j) j s); lia.
           ++ eapply range_perm_widen; [| |exact Hp]; lia.
        -- eapply ties_kept_trans; [|exact Ht].
           now apply ties_kept_swapped.
      * exists s. auto using range_perm_refl, ties_kept_refl.
    + exists s. auto using range_perm_refl, ties_kept_refl.
Qed.

(** A loop over indices whose every turn rearranges within [a, b). *)
Lemma for_each_run a b idxs (body : nat -> SortM unit)
  (R : list T -> list T -> Prop) (n : nat) :
  (forall s, R s s) ->
  (forall s1 s2 s3, R s1 s2 -> R s2 s3 -> R s1 s3) ->
  (forall i s, In i idxs -> length s = n ->
     exists s', body i s = Ok (tt, s') /\ range_perm a b s s' /\ R s s') ->
  forall s, length s = n ->
    exists s',
      for_each idxs body s = Ok (tt, s') /\ range_perm a b s s' /\ R s s'.
Proof.
  intros Rrefl Rtrans.
  induction idxs as [|i idxs IH]; intros Hbody s Hn; simpl.
  - exists s. auto using range_perm_refl.
  - destruct (Hbody i s (or_introl eq_refl) Hn) as (s1 & Hrun & Hp & Hr).
    run Hrun.
    destruct (IH (fun i s H => Hbody i s (or_intror H)) s1)
      as (s2 & Hrun2 & Hp2 & Hr2).
    { rewrite (range_perm_length Hp). exact Hn. }
    exists s2. split; [exact Hrun2|]. split.
    + eapply range_perm_trans; eauto.
    + eapply Rtrans; eauto.
Qed.

Lemma insertionSort_run a b (s : list T) :
  b <= length s ->
  exists s',
    insertionSort_func less a b s = Ok (tt, s')
    /\ range_perm a b s s'
    /\ SortSpec.ties_kept less s s'.
Proof.
  intros Hb. unfold insertionSort_func.
  apply (@for_each_run a b _ _ (SortSpec.ties_kept less) (length s));
    auto using ties_kept_refl.
  - intros; eapply ties_kept_trans; eauto.
  - intros i s0 Hi Hlen. apply in_seq in Hi.
    destruct (@insert_down_run a i s0 ltac:(lia)) as (s' & Hrun & Hp & Ht).
    exists s'. split; [exact Hrun|]. split; [|exact Ht].
    eapply range_perm_widen; [| |exact Hp]; lia.
Qed.


(** ** Heap sort *)

Lemma siftDown_loop_run fuel root hi first (s : list T) :
  first + hi <= length s -> hi <= fuel + root ->
  exists s',
    siftDown_loop less fuel root hi first s = Ok (tt, s')
    /\ range_perm first (first + hi) s s'.
Proof.
  revert root s. induction fuel as [|fuel IH]; intros root s Hlen Hfuel.
  - simpl. destruct (Nat.leb_spec hi (root + (root + 0) + 1)); [|lia].
    exists s. auto using range_perm_refl.
  - cbn [siftDown_loop].
    destruct (Nat.leb_spec hi (2 * root + 1)) as [Hc|Hc].
    { exists s. auto using range_perm_refl. }
    set (child := 2 * root + 1) in *.
    assert (Hstep : forall c : nat, child <= c -> c < hi ->
      exists s',
        (c0 <- Less (first + root) (first + c) ;;
         if negb c0 then ret tt
         else Swap (first + root) (first + c) ;;;
              siftDown_loop less fuel c hi first)%go s = Ok (tt, s')
        /\ range_perm first (first + hi) s s').
    { intros c Hc1 Hc2.
      run (@Less_run (first + root) (first + c) s ltac:(lia) ltac:(lia)).
      destruct (lessAt s (first + root) (first + c)); cbn [negb].
      - run (@Swap_run (first + root) (first + c) s ltac:(lia) ltac:(lia)).
        destruct (IH c (swapped (first + root) (first + c) s))
          as (s' & Hrun & Hp).
        { rewrite swapped_length. lia. }
        { unfold child in *. lia. }
        exists s'. split; [exact Hrun|].
        eapply range_perm_trans; [|exact Hp].
        apply range_perm_swapped; unfold child in *; lia.
      - exists s. auto using range_perm_refl. }
    destruct (Nat.ltb_spec (child + 1) hi) as [Hc'|Hc'].
    + run (@Less_run (first + child) (first + child + 1) s
             ltac:(lia) ltac:(lia)).
      destruct (lessAt s (first + child) (first + child + 1)).
      * apply Hstep; lia.
      * apply Hstep; lia.
    + unfold bind at 1. cbn [ret]. apply Hstep; lia.
Qed.

Lemma siftDown_run lo hi first (s : list T) :
  first + hi <= length s ->
  exists s',
    siftDown_func less lo hi first s = Ok (tt, s')
    /\ range_perm first (first + hi) s s'.
Proof.
  intros H. unfold siftDown_func. apply siftDown_loop_run; lia.
Qed.

Lemma for_each_range a b idxs (body : nat -> SortM unit) (n : nat) :
  (forall i s, In i idxs -> length s = n ->
     exists s', body i s = Ok (tt, s') /\ range_perm a b s s') ->
  forall s, length s = n ->
    exists s', for_each idxs body s = Ok (tt, s') /\ range_perm a b s s'.
Proof.
  intros Hbody s Hn.
  destruct (@for_each_run a b idxs body (fun _ _ => True) n) with (s := s)
    as (s' & Hrun & Hp & _); auto.
  - intros i s0 Hi Hlen.
    destruct (Hbody i s0 Hi Hlen) as (s' & ? & ?). eauto.
  - eauto.
Qed.

Lemma heapSort_run a b (s : list T) :
  a <= b -> b <= length s ->
  exists s',
    heapSort_func less a b s = Ok (tt, s') /\ range_perm a b s s'.
Proof.
  intros Hab Hb. unfold heapSort_func.
  destruct (@for_each_range a b (rev (seq 0 ((b - a - 1) / 2 + 1)))
              (fun i => siftDown_func less i (b - a) a) (length s))
    with (s := s) as (s1 & Hrun1 & Hp1); auto.
  { intros i s0 _ Hlen.
    destruct (@siftDown_run i (b - a) a s0 ltac:(lia)) as (s' & ? & Hp).
    exists s'. split; [assumption|].
    eapply range_perm_widen; [| |exact Hp]; lia. }
  run Hrun1.
  destruct (@for_each_range a b (rev (seq 0 (b - a)))
              (fun i => Swap a (a + i) ;;; siftDown_func less 0 i a)%go
              (length s))
    with (s := s1) as (s2 & Hrun2 & Hp2); auto.
  { intros i s0 Hi Hlen. apply in_rev, in_seq in Hi.
    run (@Swap_run a (a + i) s0 ltac:(lia) ltac:(lia)).
    destruct (@siftDown_run 0 i a (swapped a (a + i) s0))
      as (s' & Hrun & Hp).
    { rewrite swapped_length. lia. }
    exists s'. split; [exact Hrun|].
    eapply range_perm_trans.
    - apply (@range_perm_swapped a b a (a + i) s0); lia.
    - eapply range_perm_widen; [| |exact Hp]; lia. }
  { now apply range_perm_length in Hp1. }
  exists s2. split; [exact Hrun2|].
  eapply range_perm_trans; eauto.
Qed.


(** ** Choosing the pivot, reversing, breaking patterns *)

(** Quotients by a numeral, spelled out for [lia]. *)
Ltac divs :=
  repeat match goal with
  | |- context [?x / ?d] =>
      let q := fresh "q" in
      pose proof (Nat.div_mod_eq x d);
      pose proof (Nat.mod_upper_bound x d ltac:(lia));
      set (q := x / d) in *; clearbody q
  | H : context [?x / ?d] |- _ =>
      let q := fresh "q" in
      pose proof (Nat.div_mod_eq x d);
      pose proof (Nat.mod_upper_bound x d ltac:(lia));
      set (q := x / d) in *; clearbody q
  end.

Lemma order2_run a b swaps (s : list T) :
  a < length s -> b < length s ->
  exists a' b' swaps',
    order2_func less a b swaps s = Ok ((a', b', swaps'), s)
    /\ (a' = a /\ b' = b \/ a' = b /\ b' = a).
Proof.
  intros Ha Hb. unfold order2_func.
  run (@Less_run b a s Hb Ha).
  destruct (lessAt s b a); do 3 eexists; (split; [reflexivity|]); auto.
Qed.

Lemma median_run a b c swaps (s : list T) :
  a < length s -> b < length s -> c < length s ->
  exists m swaps',
    median_func less a b c swaps s = Ok ((m, swaps'), s)
    /\ (m = a \/ m = b \/ m = c).
Proof.
  intros Ha Hb Hc. unfold median_func.
  destruct (@order2_run a b swaps s Ha Hb) as (a1 & b1 & w1 & R1 & E1).
  run R1.
  destruct (@order2_run b1 c w1 s ltac:(lia) Hc) as (b2 & c2 & w2 & R2 & E2).
  run R2.
  destruct (@order2_run a1 b2 w2 s ltac:(lia) ltac:(lia))
    as (a3 & b3 & w3 & R3 & E3).
  run R3. do 2 eexists. split; [reflexivity|]. lia.
Qed.

Lemma choosePivot_run a b (s : list T) :
  a < b -> b <= length s ->
  exists pivot hint,
    choosePivot_func less a b s = Ok ((pivot, hint), s)
    /\ a <= pivot < b.
Proof.
  intros Hab Hb. unfold choosePivot_func, medianAdjacent_func.
  assert (Hend : forall j swaps, a <= j < b ->
    exists pivot hint,
      (if swaps =? 0 then ret (j, increasingHint)
       else if swaps =? 4 * 3 then ret (j, decreasingHint)
       else ret (j, unknownHint)) s = Ok ((pivot, hint), s)
      /\ a <= pivot < b).
  { intros j swaps Hj.
    destruct (swaps =? 0); [|destruct (swaps =? 4 * 3)];
      do 2 eexists; (split; [reflexivity|]); exact Hj. }
  destruct (Nat.leb_spec 8 (b - a)) as [H8|H8].
  - destruct (Nat.leb_spec 50 (b - a)) as [H50|H50].
    + destruct (@median_run (a + (b - a) / 4 * 1 - 1) (a + (b - a) / 4 * 1)
                  (a + (b - a) / 4 * 1 + 1) 0 s)
        as (i & w1 & R1 & E1); try (divs; lia).
      unfold bind at 1. unfold bind at 1. unfold bind at 1.
      rewrite R1; cbv beta iota.
      destruct (@median_run (a + (b - a) / 4 * 2 - 1) (a + (b - a) / 4 * 2)
                  (a + (b - a) / 4 * 2 + 1) w1 s)
        as (j & w2 & R2 & E2); try (divs; lia).
      unfold bind at 1. rewrite R2; cbv beta iota.
      destruct (@median_run (a + (b - a) / 4 * 3 - 1) (a + (b - a) / 4 * 3)
                  (a + (b - a) / 4 * 3 + 1) w2 s)
        as (k & w3 & R3 & E3); try (divs; lia).
      unfold bind at 1. rewrite R3; cbv beta iota.
      cbn [ret].
      destruct (@median_run i j k w3 s) as (m & w4 & R4 & E4);
        try (divs; lia).
      rewrite R4. apply Hend. divs; lia.
    + unfold bind at 1. unfold bind at 1. cbn [ret].
      destruct (@median_run (a + (b - a) / 4 * 1) (a + (b - a) / 4 * 2)
                  (a + (b - a) / 4 * 3) 0 s) as (m & w4 & R4 & E4);
        try (divs; lia).
      rewrite R4. apply Hend. divs; lia.
  - unfold bind at 1. cbn [ret]. apply Hend. divs; lia.
Qed.

Lemma reverseRange_loop_run a b fuel i j (s : list T) :
  a <= i -> j < b -> b <= length s -> j <= fuel + i ->
  exists s',
    reverseRange_loop fuel i j s = Ok (tt, s') /\ range_perm a b s s'.
Proof.
  revert i j s. induction fuel as [|fuel IH]; intros i j s Hi Hj Hb Hf;
    simpl.
  - destruct (Nat.ltb_spec i j); [lia|].
    exists s. auto using range_perm_refl.
  - destruct (Nat.ltb_spec i j) as [Hij|Hij].
    + run (@Swap_run i j s ltac:(lia) ltac:(lia)).
      destruct (IH (i + 1) (j - 1) (swapped i j s)) as (s' & Hrun & Hp);
        try lia.
      { rewrite swapped_length. lia. }
      exists s'. split; [exact Hrun|].
      eapply range_perm_trans; [|exact Hp].
      apply range_perm_swapped; lia.
    + exists s. auto using range_perm_refl.
Qed.

Lemma reverseRange_run a b (s : list T) :
  a < b -> b <= length s ->
  exists s',
    reverseRange_func a b s = Ok (tt, s') /\ range_perm a b s s'.
Proof.
  intros Hab Hb. unfold reverseRange_func.
  apply reverseRange_loop_run; lia.
Qed.

Lemma land_mask_bound (r : Z) (k : nat) :
  Z.to_nat (Z.land r (Z.of_nat (2 ^ k) - 1)) < 2 ^ k.
Proof.
  assert (E : (Z.of_nat (2 ^ k) - 1 = Z.ones (Z.of_nat k))%Z).
  { rewrite Z.ones_equiv, Nat2Z.inj_pow. simpl. lia. }
  rewrite E, Z.land_ones by lia.
  assert (0 < 2 ^ Z.of_nat k)%Z by (apply Z.pow_pos_nonneg; lia).
  pose proof (Z.mod_pos_bound r (2 ^ Z.of_nat k) H).
  apply Nat2Z.inj_lt. rewrite Z2Nat.id by lia.
  rewrite Nat2Z.inj_pow. simpl. lia.
Qed.

Lemma nextPowerOfTwo_bound (l : nat) :
  0 < l -> nextPowerOfTwo l <= 2 * l.
Proof.
  intros Hl. unfold nextPowerOfTwo, bits_Len.
  destruct l as [|l]; [lia|].
  pose proof (Nat.log2_spec (S l) Hl) as [H _].
  rewrite Nat.add_1_r, Nat.pow_succ_r'. lia.
Qed.

Lemma breakPatterns_run a b (s : list T) :
  a <= b -> b <= length s ->
  exists s',
    breakPatterns_func a b s = Ok (tt, s') /\ range_perm a b s s'.
Proof.
  intros Hab Hb. unfold breakPatterns_func.
  destruct (Nat.leb_spec 8 (b - a)) as [H8|H8];
    [|exists s; auto using range_perm_refl].
  pose proof (@nextPowerOfTwo_bound (b - a) ltac:(lia)) as Hpow.
  assert (Hother : forall r : Z,
    let other :=
      Z.to_nat (Z.land r (Z.of_nat (nextPowerOfTwo (b - a)) - 1)) in
    (if b - a <=? other then other - (b - a) else other) < b - a).
  { intros r other.
    pose proof (land_mask_bound r (bits_Len (b - a))) as Hm.
    fold (nextPowerOfTwo (b - a)) in Hm. fold other in Hm.
    destruct (Nat.leb_spec (b - a) other); lia. }
  assert (Hswap : forall (i : nat) (r : Z) (s0 : list T),
    i < 3 -> length s0 = length s ->
    exists s',
      Swap (a + (b - a) / 4 * 2 - 1 - 1 + i)
        (a + (if b - a <=?
                   Z.to_nat
                     (Z.land r (Z.of_nat (nextPowerOfTwo (b - a)) - 1))
              then Z.to_nat
                     (Z.land r (Z.of_nat (nextPowerOfTwo (b - a)) - 1))
                   - (b - a)
              else Z.to_nat
                     (Z.land r (Z.of_nat (nextPowerOfTwo (b - a)) - 1))))
        s0 = Ok (tt, s')
      /\ range_perm a b s0 s').
  { intros i r s0 Hi Hlen. specialize (Hother r). cbv zeta in Hother.
    eexists. split.
    - apply Swap_run; [divs; lia|lia].
    - apply range_perm_swapped; try lia; divs; lia. }
  destruct (Hswap 0 (xorshift_Next (Z.of_nat (b - a))) s)
    as (s1 & R1 & P1); [lia|reflexivity|].
  run R1.
  destruct (Hswap 1 (xorshift_Next (xorshift_Next (Z.of_nat (b - a)))) s1)
    as (s2 & R2 & P2); [lia|now apply range_perm_length in P1|].
  run R2.
  destruct (Hswap 2
              (xorshift_Next
                 (xorshift_Next (xorshift_Next (Z.of_nat (b - a))))) s2)
    as (s3 & R3 & P3);
    [lia|apply range_perm_length in P1, P2; congruence|].
  exists s3. split; [exact R3|].
  eauto using range_perm_trans.
Qed.


(** ** Partitioning *)

Lemma scan_up_run fuel a i j (s : list T) :
  a < length s -> j < length s -> j + 1 <= fuel + i ->
  exists i',
    scan_up less fuel a i j s = Ok (i', s)
    /\ i <= i' /\ (i <= j + 1 -> i' <= j + 1)
    /\ (forall k, i <= k -> k < i' -> lessAt s k a = true)
    /\ (i' <= j -> lessAt s i' a = false).
Proof.
  revert i. induction fuel as [|fuel IH]; intros i Ha Hj Hf; simpl.
  - destruct (Nat.leb_spec i j); [lia|].
    exists i. repeat split; auto; lia.
  - destruct (Nat.leb_spec i j) as [Hij|Hij].
    + run (@Less_run i a s ltac:(lia) Ha).
      destruct (lessAt s i a) eqn:Hc.
      * destruct (IH (i + 1)) as (i' & Hrun & H1 & H2 & H3 & H4);
          try lia.
        exists i'. split; [exact Hrun|]. repeat split; try lia; auto.
        intros k Hk1 Hk2.
        destruct (Nat.eq_dec k i) as [->|]; [exact Hc|apply H3; lia].
      * exists i. repeat split; auto; lia.
    + exists i. repeat split; auto; lia.
Qed.

Lemma scan_down_run fuel a i j (s : list T) :
  a < length s -> j < length s -> 1 <= i -> j + 1 <= fuel + i ->
  exists j',
    scan_down less fuel a i j s = Ok (j', s)
    /\ j' <= j /\ (i <= j + 1 -> i <= j' + 1)
    /\ (forall k, j' < k -> k <= j -> lessAt s k a = false)
    /\ (i <= j' -> lessAt s j' a = true).
Proof.
  revert j. induction fuel as [|fuel IH]; intros j Ha Hj Hi Hf; simpl.
  - destruct (Nat.leb_spec i j); [lia|].
    exists j. repeat split; auto; lia.
  - destruct (Nat.leb_spec i j) as [Hij|Hij].
    + run (@Less_run j a s ltac:(lia) Ha).
      destruct (lessAt s j a) eqn:Hc; cbn [negb].
      * exists j. repeat split; auto; lia.
      * destruct (IH (j - 1)) as (j' & Hrun & H1 & H2 & H3 & H4);
          try lia.
        exists j'. split; [exact Hrun|]. repeat split; try lia; auto.
        intros k Hk1 Hk2.
        destruct (Nat.eq_dec k j) as [->|]; [exact Hc|apply H3; lia].
    + exists j. repeat split; auto; lia.
Qed.


Lemma split_at_swapped a b i j (s : list T) :
  a < i -> i < j -> j < b -> b <= length s ->
  split_at a b i j s ->
  lessAt s i a = false -> lessAt s j a = true ->
  split_at a b (i + 1) (j - 1) (swapped i j s).
Proof.
  intros Hai Hij Hjb Hb [Hl Hr] Hi Hj. split; intros k Hk1 Hk2.
  - rewrite lessAt_swapped by lia. unfold SortSpec.transpose.
    destruct (Nat.eqb_spec k i), (Nat.eqb_spec k j),
      (Nat.eqb_spec a i), (Nat.eqb_spec a j); subst; try lia; auto.
    apply Hl; lia.
  - rewrite lessAt_swapped by lia. unfold SortSpec.transpose.
    destruct (Nat.eqb_spec k i), (Nat.eqb_spec k j),
      (Nat.eqb_spec a i), (Nat.eqb_spec a j); subst; try lia; auto.
    apply Hr; lia.
Qed.

Lemma partition_loop_run fuel a b i j (s : list T) :
  a < i -> i <= j + 1 -> j < b -> b <= length s -> j + 2 <= fuel + i ->
  split_at a b i j s ->
  exists j' s',
    partition_loop less fuel a i j s = Ok (j', s')
    /\ range_perm (a + 1) b s s'
    /\ a <= j' /\ j' < b
    /\ split_at a b (j' + 1) j' s'.
Proof.
  revert i j s. induction fuel as [|fuel IH];
    intros i j s Hai Hij Hjb Hb Hf Hsplit; [lia|].
  cbn [partition_loop].
  destruct (@scan_up_run (j + 1 - i) a i j s)
    as (i' & R1 & U1 & U2 & U3 & U4); try lia.
  run R1.
  destruct (@scan_down_run (j + 1 - i') a i' j s)
    as (j' & R2 & D1 & D2 & D3 & D4); try lia.
  run R2.
  assert (Hsplit' : split_at a b i' j' s).
  { destruct Hsplit as [Hl Hr]. split; intros k Hk1 Hk2.
    - destruct (Nat.lt_ge_cases k i); [apply Hl|apply U3]; lia.
    - destruct (Nat.lt_ge_cases j k); [apply Hr|apply D3]; lia. }
  destruct (Nat.ltb_spec j' i') as [Hlt|Hge].
  - exists j', s. split; [reflexivity|].
    split; [apply range_perm_refl|].
    assert (i' = j' + 1) by lia. subst i'.
    repeat split; try lia; apply Hsplit'.
  - assert (Hne : i' < j').
    { destruct (Nat.eq_dec i' j') as [E|]; [|lia].
      rewrite E in U4. rewrite U4 in D4 by lia.
      specialize (D4 ltac:(lia)). discriminate. }
    run (@Swap_run i' j' s ltac:(lia) ltac:(lia)).
    destruct (IH (i' + 1) (j' - 1) (swapped i' j' s))
      as (j2 & s2 & R3 & P3 & B1 & B2 & S3); try lia.
    { rewrite swapped_length. lia. }
    { apply split_at_swapped; try lia;
        [exact Hsplit'|apply U4; lia|apply D4; lia]. }
    exists j2, s2. split; [exact R3|].
    split; [|auto].
    eapply range_perm_trans; [|exact P3].
    apply range_perm_swapped; lia.
Qed.


Lemma split_at_partitioned a b j (s : list T) :
  a <= j -> j < b -> b <= length s ->
  split_at a b (j + 1) j s ->
  partitioned a b j (swapped j a s).
Proof.
  intros Haj Hjb Hb [Hl Hr]. split; intros k Hk1 Hk2.
  - rewrite lessAt_swapped by lia. unfold SortSpec.transpose.
    rewrite Nat.eqb_refl.
    destruct (Nat.eqb_spec k j), (Nat.eqb_spec k a); subst; try lia.
    + apply Hl; lia.
    + apply Hl; lia.
  - rewrite lessAt_swapped by lia. unfold SortSpec.transpose.
    rewrite Nat.eqb_refl.
    destruct (Nat.eqb_spec k j), (Nat.eqb_spec k a); subst; try lia.
    apply Hr; lia.
Qed.

Lemma partition_run a b pivot (s : list T) :
  a <= pivot -> pivot < b -> b <= length s ->
  exists mid already s',
    partition_func less a b pivot s = Ok ((mid, already), s')
    /\ range_perm a b s s'
    /\ a <= mid /\ mid < b
    /\ partitioned a b mid s'
    /\ nth_error s' mid = nth_error s pivot.
Proof.
  intros Hap Hpb Hb. unfold partition_func.
  run (@Swap_run a pivot s ltac:(lia) ltac:(lia)).
  set (s0 := swapped a pivot s).
  assert (Hlen0 : length s0 = length s) by apply swapped_length.
  assert (P0 : range_perm a b s s0) by (apply range_perm_swapped; lia).
  assert (Hpiv : nth_error s0 a = nth_error s pivot).
  { unfold s0. rewrite nth_error_swapped by lia.
    unfold SortSpec.transpose. now rewrite Nat.eqb_refl. }
  destruct (@scan_up_run (b - 1 + 1 - (a + 1)) a (a + 1) (b - 1) s0)
    as (i & R1 & U1 & U2 & U3 & U4); try lia.
  run R1.
  destruct (@scan_down_run (b - 1 + 1 - i) a i (b - 1) s0)
    as (j & R2 & D1 & D2 & D3 & D4); try lia.
  run R2.
  assert (Hsplit : split_at a b i j s0).
  { split; intros k Hk1 Hk2; [apply U3|apply D3]; lia. }
  assert (Hfinal : forall (already : bool) j' s1,
    a <= j' -> j' < b -> range_perm (a + 1) b s0 s1 ->
    split_at a b (j' + 1) j' s1 ->
    exists mid already' s',
      (Swap j' a ;;; ret (j', already))%go s1 = Ok ((mid, already'), s')
      /\ range_perm a b s s'
      /\ a <= mid /\ mid < b
      /\ partitioned a b mid s'
      /\ nth_error s' mid = nth_error s pivot).
  { intros already j' s1 B1 B2 P1 S1.
    assert (Hlen1 : length s1 = length s)
      by (apply range_perm_length in P1; lia).
    run (@Swap_run j' a s1 ltac:(lia) ltac:(lia)).
    do 3 eexists. split; [reflexivity|].
    split; [|split; [exact B1|split; [exact B2|split]]].
    - eapply range_perm_trans; [exact P0|].
      eapply range_perm_trans.
      + eapply range_perm_widen; [| |exact P1]; lia.
      + apply range_perm_swapped; lia.
    - apply split_at_partitioned; auto; lia.
    - rewrite nth_error_swapped by lia. unfold SortSpec.transpose.
      rewrite Nat.eqb_refl.
      destruct P1 as [_ O1]. rewrite O1 by lia. exact Hpiv. }
  destruct (Nat.ltb_spec j i) as [Hlt|Hge].
  - assert (i = j + 1) by lia. subst i.
    apply Hfinal; auto using range_perm_refl; lia.
  - assert (Hne : i < j).
    { destruct (Nat.eq_dec i j) as [E|]; [|lia].
      rewrite E in U4. rewrite U4 in D4 by lia.
      specialize (D4 ltac:(lia)). discriminate. }
    run (@Swap_run i j s0 ltac:(lia) ltac:(lia)).
    destruct (@partition_loop_run (b - a) a b (i + 1) (j - 1)
                (swapped i j s0))
      as (j2 & s2 & R3 & P3 & B1 & B2 & S3); try lia.
    { rewrite swapped_length. lia. }
    { apply split_at_swapped; try lia;
        [exact Hsplit|apply U4; lia|apply D4; lia]. }
    run R3.
    apply Hfinal; auto.
    eapply range_perm_trans; [|exact P3].
    apply range_perm_swapped; lia.
Qed.


Lemma scan_up_eq_run fuel a i j (s : list T) :
  a < length s -> j < length s -> j + 1 <= fuel + i ->
  exists i',
    scan_up_eq less fuel a i j s = Ok (i', s)
    /\ i <= i' /\ (i <= j + 1 -> i' <= j + 1)
    /\ (forall k, i <= k -> k < i' -> lessAt s a k = false)
    /\ (i' <= j -> lessAt s a i' = true).
Proof.
  revert i. induction fuel as [|fuel IH]; intros i Ha Hj Hf; simpl.
  - destruct (Nat.leb_spec i j); [lia|].
    exists i. repeat split; auto; lia.
  - destruct (Nat.leb_spec i j) as [Hij|Hij].
    + run (@Less_run a i s Ha ltac:(lia)).
      destruct (lessAt s a i) eqn:Hc; cbn [negb].
      * exists i. repeat split; auto; lia.
      * destruct (IH (i + 1)) as (i' & Hrun & H1 & H2 & H3 & H4);
          try lia.
        exists i'. split; [exact Hrun|]. repeat split; try lia; auto.
        intros k Hk1 Hk2.
        destruct (Nat.eq_dec k i) as [->|]; [exact Hc|apply H3; lia].
    + exists i. repeat split; auto; lia.
Qed.

Lemma scan_down_eq_run fuel a i j (s : list T) :
  a < length s -> j < length s -> 1 <= i -> j + 1 <= fuel + i ->
  exists j',
    scan_down_eq less fuel a i j s = Ok (j', s)
    /\ j' <= j /\ (i <= j + 1 -> i <= j' + 1)
    /\ (forall k, j' < k -> k <= j -> lessAt s a k = true)
    /\ (i <= j' -> lessAt s a j' = false).
Proof.
  revert j. induction fuel as [|fuel IH]; intros j Ha Hj Hi Hf; simpl.
  - destruct (Nat.leb_spec i j); [lia|].
    exists j. repeat split; auto; lia.
  - destruct (Nat.leb_spec i j) as [Hij|Hij].
    + run (@Less_run a j s Ha ltac:(lia)).
      destruct (lessAt s a j) eqn:Hc.
      * destruct (IH (j - 1)) as (j' & Hrun & H1 & H2 & H3 & H4);
          try lia.
        exists j'. split; [exact Hrun|]. repeat split; try lia; auto.
        intros k Hk1 Hk2.
        destruct (Nat.eq_dec k j) as [->|]; [exact Hc|apply H3; lia].
      * exists j. repeat split; auto; lia.
    + exists j. repeat split; auto; lia.
Qed.


Lemma split_eq_swapped a b i j (s : list T) :
  a < i -> i < j -> j < b -> b <= length s ->
  split_eq a b i j s ->
  lessAt s a i = true -> lessAt s a j = false ->
  split_eq a b (i + 1) (j - 1) (swapped i j s).
Proof.
  intros Hai Hij Hjb Hb [Hl Hr] Hi Hj. split; intros k Hk1 Hk2.
  - rewrite lessAt_swapped by lia. unfold SortSpec.transpose.
    destruct (Nat.eqb_spec k i), (Nat.eqb_spec k j),
      (Nat.eqb_spec a i), (Nat.eqb_spec a j); subst; try lia; auto.
    apply Hl; lia.
  - rewrite lessAt_swapped by lia. unfold SortSpec.transpose.
    destruct (Nat.eqb_spec k i), (Nat.eqb_spec k j),
      (Nat.eqb_spec a i), (Nat.eqb_spec a j); subst; try lia; auto.
    apply Hr; lia.
Qed.

Lemma partitionEqual_loop_run fuel a b i j (s : list T) :
  a < i -> i <= j + 1 -> j < b -> b <= length s -> j + 2 <= fuel + i ->
  split_eq a b i j s ->
  exists mid s',
    partitionEqual_loop less fuel a i j s = Ok (mid, s')
    /\ range_perm (a + 1) b s s'
    /\ a < mid /\ mid <= b
    /\ split_eq a b mid (mid - 1) s'.
Proof.
  revert i j s. induction fuel as [|fuel IH];
    intros i j s Hai Hij Hjb Hb Hf Hsplit; [lia|].
  cbn [partitionEqual_loop].
  destruct (@scan_up_eq_run (j + 1 - i) a i j s)
    as (i' & R1 & U1 & U2 & U3 & U4); try lia.
  run R1.
  destruct (@scan_down_eq_run (j + 1 - i') a i' j s)
    as (j' & R2 & D1 & D2 & D3 & D4); try lia.
  run R2.
  assert (Hsplit' : split_eq a b i' j' s).
  { destruct Hsplit as [Hl Hr]. split; intros k Hk1 Hk2.
    - destruct (Nat.lt_ge_cases k i); [apply Hl|apply U3]; lia.
    - destruct (Nat.lt_ge_cases j k); [apply Hr|apply D3]; lia. }
  destruct (Nat.ltb_spec j' i') as [Hlt|Hge].
  - exists i', s. split; [reflexivity|].
    split; [apply range_perm_refl|].
    assert (j' = i' - 1) by lia. subst j'.
    repeat split; try lia; apply Hsplit'.
  - assert (Hne : i' < j').
    { destruct (Nat.eq_dec i' j') as [E|]; [|lia].
      rewrite E in U4. rewrite U4 in D4 by lia.
      specialize (D4 ltac:(lia)). discriminate. }
    run (@Swap_run i' j' s ltac:(lia) ltac:(lia)).
    destruct (IH (i' + 1) (j' - 1) (swapped i' j' s))
      as (m & s2 & R3 & P3 & B1 & B2 & S3); try lia.
    { rewrite swapped_length. lia. }
    { apply split_eq_swapped; try lia;
        [exact Hsplit'|apply U4; lia|apply D4; lia]. }
    exists m, s2. split; [exact R3|].
    split; [|auto].
    eapply range_perm_trans; [|exact P3].
    apply range_perm_swapped; lia.
Qed.

Lemma partitionEqual_run a b pivot (s : list T) :
  a <= pivot -> pivot < b -> b <= length s ->
  exists mid s',
    partitionEqual_func less a b pivot s = Ok (mid, s')
    /\ range_perm a b s s'
    /\ a < mid /\ mid <= b
    /\ split_eq a b mid (mid - 1) s'
    /\ nth_error s' a = nth_error s pivot.
Proof.
  intros Hap Hpb Hb. unfold partitionEqual_func.
  run (@Swap_run a pivot s ltac:(lia) ltac:(lia)).
  destruct (@partitionEqual_loop_run (b - a) a b (a + 1) (b - 1)
              (swapped a pivot s))
    as (mid & s' & R & P & B1 & B2 & S); try lia.
  { rewrite swapped_length. lia. }
  { split; intros; lia. }
  exists mid, s'. split; [exact R|].
  split; [|split; [exact B1|split; [exact B2|split; [exact S|]]]].
  - eapply range_perm_trans.
    + apply (@range_perm_swapped a b a pivot s); lia.
    + eapply range_perm_widen; [| |exact P]; lia.
  - destruct P as [_ O]. rewrite O by lia.
    rewrite nth_error_swapped by lia. unfold SortSpec.transpose.
    now rewrite Nat.eqb_refl.
Qed.

(** ** The partial insertion sort *)

Lemma skip_ordered_run fuel i b (s : list T) :
  1 <= i -> b <= length s -> b <= fuel + i ->
  exists i',
    skip_ordered less fuel i b s = Ok (i', s)
    /\ i <= i' /\ (i <= b -> i' <= b)
    /\ (forall k, i <= k -> k < i' -> lessAt s k (k - 1) = false)
    /\ (i' < b -> lessAt s i' (i' - 1) = true).
Proof.
  revert i. induction fuel as [|fuel IH]; intros i Hi Hb Hf; simpl.
  - destruct (Nat.ltb_spec i b); [lia|].
    exists i. repeat split; auto; lia.
  - destruct (Nat.ltb_spec i b) as [Hib|Hib].
    + run (@Less_run i (i - 1) s ltac:(lia) ltac:(lia)).
      destruct (lessAt s i (i - 1)) eqn:Hc; cbn [negb].
      * exists i. repeat split; auto; lia.
      * destruct (IH (i + 1)) as (i' & Hrun & H1 & H2 & H3 & H4);
          try lia.
        exists i'. split; [exact Hrun|]. repeat split; try lia; auto.
        intros k Hk1 Hk2.
        destruct (Nat.eq_dec k i) as [->|]; [exact Hc|apply H3; lia].
    + exists i. repeat split; auto; lia.
Qed.

Lemma shift_left_run j (s : list T) :
  j < length s ->
  exists s',
    shift_left less j s = Ok (tt, s') /\ range_perm 0 (S j) s s'.
Proof.
  revert s. induction j as [|j IH]; intros s Hj; simpl.
  - exists s. auto using range_perm_refl.
  - run (@Less_run (S j) j s ltac:(lia) ltac:(lia)).
    destruct (lessAt s (S j) j); cbn [negb].
    + run (@Swap_run (S j) j s ltac:(lia) ltac:(lia)).
      destruct (IH (swapped (S j) j s)) as (s' & Hrun & Hp).
      { rewrite swapped_length. lia. }
      exists s'. split; [exact Hrun|].
      eapply range_perm_trans.
      * apply (@range_perm_swapped 0 (S (S j)) (S j) j s); lia.
      * eapply range_perm_widen; [| |exact Hp]; lia.
    + exists s. auto using range_perm_refl.
Qed.

Lemma shift_right_run fuel j b (s : list T) :
  1 <= j -> b <= length s -> b <= fuel + j ->
  exists s',
    shift_right less fuel j b s = Ok (tt, s')
    /\ range_perm (j - 1) b s s'.
Proof.
  revert j s. induction fuel as [|fuel IH]; intros j s Hj Hb Hf; simpl.
  - destruct (Nat.ltb_spec j b); [lia|].
    exists s. auto using range_perm_refl.
  - destruct (Nat.ltb_spec j b) as [Hjb|Hjb].
    + run (@Less_run j (j - 1) s ltac:(lia) ltac:(lia)).
      destruct (lessAt s j (j - 1)); cbn [negb].
      * run (@Swap_run j (j - 1) s ltac:(lia) ltac:(lia)).
        destruct (IH (j + 1) (swapped j (j - 1) s)) as (s' & Hrun & Hp);
          try lia.
        { rewrite swapped_length. lia. }
        exists s'. split; [exact Hrun|].
        eapply range_perm_trans.
        -- apply (@range_perm_swapped (j - 1) b j (j - 1) s); lia.
        -- eapply range_perm_widen; [| |exact Hp]; lia.
      * exists s. auto using range_perm_refl.
    + exists s. auto using range_perm_refl.
Qed.

Lemma partialInsertionSort_steps_run steps a b i (s : list T) :
  1 <= i -> i <= b -> b <= length s ->
  exists r s',
    partialInsertionSort_steps less steps a b i s = Ok (r, s')
    /\ range_perm 0 b s s'.
Proof.
  revert i s. induction steps as [|steps IH]; intros i s Hi Hib Hb.
  - exists false, s. split; [reflexivity|apply range_perm_refl].
  - cbn [partialInsertionSort_steps].
    destruct (@skip_ordered_run (b - i) i b s)
      as (i' & R1 & U1 & U2 & _); try lia.
    run R1.
    destruct (Nat.eqb_spec i' b) as [E|E].
    { exists true, s. split; [reflexivity|apply range_perm_refl]. }
    destruct (b - a <? 50).
    { exists false, s. split; [reflexivity|apply range_perm_refl]. }
    run (@Swap_run i' (i' - 1) s ltac:(lia) ltac:(lia)).
    set (s1 := swapped i' (i' - 1) s).
    assert (P1 : range_perm 0 b s s1)
      by (apply range_perm_swapped; lia).
    assert (exists s2,
      (if 2 <=? i' - a then shift_left less (i' - 1) else ret tt) s1
      = Ok (tt, s2) /\ range_perm 0 b s1 s2) as (s2 & R2 & P2).
    { destruct (2 <=? i' - a).
      - destruct (@shift_left_run (i' - 1) s1) as (s2 & R2 & P2).
        { unfold s1. rewrite swapped_length. lia. }
        exists s2. split; [exact R2|].
        eapply range_perm_widen; [| |exact P2]; lia.
      - exists s1. split; [reflexivity|apply range_perm_refl]. }
    run R2.
    assert (Hlen2 : length s2 = length s).
    { apply range_perm_length in P1, P2. congruence. }
    assert (exists s3,
      (if 2 <=? b - i' then shift_right less (b - (i' + 1)) (i' + 1) b
       else ret tt) s2
      = Ok (tt, s3) /\ range_perm 0 b s2 s3) as (s3 & R3 & P3).
    { destruct (2 <=? b - i').
      - destruct (@shift_right_run (b - (i' + 1)) (i' + 1) b s2)
          as (s3 & R3 & P3); try lia.
        exists s3. split; [exact R3|].
        eapply range_perm_widen; [| |exact P3]; lia.
      - exists s2. split; [reflexivity|apply range_perm_refl]. }
    run R3.
    destruct (IH i' s3) as (r & s4 & R4 & P4); try lia.
    { apply range_perm_length in P3. lia. }
    exists r, s4. split; [exact R4|].
    eauto using range_perm_trans.
Qed.

Lemma partialInsertionSort_run a b (s : list T) :
  a < b -> b <= length s ->
  exists r s',
    partialInsertionSort_func less a b s = Ok (r, s')
    /\ range_perm 0 b s s'.
Proof.
  intros Hab Hb. unfold partialInsertionSort_func.
  apply partialInsertionSort_steps_run; lia.
Qed.


(** ** The sort *)

Lemma pdqsort_loop_run fuel a b limit wasBalanced wasPartitioned
  (s : list T) :
  a <= b -> b <= length s -> b - a <= fuel ->
  exists s',
    pdqsort_loop less fuel a b limit wasBalanced wasPartitioned s
    = Ok (tt, s')
    /\ Permutation s s'
    /\ (b - a <= 12 -> SortSpec.ties_kept less s s').
Proof.
  revert a b limit wasBalanced wasPartitioned s.
  induction fuel as [|fuel IH];
    intros a b limit wasBalanced wasPartitioned s Hab Hb Hfuel.
  - cbn [pdqsort_loop].
    destruct (Nat.leb_spec (b - a) 12); [|lia].
    destruct (@insertionSort_run a b s Hb) as (s' & R & P & K).
    exists s'. split; [exact R|]. split; [apply P|auto].
  - cbn [pdqsort_loop].
    destruct (Nat.leb_spec (b - a) 12) as [Hlen|Hlen].
    { destruct (@insertionSort_run a b s Hb) as (s' & R & P & K).
      exists s'. split; [exact R|]. split; [apply P|auto]. }
    destruct (limit =? 0).
    { destruct (@heapSort_run a b s Hab Hb) as (s' & R & P).
      exists s'. split; [exact R|]. split; [apply P|lia]. }
    assert (exists limit' s1,
      (if negb wasBalanced
       then breakPatterns_func a b ;;; ret (limit - 1)
       else ret limit)%go s = Ok (limit', s1)
      /\ Permutation s s1) as (limit' & s1 & R1 & P1).
    { destruct (negb wasBalanced).
      - destruct (@breakPatterns_run a b s Hab Hb) as (s1 & R & P).
        run R. do 2 eexists. split; [reflexivity|apply P].
      - do 2 eexists. split; [reflexivity|apply Permutation_refl]. }
    run R1.
    assert (L1 : length s1 = length s)
      by (symmetry; now apply Permutation_length).
    destruct (@choosePivot_run a b s1 ltac:(lia) ltac:(lia))
      as (pivot & hint & R2 & Hpiv).
    run R2.
    assert (exists pivot' hint' s2,
      (if is_decreasing hint
       then reverseRange_func a b ;;;
            ret (b - 1 - (pivot - a), increasingHint)
       else ret (pivot, hint))%go s1 = Ok ((pivot', hint'), s2)
      /\ Permutation s1 s2 /\ a <= pivot' < b)
      as (pivot' & hint' & s2 & R3 & P3 & Hpiv').
    { destruct (is_decreasing hint).
      - destruct (@reverseRange_run a b s1 ltac:(lia) ltac:(lia))
          as (s2 & R & P).
        run R. do 3 eexists. split; [reflexivity|].
        split; [apply P|lia].
      - do 3 eexists. split; [reflexivity|].
        split; [apply Permutation_refl|lia]. }
    run R3.
    assert (L2 : length s2 = length s)
      by (rewrite <- L1; symmetry; now apply Permutation_length).
    assert (exists sorted s3,
      (if wasBalanced && wasPartitioned && is_increasing hint'
       then partialInsertionSort_func less a b
       else ret false) s2 = Ok (sorted, s3)
      /\ Permutation s2 s3) as (sorted & s3 & R4 & P4).
    { destruct (wasBalanced && wasPartitioned && is_increasing hint').
      - destruct (@partialInsertionSort_run a b s2 ltac:(lia) ltac:(lia))
          as (r & s3 & R & P).
        do 2 eexists. split; [exact R|apply P].
      - do 2 eexists. split; [reflexivity|apply Permutation_refl]. }
    run R4.
    assert (L3 : length s3 = length s)
      by (rewrite <- L2; symmetry; now apply Permutation_length).
    assert (P03 : Permutation s s3) by eauto using perm_trans.
    destruct sorted.
    { exists s3. split; [reflexivity|]. split; [exact P03|lia]. }
    assert (exists dup,
      (if 0 <? a then c <- Less (a - 1) pivot' ;; ret (negb c)
       else ret false)%go s3 = Ok (dup, s3)) as (dup & R5).
    { destruct (Nat.ltb_spec 0 a).
      - run (@Less_run (a - 1) pivot' s3 ltac:(lia) ltac:(lia)).
        eexists. reflexivity.
      - eexists. reflexivity. }
    run R5.
    destruct dup.
    + destruct (@partitionEqual_run a b pivot' s3)
        as (mid & s4 & R6 & P6 & B1 & B2 & _); try lia.
      run R6.
      destruct (IH mid b limit' wasBalanced wasPartitioned s4)
        as (s5 & R7 & P7 & _); try lia.
      { apply range_perm_length in P6. lia. }
      exists s5. split; [exact R7|]. split; [|lia].
      eapply perm_trans; [exact P03|].
      eapply perm_trans; [apply P6|exact P7].
    + destruct (@partition_run a b pivot' s3)
        as (mid & already & s4 & R6 & P6 & B1 & B2 & _); try lia.
      run R6.
      assert (L4 : length s4 = length s)
        by (apply range_perm_length in P6; lia).
      destruct (Nat.ltb_spec (mid - a) (b - mid)).
      * destruct (IH a mid limit' true true s4)
          as (s5 & R7 & P7 & _); try lia.
        run R7.
        destruct (IH (mid + 1) b limit' ((b - a) / 8 <=? mid - a)
                    already s5)
          as (s6 & R8 & P8 & _); try lia.
        { apply Permutation_length in P7. lia. }
        exists s6. split; [exact R8|]. split; [|lia].
        eapply perm_trans; [exact P03|].
        eapply perm_trans; [apply P6|].
        eapply perm_trans; eauto.
      * destruct (IH (mid + 1) b limit' true true s4)
          as (s5 & R7 & P7 & _); try lia.
        run R7.
        destruct (IH a mid limit' ((b - a) / 8 <=? b - mid)
                    already s5)
          as (s6 & R8 & P8 & _); try lia.
        { apply Permutation_length in P7. lia. }
        exists s6. split; [exact R8|]. split; [|lia].
        eapply perm_trans; [exact P03|].
        eapply perm_trans; [apply P6|].
        eapply perm_trans; eauto.
Qed.

(** [sort.Slice] returns for every [less], with the elements it was
    given; it keeps the ties of a slice of at most 12 elements. *)
Lemma Slice_run (x : list T) :
  exists x',
    Slice less x = Ok x'
    /\ Permutation x x'
    /\ (length x <= 12 -> SortSpec.ties_kept less x x').
Proof.
  unfold Slice, pdqsort_func.
  destruct (@pdqsort_loop_run (S (length x - 0)) 0 (length x)
              (bits_Len (length x)) true true x)
    as (x' & R & P & K); try lia.
  rewrite R. exists x'. split; [reflexivity|]. split; [exact P|].
  intros H. apply K. lia.
Qed.

End Any.
End SortAny.

(* ================================================================== *)
(** * Properties of the parser *)

Section Parser.
Local Open Scope list_scope.

Lemma index_field (fields : list string) (i : nat) :
  (i < length fields)%nat -> index fields i = Ok (field fields i).
Proof.
  intros H. unfold index, field.
  destruct (nth_error fields i) as [x|] eqn:E.
  - now rewrite (nth_error_nth _ _ _ E).
  - apply nth_error_None in E. lia.
Qed.

(** A turn of either loop panics never: it appends the sample of a row
    that parses and skips any other row. *)
Lemma parse_ps_line_spec (line : string) :
  parse_ps_line line
  = Ok (if parses (ps_columns line)
        then Some (sample (ps_columns line)) else None).
Proof.
  unfold parse_ps_line, parses, sample, ps_columns;
    cbn [enough_fields cpu_column pid_column name_column].
  set (fields := strings.Fields line).
  destruct (Nat.ltb_spec (length fields) 11) as [Hlt|Hge].
  - destruct (Nat.leb_spec 11 (length fields)); [lia|]. reflexivity.
  - destruct (Nat.leb_spec 11 (length fields)); [|lia].
    rewrite !index_field by lia. cbn [bindR andb].
    destruct (strconv.ParseFloat (field fields 2)); [|reflexivity].
    cbn [bindR is_some andb].
    destruct (strconv.Atoi (field fields 1)); reflexivity.
Qed.

Lemma parse_tasklist_line_spec (line : string) :
  parse_tasklist_line line
  = Ok (if parses (tasklist_columns line)
        then Some (sample (tasklist_columns line)) else None).
Proof.
  unfold parse_tasklist_line, parses, sample, tasklist_columns;
    cbn [enough_fields cpu_column pid_column name_column].
  set (fields := strings.Split line ",").
  destruct (Nat.ltb_spec (length fields) 8) as [Hlt|Hge].
  - destruct (Nat.leb_spec 8 (length fields)); [lia|]. reflexivity.
  - destruct (Nat.leb_spec 8 (length fields)); [|lia].
    rewrite !index_field by lia. cbn [bindR andb].
    destruct (strconv.ParseFloat _); [|reflexivity].
    cbn [bindR is_some andb].
    destruct (strconv.Atoi _); reflexivity.
Qed.

Lemma parse_lines_spec parse (columns : string -> Columns) lines acc :
  (forall line,
     parse line
     = Ok (if parses (columns line) then Some (sample (columns line))
           else None)) ->
  parse_lines parse lines acc
  = Ok (acc ++ map sample (filter parses (map columns lines))).
Proof.
  intros Hparse. revert acc.
  induction lines as [|line lines IH]; intros acc; simpl.
  - now rewrite app_nil_r.
  - rewrite Hparse. destruct (parses (columns line)); simpl.
    + rewrite IH, <- app_assoc. reflexivity.
    + apply IH.
Qed.

Lemma Split_from_not_nil cur s sep : strings.Split_from cur s sep <> [].
Proof.
  revert cur. induction s as [|c s IH]; intros cur; simpl.
  - discriminate.
  - destruct (Ascii.eqb c sep); [discriminate|apply IH].
Qed.

(** The loops of [parseProcessOutput] collect exactly the samples of
    the rows that parse. *)
Lemma collect_spec (output os : string) :
  collect output os = Ok (parsed_samples output os).
Proof.
  unfold collect, parsed_samples, data_rows, is_unix, is_windows.
  destruct (String.eqb os "darwin" || String.eqb os "linux").
  - unfold slice_from.
    pose proof (@Split_from_not_nil "" output "010") as Hne.
    fold (strings.Split output "010") in Hne.
    destruct (strings.Split output "010") as [|header rows];
      [congruence|].
    cbn [length Nat.leb skipn bindR tl].
    now rewrite (parse_lines_spec _ ps_columns _ _ parse_ps_line_spec).
  - destruct (String.eqb os "windows"); [|reflexivity].
    now rewrite (parse_lines_spec _ tasklist_columns _ _
                   parse_tasklist_line_spec).
Qed.

(** [parseProcessOutput] returns, with a nil error, the first ten of
    a rearrangement of the samples of the rows that parse. *)
Lemma parseProcessOutput_spec (output os : string) :
  exists ranked,
    sort.Slice cpu_greater (parsed_samples output os) = Ok ranked
    /\ Permutation (parsed_samples output os) ranked
    /\ parseProcessOutput output os = Ok (truncate10 ranked, None).
Proof.
  destruct (SortAny.Slice_run cpu_greater (parsed_samples output os))
    as (ranked & Hrun & Hperm & _).
  exists ranked. split; [exact Hrun|]. split; [exact Hperm|].
  unfold parseProcessOutput. rewrite collect_spec. cbn [bindR].
  rewrite Hrun. reflexivity.
Qed.

Lemma truncate10_incl {A} (l : list A) (x : A) :
  In x (truncate10 l) -> In x l.
Proof.
  unfold truncate10. destruct (10 <? length l)%nat; [|auto].
  rewrite <- (firstn_skipn 10 l) at 2. intros H.
  apply in_or_app. now left.
Qed.

Lemma truncate10_short {A} (l : list A) :
  (length l <= 10)%nat -> truncate10 l = l.
Proof.
  intros H. unfold truncate10.
  destruct (Nat.ltb_spec 10 (length l)); [lia|reflexivity].
Qed.

Lemma truncate10_length {A} (l : list A) :
  (length (truncate10 l) <= 10)%nat.
Proof.
  unfold truncate10.
  destruct (Nat.ltb_spec 10 (length l)); [|lia].
  rewrite length_firstn. lia.
Qed.


(** ** C6: rows that fail to parse *)

(** C6, the claim refuted.  After the header come eleven rows that all
    parse; the list returned has ten samples, and the sample of the
    eleventh row, which did not fail to parse, is not among them. *)
Lemma a_row_that_parses_can_be_left_out :
  let row := ps_columns (ps_row "1" "1.0" "c1") in
  In row (data_rows eleven_rows "linux")
  /\ parses row = true
  /\ exists l,
      parseProcessOutput eleven_rows "linux" = Ok (l, None)
      /\ length l = 10%nat
      /\ ~ In (sample row) l.
Proof.
  cbv zeta. split; [|split].
  - vm_compute. do 10 right. left. reflexivity.
  - vm_compute. reflexivity.
  - eexists. split; [vm_compute; reflexivity|]. split; [reflexivity|].
    vm_compute. intros H.
    repeat (destruct H as [H|H]; [discriminate H|]). exact H.
Qed.

(** C6, as the code has it.  Whatever the output, the acquisition
    succeeds: rows that fail to parse (too few fields, a CPU value or a
    PID that is not a number) are skipped, the list that is ranked
    holds exactly the samples of the other rows, and the list returned
    is the first ten of it once ranked, so all of it when at most ten
    rows parse. *)
Theorem rows_that_fail_to_parse_are_skipped (output os : string) :
  exists ranked,
    parseProcessOutput output os = Ok (truncate10 ranked, None)
    /\ Permutation (map sample (filter parses (data_rows output os)))
         ranked
    /\ ((length (filter parses (data_rows output os)) <= 10)%nat ->
        truncate10 ranked = ranked).
Proof.
  destruct (parseProcessOutput_spec output os)
    as (ranked & _ & Hperm & Hrun).
  exists ranked. split; [exact Hrun|]. split; [exact Hperm|].
  intros Hlen. apply truncate10_short.
  rewrite <- (Permutation_length Hperm). unfold parsed_samples.
  now rewrite length_map.
Qed.

(** The example of the spec: a row of two fields among rows that
    parse. *)
Example a_row_of_two_fields_is_dropped :
  parseProcessOutput
    (ps_output [ps_row "7" "1.5" "init"; "bad row"; ps_row "8" "2.5" "sh"])
    "linux"
  = Ok ([{| PID := 8; CPU := 2.5; Name := "sh" |};
         {| PID := 7; CPU := 1.5; Name := "init" |}], None).
Proof. vm_compute. reflexivity. Qed.

(** ** C9: the sign of the CPU values *)

(** C9, the claim refuted.  A row whose CPU column reads -1.0 parses,
    and its sample is returned with a CPU value of -1. *)
Lemma a_negative_cpu_value_is_returned :
  parseProcessOutput (ps_output [ps_row "7" "-1.0" "init"]) "linux"
  = Ok ([{| PID := 7; CPU := (-1)%float; Name := "init" |}], None)
  /\ fle 0 (-1)%float = false.
Proof. split; vm_compute; reflexivity. Qed.

(** Every sample returned is the sample of a row that parses. *)
Lemma returned_samples_come_from_rows (output os : string) :
  exists l,
    parseProcessOutput output os = Ok (l, None)
    /\ forall p, In p l ->
         exists row,
           In row (data_rows output os) /\ parses row = true
           /\ p = sample row.
Proof.
  destruct (parseProcessOutput_spec output os)
    as (ranked & _ & Hperm & Hrun).
  exists (truncate10 ranked). split; [exact Hrun|].
  intros p Hp. apply truncate10_incl in Hp.
  apply (Permutation_in _ (Permutation_sym Hperm)) in Hp.
  unfold parsed_samples in Hp. apply in_map_iff in Hp.
  destruct Hp as (row & <- & Hrow). apply filter_In in Hrow.
  exists row. tauto.
Qed.

(** C9, as the code has it.  The parser checks no sign: every sample
    returned is the sample of a row of the input that parses, with
    the PID, the name and the CPU value that the columns of that row
    denote, whatever the sign of that value.  So every sample returned
    has a non-negative CPU value for every input text in which no CPU
    column denotes a negative number or NaN. *)
Theorem cpu_values_are_those_of_the_rows (output os : string) :
  exists l,
    parseProcessOutput output os = Ok (l, None)
    /\ (forall p, In p l ->
          exists row,
            In row (data_rows output os)
            /\ enough_fields row = true
            /\ strconv.Atoi (pid_column row) = Some (PID p)
            /\ cpu_value row = Some (CPU p)
            /\ name_column row = Name p)
    /\ ((forall row v,
           In row (data_rows output os) -> cpu_value row = Some v ->
           fle 0 v = true) ->
        forall p, In p l -> fle 0 (CPU p) = true).
Proof.
  destruct (returned_samples_come_from_rows output os) as (l & Hrun & Hl).
  exists l. split; [exact Hrun|].
  assert (Hrows : forall p, In p l ->
            exists row,
              In row (data_rows output os)
              /\ enough_fields row = true
              /\ strconv.Atoi (pid_column row) = Some (PID p)
              /\ cpu_value row = Some (CPU p)
              /\ name_column row = Name p).
  { intros p Hp. destruct (Hl p Hp) as (row & Hin & Hparses & ->).
    exists row. split; [exact Hin|].
    unfold parses in Hparses.
    apply andb_prop in Hparses. destruct Hparses as [Hparses Hpid].
    apply andb_prop in Hparses. destruct Hparses as [Hlen Hcpu].
    unfold cpu_value, sample; cbn [PID CPU Name].
    destruct (strconv.ParseFloat (cpu_column row)); [|discriminate Hcpu].
    destruct (strconv.Atoi (pid_column row)); [|discriminate Hpid].
    auto. }
  split; [exact Hrows|].
  intros Hsign p Hp.
  destruct (Hrows p Hp) as (row & Hin & _ & _ & Hv & _).
  exact (Hsign row (CPU p) Hin Hv).
Qed.

(** A row whose CPU column reads 1.5. *)
Lemma cpu_values_are_those_of_the_rows_witness :
  exists l,
    parseProcessOutput (ps_output [ps_row "7" "1.5" "init"]) "linux"
    = Ok (l, None)
    /\ (forall p, In p l ->
          exists row,
            In row (data_rows (ps_output [ps_row "7" "1.5" "init"]) "linux")
            /\ enough_fields row = true
            /\ strconv.Atoi (pid_column row) = Some (PID p)
            /\ cpu_value row = Some (CPU p)
            /\ name_column row = Name p)
    /\ forall p, In p l -> fle 0 (CPU p) = true.
Proof.
  destruct (@cpu_values_are_those_of_the_rows
              (ps_output [ps_row "7" "1.5" "init"]) "linux")
    as (l & Hrun & Hrows & Hsign).
  exists l. split; [exact Hrun|]. split; [exact Hrows|].
  apply Hsign.
  intros row v Hin. vm_compute in Hin.
  destruct Hin as [<-|[]]. vm_compute. intros Hv.
  injection Hv as <-. reflexivity.
Defined.

(** ** C10: parsing returns, and returns no error *)

Lemma unsupported_has_no_rows (output os : string) :
  supported os = false -> parsed_samples output os = [].
Proof.
  unfold supported, parsed_samples, data_rows.
  destruct (is_unix os); [discriminate|].
  destruct (is_windows os); [discriminate|]. reflexivity.
Qed.

(** C10, the claim refuted in its last part.  On an operating system
    that is none of darwin, linux and windows, [getTopCPUProcesses]
    returns an error although no command was located or run (nothing
    was done to the outside world) and although parsing, had it been
    called, would have returned no error. *)
Lemma an_error_needs_no_command :
  (exists e,
     CommandRanker.getTopCPUProcesses freebsd_host initial
     = Ok (([], Some e), initial))
  /\ log initial = []
  /\ forall output,
       exists l,
         parseProcessOutput output (runtime_GOOS freebsd_host)
         = Ok (l, None).
Proof.
  split; [eexists; reflexivity|]. split; [reflexivity|].
  intros output.
  destruct (parseProcessOutput_spec output (runtime_GOOS freebsd_host))
    as (ranked & _ & _ & Hrun).
  eauto.
Qed.

(** C10, as the code has it.  [parseProcessOutput] returns a list and a
    nil error for every input string and every OS tag, the empty list
    for a tag that is none of darwin, linux and windows.
    [getTopCPUProcesses] always returns, and when it returns an error,
    either the OS is not supported and no command was run, or the
    command was run and failed: parsing is never the origin of an
    error. *)
Theorem parsing_returns_no_error :
  (forall output os,
     exists l,
       parseProcessOutput output os = Ok (l, None)
       /\ (supported os = false -> l = []))
  /\ (forall env st,
        exists l err st',
          CommandRanker.getTopCPUProcesses env st = Ok ((l, err), st')
          /\ forall e, err = Some e ->
               supported (runtime_GOOS env) = false /\ st' = st
               \/ exists name args output e0,
                    log st' = log st ++ [EvExec name args]
                    /\ cmd_Output env name args = (output, Some e0)).
Proof.
  split.
  - intros output os.
    destruct (parseProcessOutput_spec output os)
      as (ranked & _ & Hperm & Hrun).
    exists (truncate10 ranked). split; [exact Hrun|].
    intros Hos. rewrite (unsupported_has_no_rows output os Hos) in Hperm.
    apply Permutation_nil in Hperm. now subst ranked.
  - intros env st.
    assert (Hcmd : forall name args,
      exists l err st',
        CommandRanker.run_and_parse env name args st = Ok ((l, err), st')
        /\ forall e, err = Some e ->
             exists name' args' output e0,
               log st' = log st ++ [EvExec name' args']
               /\ cmd_Output env name' args' = (output, Some e0)).
    { intros name args.
      unfold CommandRanker.run_and_parse, bind, call_cmd_Output, bind,
        emit, ret.
      destruct (cmd_Output env name args) as [output [e0|]] eqn:E.
      - do 3 eexists. split; [reflexivity|].
        intros e _. exists name, args, output, e0. auto.
      - destruct (parseProcessOutput_spec output (runtime_GOOS env))
          as (ranked & _ & _ & Hrun).
        unfold lift. rewrite Hrun.
        do 3 eexists. split; [reflexivity|]. discriminate. }
    unfold CommandRanker.getTopCPUProcesses, supported, is_unix,
      is_windows.
    destruct (String.eqb (runtime_GOOS env) "darwin"
              || String.eqb (runtime_GOOS env) "linux").
    + destruct (Hcmd "ps" ["aux"; "--sort=-pcpu"])
        as (l & err & st' & Hrun & Herr).
      exists l, err, st'. split; [exact Hrun|].
      intros e He. right. eauto.
    + destruct (String.eqb (runtime_GOOS env) "windows").
      * destruct (Hcmd "tasklist" ["/v"; "/fo"; "csv"; "/nh"; "/sort:cpu"])
          as (l & err & st' & Hrun & Herr).
        exists l, err, st'. split; [exact Hrun|].
        intros e He. right. eauto.
      * do 3 eexists. split; [reflexivity|].
        intros e _. left. auto.
Qed.

End Parser.

(* ================================================================== *)
(** * [sort.Slice] with a [less] that orders the elements: it sorts *)

Module SortOrdered.
Import sort.
Import SortAny.
Section Ordered.
Local Open Scope nat_scope.
Local Open Scope list_scope.
Variable T : Type.
Variable less : T -> T -> bool.

(** The elements that [less] orders: on them no element is less than
    itself, two elements are not each less than the other, and "not
    less than" is transitive. *)
Variable good : T -> Prop.
Hypothesis less_irrefl : forall x, good x -> less x x = false.
Hypothesis less_asym :
  forall x y, good x -> good y -> less x y = true -> less y x = false.
Hypothesis not_less_trans :
  forall x y z, good x -> good y -> good z ->
    less y x = false -> less z y = false -> less z x = false.

Local Abbreviation lessAt := (SortSpec.lessAt less).
Local Abbreviation swapped := (@SortSpec.swapped T).
Local Abbreviation range_perm := (@SortSpec.range_perm T).
Local Abbreviation sorted_range := (SortSpec.sorted_range less).
Local Abbreviation transpose := SortSpec.transpose.
Local Abbreviation split_at := (SortSpec.split_at less).
Local Abbreviation partitioned := (SortSpec.partitioned less).
Local Abbreviation split_eq := (SortSpec.split_eq less).
Local Abbreviation segment := (@SortSpec.segment T).
Local Abbreviation sorted_but := (SortSpec.sorted_but less).
Local Abbreviation child_of := SortSpec.child_of.
Local Abbreviation heap := (SortSpec.heap less).
Local Abbreviation heap_but := (SortSpec.heap_but less).
Local Abbreviation below := (SortSpec.below less).
Local Abbreviation bounded_below := (SortSpec.bounded_below less).

Ltac run H :=
  unfold bind at 1;
  let H' := fresh in
  pose proof H as H'; unfold sort.SortM in H';
  rewrite H'; clear H'; cbv beta iota.

(** ** The order, at the places of a slice *)

Lemma good_at (s : list T) i x :
  Forall good s -> nth_error s i = Some x -> good x.
Proof.
  intros Hg Hx. rewrite Forall_forall in Hg.
  eapply Hg, nth_error_In, Hx.
Qed.

Lemma at_irrefl (s : list T) i : Forall good s -> lessAt s i i = false.
Proof.
  intros Hg. unfold SortSpec.lessAt.
  destruct (nth_error s i) as [x|] eqn:Hx; [|reflexivity].
  eauto using good_at.
Qed.

Lemma at_asym (s : list T) i j :
  Forall good s -> lessAt s i j = true -> lessAt s j i = false.
Proof.
  intros Hg. unfold SortSpec.lessAt.
  destruct (nth_error s i) as [x|] eqn:Hx; [|discriminate].
  destruct (nth_error s j) as [y|] eqn:Hy; [|discriminate].
  eauto using good_at.
Qed.

Lemma at_trans (s : list T) i j k :
  Forall good s -> j < length s ->
  lessAt s j i = false -> lessAt s k j = false -> lessAt s k i = false.
Proof.
  intros Hg Hj. unfold SortSpec.lessAt.
  destruct (nth_error_in_range s Hj) as [y Hy]. rewrite Hy.
  destruct (nth_error s i) as [x|] eqn:Hx;
    destruct (nth_error s k) as [z|] eqn:Hz; auto.
  eauto using good_at.
Qed.

(** [x < y <= z] leaves [z] not less than [x]. *)
Lemma at_less_trans (s : list T) i j k :
  Forall good s ->
  lessAt s i j = true -> lessAt s k j = false -> lessAt s k i = false.
Proof.
  intros Hg Hij Hkj.
  assert (Hj : j < length s).
  { unfold SortSpec.lessAt in Hij.
    destruct (nth_error s i); [|discriminate].
    destruct (nth_error s j) eqn:E; [|discriminate].
    apply nth_error_Some. congruence. }
  eapply at_trans; eauto using at_asym.
Qed.

(** ** Properties of the elements of a range *)

Lemma firstn_same a (s s' : list T) :
  length s' = length s ->
  (forall k, k < a -> nth_error s' k = nth_error s k) ->
  firstn a s' = firstn a s.
Proof.
  revert s s'. induction a as [|a IH]; intros s s' Hlen Hk; [reflexivity|].
  destruct s as [|x s], s' as [|x' s']; simpl in *; try discriminate;
    auto.
  pose proof (Hk 0 ltac:(lia)) as H0. simpl in H0. injection H0 as ->.
  f_equal. apply IH; [lia|].
  intros k Hlt. apply (Hk (S k)). lia.
Qed.

Lemma skipn_same b (s s' : list T) :
  length s' = length s ->
  (forall k, b <= k -> nth_error s' k = nth_error s k) ->
  skipn b s' = skipn b s.
Proof.
  revert s s'. induction b as [|b IH]; intros s s' Hlen Hk.
  - simpl. apply nth_error_ext. intros k. apply Hk. lia.
  - destruct s as [|x s], s' as [|x' s']; simpl in *; try discriminate;
      auto.
    apply IH; [lia|]. intros k Hle. apply (Hk (S k)). lia.
Qed.


Lemma segment_split a b (s : list T) :
  a <= b ->
  s = firstn a s ++ segment a b s ++ skipn b s.
Proof.
  intros Hab. unfold SortSpec.segment.
  rewrite <- (firstn_skipn a s) at 1. f_equal.
  rewrite <- (firstn_skipn (b - a) (skipn a s)) at 1. f_equal.
  rewrite skipn_skipn. f_equal. lia.
Qed.

Lemma range_perm_segment a b (s s' : list T) :
  a <= b -> range_perm a b s s' ->
  Permutation (segment a b s) (segment a b s').
Proof.
  intros Hab [P O].
  assert (Hlen : length s' = length s)
    by (symmetry; now apply Permutation_length).
  rewrite (segment_split s Hab) in P.
  rewrite (segment_split s' Hab) in P.
  rewrite (@firstn_same a s s' Hlen) in P
    by (intros k Hk; apply O; lia).
  rewrite (@skipn_same b s s' Hlen) in P
    by (intros k Hk; apply O; lia).
  apply Permutation_app_inv_l in P.
  now apply Permutation_app_inv_r in P.
Qed.

Lemma nth_error_segment a b (s : list T) k :
  a <= k -> k < b -> nth_error (segment a b s) (k - a) = nth_error s k.
Proof.
  intros Hak Hkb. unfold SortSpec.segment.
  rewrite nth_error_firstn.
  destruct (Nat.ltb_spec (k - a) (b - a)); [|lia].
  rewrite nth_error_skipn. f_equal. lia.
Qed.

Lemma in_segment a b (s : list T) x :
  In x (segment a b s) <->
  exists k, a <= k /\ k < b /\ nth_error s k = Some x.
Proof.
  split.
  - intros H. apply In_nth_error in H. destruct H as [n Hn].
    assert (Hlt : n < b - a).
    { assert (n < length (segment a b s))
        by (apply nth_error_Some; congruence).
      unfold SortSpec.segment in H. rewrite length_firstn in H. lia. }
    exists (a + n). split; [lia|]. split; [lia|].
    rewrite <- (@nth_error_segment a b s (a + n)) by lia.
    rewrite <- Hn. f_equal. lia.
  - intros (k & H1 & H2 & H3).
    rewrite <- (@nth_error_segment a b s k H1 H2) in H3.
    eapply nth_error_In, H3.
Qed.

(** Rearranging a range keeps what holds of all its elements. *)
Lemma range_perm_all a b (s s' : list T) (P : T -> Prop) :
  a <= b -> range_perm a b s s' ->
  (forall k x, a <= k -> k < b -> nth_error s k = Some x -> P x) ->
  forall k x, a <= k -> k < b -> nth_error s' k = Some x -> P x.
Proof.
  intros Hab Hp HP k x H1 H2 H3.
  assert (Hin : In x (segment a b s')) by (apply in_segment; eauto).
  apply (Permutation_in _ (Permutation_sym (range_perm_segment Hab Hp)))
    in Hin.
  apply in_segment in Hin. destruct Hin as (k' & ? & ? & ?). eauto.
Qed.

(** Rearranging a range keeps how a place outside of it compares with
    every place of the range. *)
Lemma range_perm_lessAt_l a b q v (s s' : list T) :
  a <= b -> b <= length s -> q < a \/ b <= q ->
  range_perm a b s s' ->
  (forall k, a <= k -> k < b -> lessAt s k q = v) ->
  forall k, a <= k -> k < b -> lessAt s' k q = v.
Proof.
  intros Hab Hb Hq Hp Hall k Hk1 Hk2.
  assert (Hlen : length s' = length s) by (eapply range_perm_length; eauto).
  destruct (@nth_error_in_range _ s' k ltac:(lia)) as [x Hx].
  unfold SortSpec.lessAt. rewrite Hx.
  destruct Hp as [Perm Out]. rewrite (Out q Hq).
  destruct (nth_error s q) as [y|] eqn:Hy.
  - apply (@range_perm_all a b s s' (fun x => less x y = v) Hab
             (conj Perm Out)) with (k := k); auto.
    intros k' x' H1 H2 H3. specialize (Hall k' H1 H2).
    unfold SortSpec.lessAt in Hall. now rewrite H3, Hy in Hall.
  - specialize (Hall k Hk1 Hk2). unfold SortSpec.lessAt in Hall.
    rewrite Hy in Hall. now destruct (nth_error s k).
Qed.

Lemma range_perm_lessAt_r a b q v (s s' : list T) :
  a <= b -> b <= length s -> q < a \/ b <= q ->
  range_perm a b s s' ->
  (forall k, a <= k -> k < b -> lessAt s q k = v) ->
  forall k, a <= k -> k < b -> lessAt s' q k = v.
Proof.
  intros Hab Hb Hq Hp Hall k Hk1 Hk2.
  assert (Hlen : length s' = length s) by (eapply range_perm_length; eauto).
  destruct (@nth_error_in_range _ s' k ltac:(lia)) as [x Hx].
  unfold SortSpec.lessAt. rewrite Hx.
  destruct Hp as [Perm Out]. rewrite (Out q Hq).
  destruct (nth_error s q) as [y|] eqn:Hy.
  - apply (@range_perm_all a b s s' (fun x => less y x = v) Hab
             (conj Perm Out)) with (k := k); auto.
    intros k' x' H1 H2 H3. specialize (Hall k' H1 H2).
    unfold SortSpec.lessAt in Hall. now rewrite H3, Hy in Hall.
  - specialize (Hall k Hk1 Hk2). unfold SortSpec.lessAt in Hall.
    now rewrite Hy in Hall.
Qed.

(** Rearranging a range keeps the order of a range apart from it. *)
Lemma sorted_range_outside a b c d (s s' : list T) :
  SortSpec.same_outside a b s s' -> d <= a \/ b <= c ->
  sorted_range c d s -> sorted_range c d s'.
Proof.
  intros Out Hcd Hs p q Hp Hpq Hq.
  unfold SortSpec.lessAt. rewrite !Out by lia. now apply Hs.
Qed.

Lemma range_perm_good a b (s s' : list T) :
  range_perm a b s s' -> Forall good s -> Forall good s'.
Proof.
  intros [P _] Hg. eapply Permutation_Forall; eauto.
Qed.


(** ** Insertion sort *)

(** Cases on whether an index is one of the two of a swap. *)
Ltac swap_cases :=
  unfold SortSpec.transpose;
  repeat match goal with
  | |- context [Nat.eqb ?x ?y] => destruct (Nat.eqb_spec x y); subst
  end; try lia.

Lemma insert_down_sorts a j k (s : list T) :
  Forall good s -> a <= j -> j < k -> k <= length s ->
  sorted_but j a k s ->
  exists s',
    insert_down less a j s = Ok (tt, s')
    /\ range_perm a (S j) s s'
    /\ sorted_range a k s'.
Proof.
  revert s. induction j as [|j IH]; intros s Hg Haj Hjk Hk [H1 H2]; simpl.
  - exists s. split; [reflexivity|]. split; [apply range_perm_refl|].
    intros p q Hp Hpq Hq.
    destruct (Nat.eq_dec p 0) as [->|]; [apply H2|apply H1]; lia.
  - destruct (Nat.ltb_spec a (S j)) as [Ha|Ha].
    + run (@Less_run _ less (S j) j s ltac:(lia) ltac:(lia)).
      destruct (lessAt s (S j) j) eqn:Hc.
      * run (@Swap_run _ (S j) j s ltac:(lia) ltac:(lia)).
        destruct (IH (swapped (S j) j s)) as (s' & Hrun & Hp & Hs);
          try lia.
        { eapply range_perm_good; [|exact Hg].
          apply (@range_perm_swapped _ a k (S j) j s); lia. }
        { rewrite swapped_length. lia. }
        { split.
          - intros p q Hp Hpq Hq Hpj Hqj.
            rewrite lessAt_swapped by lia. swap_cases.
            + apply H1; lia.
            + apply H1; lia.
            + apply H1; lia.
          - intros q Hq1 Hq2.
            rewrite lessAt_swapped by lia. swap_cases.
            + now apply at_asym.
            + apply H2; lia. }
        exists s'. split; [exact Hrun|]. split; [|exact Hs].
        eapply range_perm_trans.
        -- apply (@range_perm_swapped _ a (S (S j)) (S j) j s); lia.
        -- eapply range_perm_widen; [| |exact Hp]; lia.
      * exists s. split; [reflexivity|]. split; [apply range_perm_refl|].
        intros p q Hp Hpq Hq.
        destruct (Nat.eq_dec p (S j)) as [->|Hpj]; [apply H2; lia|].
        destruct (Nat.eq_dec q (S j)) as [->|Hqj]; [|apply H1; lia].
        destruct (Nat.eq_dec p j) as [->|Hpj']; [exact Hc|].
        apply (@at_trans s p j (S j)); auto; try lia.
        apply H1; lia.
    + exists s. split; [reflexivity|]. split; [apply range_perm_refl|].
      intros p q Hp Hpq Hq.
      destruct (Nat.eq_dec p (S j)) as [->|Hpj]; [apply H2; lia|].
      apply H1; lia.
Qed.

Lemma insertions_sort a n : forall i (s : list T),
  Forall good s -> a < i -> i + n <= length s ->
  sorted_range a i s ->
  exists s',
    for_each (seq i n) (fun i => insert_down less a i) s = Ok (tt, s')
    /\ range_perm a (i + n) s s'
    /\ sorted_range a (i + n) s'.
Proof.
  induction n as [|n IH]; intros i s Hg Hai Hlen Hs; simpl.
  - exists s. split; [reflexivity|]. split; [apply range_perm_refl|].
    now rewrite Nat.add_0_r.
  - destruct (@insert_down_sorts a i (S i) s) as (s1 & R1 & P1 & S1);
      auto; try lia.
    { split; [|intros; lia].
      intros p q Hp Hpq Hq _ Hqi. apply Hs; lia. }
    run R1.
    destruct (IH (S i) s1) as (s2 & R2 & P2 & S2); auto; try lia.
    { eapply range_perm_good; eauto. }
    { apply range_perm_length in P1. lia. }
    exists s2. split; [exact R2|].
    replace (i + S n) with (S i + n) by lia.
    split; [|exact S2].
    eapply range_perm_trans; [|exact P2].
    eapply range_perm_widen; [| |exact P1]; lia.
Qed.

Lemma insertionSort_sorts a b (s : list T) :
  Forall good s -> b <= length s ->
  exists s',
    insertionSort_func less a b s = Ok (tt, s')
    /\ range_perm a b s s'
    /\ sorted_range a b s'.
Proof.
  intros Hg Hb. unfold insertionSort_func.
  destruct (Nat.le_gt_cases b (a + 1)) as [Hle|Hgt].
  - replace (b - (a + 1)) with 0 by lia. simpl.
    exists s. split; [reflexivity|]. split; [apply range_perm_refl|].
    intros p q Hp Hpq Hq. lia.
  - destruct (@insertions_sort a (b - (a + 1)) (a + 1) s)
      as (s' & R & P & S); auto; try lia.
    { intros p q Hp Hpq Hq. lia. }
    replace (a + 1 + (b - (a + 1))) with b in * by lia.
    exists s'. auto.
Qed.


(** ** Heap sort *)

Lemma siftDown_loop_heap fuel lo : forall root hi first (s : list T),
  Forall good s -> first + hi <= length s -> hi <= fuel + root ->
  lo <= root -> heap_but root lo hi first s ->
  exists s',
    siftDown_loop less fuel root hi first s = Ok (tt, s')
    /\ range_perm first (first + hi) s s'
    /\ heap lo hi first s'.
Proof.
  induction fuel as [|fuel IH];
    intros root hi first s Hg Hlen Hfuel Hlo [H1 H2].
  - simpl. destruct (Nat.leb_spec hi (root + (root + 0) + 1)); [|lia].
    exists s. split; [reflexivity|]. split; [apply range_perm_refl|].
    intros k c Hk Hc Hkc. apply H1; auto.
    unfold SortSpec.child_of in Hkc. lia.
  - cbn [siftDown_loop].
    destruct (Nat.leb_spec hi (2 * root + 1)) as [Hc|Hc].
    { exists s. split; [reflexivity|]. split; [apply range_perm_refl|].
      intros k c Hk Hc' Hkc. apply H1; auto.
      unfold SortSpec.child_of in Hkc. lia. }
    set (child := 2 * root + 1) in *.
    assert (Hstep : forall c : nat,
      child_of c root -> c < hi ->
      (forall d, child_of d root -> d < hi ->
         lessAt s (first + c) (first + d) = false) ->
      exists s',
        (c0 <- Less less (first + root) (first + c) ;;
         if negb c0 then ret tt
         else Swap (first + root) (first + c) ;;;
              siftDown_loop less fuel c hi first)%go s = Ok (tt, s')
        /\ range_perm first (first + hi) s s'
        /\ heap lo hi first s').
    { intros c Hcr Hchi Hmax.
      assert (Hrc : root < c) by (unfold SortSpec.child_of in Hcr; lia).
      run (@Less_run _ less (first + root) (first + c) s
             ltac:(lia) ltac:(lia)).
      destruct (lessAt s (first + root) (first + c)) eqn:Hless;
        cbn [negb].
      - run (@Swap_run _ (first + root) (first + c) s
               ltac:(lia) ltac:(lia)).
        destruct (IH c hi first (swapped (first + root) (first + c) s))
          as (s' & Hrun & Hp & Hh); try lia.
        { eapply range_perm_good; [|exact Hg].
          apply (@range_perm_swapped _ first (first + hi)
                   (first + root) (first + c) s); lia. }
        { rewrite swapped_length. lia. }
        { split.
          - intros k d Hk Hd Hdk Hkc.
            rewrite lessAt_swapped by lia.
            unfold SortSpec.child_of in *. swap_cases.
            + assert (k = root) by lia. subst k.
              assert (d = c) by lia. subst d.
              now apply at_asym.
            + assert (k = root) by lia. subst k.
              apply Hmax; unfold SortSpec.child_of; lia.
            + apply H2; unfold SortSpec.child_of; lia.
            + apply H1; unfold SortSpec.child_of; lia.
          - intros p d Hp0 Hcp Hd Hdc.
            rewrite lessAt_swapped by lia.
            unfold SortSpec.child_of in *. swap_cases.
            apply H1; unfold SortSpec.child_of; lia. }
        exists s'. split; [exact Hrun|]. split; [|exact Hh].
        eapply range_perm_trans; [|exact Hp].
        apply range_perm_swapped; lia.
      - exists s. split; [reflexivity|]. split; [apply range_perm_refl|].
        intros k d Hk Hd Hdk.
        destruct (Nat.eq_dec k root) as [->|Hne]; [|apply H1; auto].
        apply (@at_trans s (first + d) (first + c) (first + root));
          auto; lia. }
    destruct (Nat.ltb_spec (child + 1) hi) as [Hc'|Hc'].
    + run (@Less_run _ less (first + child) (first + child + 1) s
             ltac:(lia) ltac:(lia)).
      destruct (lessAt s (first + child) (first + child + 1)) eqn:Hcmp.
      * apply Hstep; [unfold SortSpec.child_of, child; lia|lia|].
        intros d Hd Hdhi. unfold SortSpec.child_of in Hd.
        assert (d = child \/ d = child + 1) as [->| ->]
          by (unfold child; lia).
        -- apply at_asym; auto.
           now replace (first + (child + 1)) with (first + child + 1)
             by lia.
        -- now apply at_irrefl.
      * apply Hstep; [unfold SortSpec.child_of, child; lia|lia|].
        intros d Hd Hdhi. unfold SortSpec.child_of in Hd.
        assert (d = child \/ d = child + 1) as [->| ->]
          by (unfold child; lia).
        -- now apply at_irrefl.
        -- now replace (first + (child + 1)) with (first + child + 1)
             by lia.
    + unfold bind at 1. cbn [ret].
      apply Hstep; [unfold SortSpec.child_of, child; lia|lia|].
      intros d Hd Hdhi. unfold SortSpec.child_of in Hd.
      assert (d = child) as -> by (unfold child; lia).
      now apply at_irrefl.
Qed.

Lemma heapify hi first m : forall (s : list T),
  Forall good s -> first + hi <= length s ->
  heap m hi first s ->
  exists s',
    for_each (rev (seq 0 m)) (fun i => siftDown_func less i hi first) s
    = Ok (tt, s')
    /\ range_perm first (first + hi) s s'
    /\ heap 0 hi first s'.
Proof.
  induction m as [|m IH]; intros s Hg Hlen Hh.
  - exists s. split; [reflexivity|]. split; [apply range_perm_refl|].
    exact Hh.
  - rewrite seq_S, rev_app_distr. cbn [rev app for_each Nat.add].
    unfold siftDown_func at 1.
    destruct (@siftDown_loop_heap hi m m hi first s)
      as (s1 & R1 & P1 & H1); auto; try lia.
    { split.
      - intros k c Hk Hc Hkc Hne. apply Hh; auto. lia.
      - intros p c Hp Hmp. unfold SortSpec.child_of in Hmp. lia. }
    run R1.
    destruct (IH s1) as (s2 & R2 & P2 & H2); auto.
    { eapply range_perm_good; eauto. }
    { apply range_perm_length in P1. lia. }
    exists s2. split; [exact R2|]. split; [|exact H2].
    eapply range_perm_trans; eauto.
Qed.

(** The root of a heap is less than no node. *)
Lemma root_max hi first (s : list T) :
  Forall good s -> first + hi <= length s ->
  heap 0 hi first s ->
  forall k, k < hi -> lessAt s first (first + k) = false.
Proof.
  intros Hg Hlen Hh k.
  induction k as [k IH] using (well_founded_induction lt_wf).
  intros Hk. destruct k as [|k].
  - rewrite Nat.add_0_r. now apply at_irrefl.
  - assert (Hp : child_of (S k) (k / 2)).
    { unfold SortSpec.child_of.
      pose proof (Nat.div_mod_eq k 2).
      pose proof (Nat.mod_upper_bound k 2 ltac:(lia)). lia. }
    assert (Hlt : k / 2 < S k).
    { pose proof (Nat.div_mod_eq k 2). lia. }
    apply (@at_trans s (first + S k) (first + k / 2) first); auto.
    + lia.
    + apply Hh; auto. lia.
    + apply IH; lia.
Qed.

Lemma extract hi first m : forall (s : list T),
  Forall good s -> first + hi <= length s -> m <= hi ->
  heap 0 m first s ->
  sorted_range (first + m) (first + hi) s ->
  below m hi first s ->
  exists s',
    for_each (rev (seq 0 m))
      (fun i => Swap first (first + i) ;;; siftDown_func less 0 i first)%go
      s = Ok (tt, s')
    /\ range_perm first (first + hi) s s'
    /\ sorted_range first (first + hi) s'.
Proof.
  induction m as [|m IH]; intros s Hg Hlen Hm Hh Hs Hb.
  - exists s. split; [reflexivity|]. split; [apply range_perm_refl|].
    now rewrite Nat.add_0_r in Hs.
  - rewrite seq_S, rev_app_distr. cbn [rev app for_each Nat.add].
    pose proof (@root_max (S m) first s Hg ltac:(lia) Hh) as Hmax.
    unfold bind at 1.
    run (@Swap_run _ first (first + m) s ltac:(lia) ltac:(lia)).
    set (s1 := swapped first (first + m) s).
    assert (P1 : range_perm first (first + hi) s s1)
      by (apply range_perm_swapped; lia).
    assert (G1 : Forall good s1) by (eapply range_perm_good; eauto).
    assert (L1 : length s1 = length s) by apply swapped_length.
    unfold siftDown_func.
    destruct (@siftDown_loop_heap m 0 0 m first s1)
      as (s2 & R2 & P2 & H2); auto; try lia.
    { split.
      - intros k c Hk Hc Hkc Hne. unfold s1.
        rewrite lessAt_swapped by lia.
        unfold SortSpec.child_of in Hkc. swap_cases.
        apply Hh; unfold SortSpec.child_of; lia.
      - intros p c _ Hp. unfold SortSpec.child_of in Hp. lia. }
    rewrite R2; cbv beta iota.
    assert (G2 : Forall good s2) by (eapply range_perm_good; eauto).
    assert (L2 : length s2 = length s)
      by (apply range_perm_length in P2; lia).
    assert (Hs1 : sorted_range (first + m) (first + hi) s1).
    { intros p q Hp Hpq Hq. unfold s1.
      rewrite lessAt_swapped by lia.
      rewrite (@transpose_other first (first + m) q) by lia.
      destruct (Nat.eq_dec p (first + m)) as [->|Hne].
      - rewrite transpose_r.
        pose proof (Hb 0 (q - first) ltac:(lia) ltac:(lia) ltac:(lia))
          as Hq'.
        rewrite Nat.add_0_r in Hq'.
        now replace (first + (q - first)) with q in Hq' by lia.
      - rewrite transpose_other by lia. apply Hs; lia. }
    assert (Hb1 : below m hi first s1).
    { intros p q Hp Hq1 Hq2. unfold s1.
      rewrite lessAt_swapped by lia.
      destruct (Nat.eq_dec q m) as [->|Hqm].
      - rewrite transpose_r.
        destruct (Nat.eq_dec p 0) as [->|Hp0].
        + rewrite Nat.add_0_r, transpose_l. apply Hmax. lia.
        + rewrite transpose_other by lia. apply Hmax. lia.
      - rewrite (@transpose_other first (first + m) (first + q)) by lia.
        destruct (Nat.eq_dec p 0) as [->|Hp0].
        + rewrite Nat.add_0_r, transpose_l. apply Hb; lia.
        + rewrite transpose_other by lia. apply Hb; lia. }
    destruct P2 as [Perm2 Out2].
    destruct (IH s2) as (s3 & R3 & P3 & S3); auto; try lia.
    { eapply sorted_range_outside; [exact Out2|lia|exact Hs1]. }
    { intros p q Hp Hq1 Hq2.
      replace (first + p) with (first + p - 0) by lia.
      rewrite Nat.sub_0_r.
      apply (@range_perm_lessAt_r first (first + m) (first + q) false
               s1 s2); try lia.
      - split; assumption.
      - intros k Hk1 Hk2.
        replace k with (first + (k - first)) by lia.
        apply Hb1; lia. }
    exists s3. split; [exact R3|]. split; [|exact S3].
    eapply range_perm_trans; [exact P1|].
    eapply range_perm_trans; [|exact P3].
    eapply range_perm_widen; [| |split; eassumption]; lia.
Qed.

Lemma heapSort_sorts a b (s : list T) :
  Forall good s -> a <= b -> b <= length s ->
  exists s',
    heapSort_func less a b s = Ok (tt, s')
    /\ range_perm a b s s'
    /\ sorted_range a b s'.
Proof.
  intros Hg Hab Hb. unfold heapSort_func.
  destruct (@heapify (b - a) a ((b - a - 1) / 2 + 1) s)
    as (s1 & R1 & P1 & H1); auto; try lia.
  { intros k c Hk Hc Hkc. unfold SortSpec.child_of in Hkc.
    pose proof (Nat.div_mod_eq (b - a - 1) 2).
    pose proof (Nat.mod_upper_bound (b - a - 1) 2 ltac:(lia)). lia. }
  run R1.
  destruct (@extract (b - a) a (b - a) s1) as (s2 & R2 & P2 & S2);
    auto; try lia.
  { eapply range_perm_good; eauto. }
  { apply range_perm_length in P1. lia. }
  { intros p q Hp Hpq Hq. lia. }
  { intros p q Hp Hq1 Hq2. lia. }
  replace (a + (b - a)) with b in * by lia.
  exists s2. split; [exact R2|]. split; [|exact S2].
  eapply range_perm_trans; eauto.
Qed.


(** ** The partial insertion sort *)

Lemma lessAt_outside a b i j (s s' : list T) :
  SortSpec.same_outside a b s s' ->
  i < a \/ b <= i -> j < a \/ b <= j ->
  lessAt s' i j = lessAt s i j.
Proof.
  intros Out Hi Hj. unfold SortSpec.lessAt. now rewrite !Out.
Qed.

Lemma bounded_below_perm a b (s s' : list T) :
  a <= b -> b <= length s -> range_perm a b s s' ->
  bounded_below a b s -> bounded_below a b s'.
Proof.
  intros Hab Hb Hp [H0|H]; [now left|].
  destruct (Nat.eq_dec a 0) as [E|E]; [now left|]. right.
  apply (@range_perm_lessAt_l a b (a - 1) false s s'); auto. lia.
Qed.

Lemma bounded_below_narrow a b b' (s : list T) :
  b' <= b -> bounded_below a b s -> bounded_below a b' s.
Proof.
  intros Hb [H0|H]; [now left|]. right. intros k H1 H2. apply H; lia.
Qed.

(** Below a range that is bounded below, the insertion of
    [partialInsertionSort_func], which stops at index 1, stops where
    that of [insertionSort_func] does. *)
Lemma shift_left_insert_down a b j : forall (s : list T),
  a <= j -> j < b -> b <= length s -> bounded_below a b s ->
  shift_left less j s = insert_down less a j s.
Proof.
  induction j as [|j IH]; intros s Haj Hjb Hb Hbelow; [reflexivity|].
  cbn [shift_left insert_down].
  destruct (Nat.ltb_spec a (S j)) as [Ha|Ha].
  - unfold bind at 1 3.
    rewrite (@Less_run _ less (S j) j s ltac:(lia) ltac:(lia)).
    destruct (lessAt s (S j) j); cbn [negb]; [|reflexivity].
    unfold bind.
    rewrite (@Swap_run _ (S j) j s ltac:(lia) ltac:(lia)).
    apply IH; try lia.
    + rewrite swapped_length. lia.
    + eapply bounded_below_perm; [| | |exact Hbelow]; try lia.
      apply range_perm_swapped; lia.
  - assert (a = S j) by lia. subst a.
    destruct Hbelow as [H0|H]; [discriminate|].
    unfold bind.
    rewrite (@Less_run _ less (S j) j s ltac:(lia) ltac:(lia)).
    specialize (H (S j) ltac:(lia) ltac:(lia)).
    replace (S j - 1) with j in H by lia. now rewrite H.
Qed.

(** A sorted range grows over neighbours that are in order. *)
Lemma sorted_range_extend a i i' (s : list T) :
  Forall good s -> a < i -> i' <= length s ->
  sorted_range a i s ->
  (forall k, i <= k -> k < i' -> lessAt s k (k - 1) = false) ->
  sorted_range a i' s.
Proof.
  intros Hg Hai Hlen Hs Hadj p q Hp Hpq.
  induction q as [q IH] using (well_founded_induction lt_wf).
  intros Hq.
  destruct (Nat.lt_ge_cases q i) as [Hqi|Hqi]; [now apply Hs|].
  destruct (Nat.eq_dec p (q - 1)) as [->|Hne]; [apply Hadj; lia|].
  apply (@at_trans s p (q - 1) q);
    [exact Hg|lia|apply IH; lia|apply Hadj; lia].
Qed.

Lemma partialInsertionSort_steps_sorts steps a b :
  forall i (s : list T),
  Forall good s -> a < i -> i <= b -> b <= length s ->
  bounded_below a b s -> sorted_range a i s ->
  exists r s',
    partialInsertionSort_steps less steps a b i s = Ok (r, s')
    /\ range_perm a b s s'
    /\ (r = true -> sorted_range a b s').
Proof.
  induction steps as [|steps IH]; intros i s Hg Hai Hib Hb Hbelow Hs.
  - exists false, s. split; [reflexivity|].
    split; [apply range_perm_refl|discriminate].
  - cbn [partialInsertionSort_steps].
    destruct (@skip_ordered_run _ less (b - i) i b s)
      as (i' & R1 & U1 & U2 & U3 & U4); try lia.
    run R1.
    assert (Hs' : sorted_range a i' s).
    { apply (@sorted_range_extend a i i' s); auto. lia. }
    destruct (Nat.eqb_spec i' b) as [E|E].
    { exists true, s. split; [reflexivity|].
      split; [apply range_perm_refl|]. intros _. now subst i'. }
    destruct (b - a <? 50).
    { exists false, s. split; [reflexivity|].
      split; [apply range_perm_refl|discriminate]. }
    run (@Swap_run _ i' (i' - 1) s ltac:(lia) ltac:(lia)).
    set (s1 := swapped i' (i' - 1) s).
    assert (L1 : length s1 = length s) by apply swapped_length.
    assert (P1 : range_perm a b s s1)
      by (apply range_perm_swapped; lia).
    assert (exists s2,
      (if 2 <=? i' - a then shift_left less (i' - 1) else ret tt) s1
      = Ok (tt, s2)
      /\ range_perm a i' s1 s2 /\ sorted_range a i' s2)
      as (s2 & R2 & P2 & S2).
    { destruct (Nat.leb_spec 2 (i' - a)) as [H2|H2].
      - rewrite (@shift_left_insert_down a b (i' - 1) s1); try lia.
        + destruct (@insert_down_sorts a (i' - 1) i' s1)
            as (s2 & R2 & P2 & S2); try lia.
          * eapply range_perm_good; eauto.
          * split; [|intros; lia].
            intros p q Hp Hpq Hq Hpi Hqi. unfold s1.
            rewrite lessAt_swapped by lia.
            rewrite !transpose_other by lia. apply Hs'; lia.
          * replace (S (i' - 1)) with i' in P2 by lia.
            exists s2. auto.
        + eapply bounded_below_perm; [| | |exact Hbelow]; auto; lia.
      - exists s1. split; [reflexivity|].
        split; [apply range_perm_refl|].
        intros p q Hp Hpq Hq. lia. }
    run R2.
    assert (L2 : length s2 = length s)
      by (apply range_perm_length in P2; lia).
    assert (exists s3,
      (if 2 <=? b - i' then shift_right less (b - (i' + 1)) (i' + 1) b
       else ret tt) s2
      = Ok (tt, s3) /\ range_perm i' b s2 s3) as (s3 & R3 & P3).
    { destruct (2 <=? b - i').
      - destruct (@shift_right_run _ less (b - (i' + 1)) (i' + 1) b s2)
          as (s3 & R3 & P3); try lia.
        exists s3. split; [exact R3|].
        eapply range_perm_widen; [| |exact P3]; lia.
      - exists s2. split; [reflexivity|apply range_perm_refl]. }
    run R3.
    assert (P03 : range_perm a b s s3).
    { eapply range_perm_trans; [exact P1|].
      eapply range_perm_trans.
      - eapply range_perm_widen; [| |exact P2]; lia.
      - eapply range_perm_widen; [| |exact P3]; lia. }
    destruct (IH i' s3) as (r & s4 & R4 & P4 & S4); try lia.
    { eapply range_perm_good; eauto. }
    { apply range_perm_length in P3. lia. }
    { eapply bounded_below_perm; [| | |exact Hbelow]; auto; lia. }
    { destruct P3 as [_ Out3].
      eapply sorted_range_outside; [exact Out3|lia|exact S2]. }
    exists r, s4. split; [exact R4|]. split; [|exact S4].
    eapply range_perm_trans; eauto.
Qed.

Lemma partialInsertionSort_sorts a b (s : list T) :
  Forall good s -> a < b -> b <= length s -> bounded_below a b s ->
  exists r s',
    partialInsertionSort_func less a b s = Ok (r, s')
    /\ range_perm a b s s'
    /\ (r = true -> sorted_range a b s').
Proof.
  intros Hg Hab Hb Hbelow. unfold partialInsertionSort_func.
  apply partialInsertionSort_steps_sorts; auto; try lia.
  intros p q Hp Hpq Hq. lia.
Qed.


(** ** The sort *)

(** Two sorted ranges around a pivot that parts them make a sorted
    range. *)
Lemma sorted_join a mid b (s : list T) :
  Forall good s ->
  sorted_range a mid s -> sorted_range (mid + 1) b s ->
  partitioned a b mid s ->
  sorted_range a b s.
Proof.
  intros Hg Hl Hr [Hless Hnot] p q Hp Hpq Hq.
  destruct (Nat.lt_trichotomy q mid) as [Hqm|[->|Hqm]].
  - apply Hl; lia.
  - apply at_asym; [exact Hg|apply Hless; lia].
  - destruct (Nat.lt_trichotomy p mid) as [Hpm|[->|Hpm]].
    + apply (@at_less_trans s p mid q);
        [exact Hg|apply Hless; lia|apply Hnot; lia].
    + apply Hnot; lia.
    + apply Hr; lia.
Qed.

(** The elements that [partitionEqual_func] gathers before [mid] are
    neither less nor more than the pivot; with a sorted rest they make
    a sorted range. *)
Lemma sorted_join_eq a mid b (s : list T) :
  Forall good s -> 0 < a -> a < mid -> mid <= b -> b <= length s ->
  bounded_below a b s ->
  lessAt s (a - 1) a = false ->
  split_eq a b mid (mid - 1) s ->
  sorted_range mid b s ->
  sorted_range a b s.
Proof.
  intros Hg Ha Ham Hmb Hb [H0|Hbelow] Hdup [Heq Hgt] Hs p q Hp Hpq Hq;
    [lia|].
  assert (Hle : forall i, a <= i -> i < mid -> lessAt s a i = false).
  { intros i H1 H2. destruct (Nat.eq_dec i a) as [->|Hne].
    - now apply at_irrefl.
    - apply Heq; lia. }
  assert (Hge : forall j, a <= j -> j < b -> lessAt s j a = false).
  { intros j H1 H2.
    apply (@at_trans s a (a - 1) j);
      [exact Hg|lia|exact Hdup|apply Hbelow; lia]. }
  destruct (Nat.lt_ge_cases p mid) as [Hpm|Hpm].
  - apply (@at_trans s p a q);
      [exact Hg|lia|apply Hle; lia|apply Hge; lia].
  - apply Hs; lia.
Qed.

Lemma pdqsort_loop_sorts fuel :
  forall a b limit wasBalanced wasPartitioned (s : list T),
  Forall good s -> a <= b -> b <= length s -> b - a <= fuel ->
  bounded_below a b s ->
  exists s',
    pdqsort_loop less fuel a b limit wasBalanced wasPartitioned s
    = Ok (tt, s')
    /\ range_perm a b s s'
    /\ sorted_range a b s'.
Proof.
  induction fuel as [|fuel IH];
    intros a b limit wasBalanced wasPartitioned s Hg Hab Hb Hfuel Hbelow.
  - cbn [pdqsort_loop].
    destruct (Nat.leb_spec (b - a) 12); [|lia].
    now apply insertionSort_sorts.
  - cbn [pdqsort_loop].
    destruct (Nat.leb_spec (b - a) 12) as [Hlen|Hlen].
    { now apply insertionSort_sorts. }
    destruct (limit =? 0).
    { now apply heapSort_sorts. }
    assert (exists limit' s1,
      (if negb wasBalanced
       then breakPatterns_func a b ;;; ret (limit - 1)
       else ret limit)%go s = Ok (limit', s1)
      /\ range_perm a b s s1) as (limit' & s1 & R1 & P1).
    { destruct (negb wasBalanced).
      - destruct (@breakPatterns_run _ a b s Hab Hb) as (s1 & R & P).
        run R. do 2 eexists. split; [reflexivity|exact P].
      - do 2 eexists. split; [reflexivity|apply range_perm_refl]. }
    run R1.
    assert (L1 : length s1 = length s) by (eapply range_perm_length; eauto).
    destruct (@choosePivot_run _ less a b s1 ltac:(lia) ltac:(lia))
      as (pivot & hint & R2 & Hpiv).
    run R2.
    assert (exists pivot' hint' s2,
      (if is_decreasing hint
       then reverseRange_func a b ;;;
            ret (b - 1 - (pivot - a), increasingHint)
       else ret (pivot, hint))%go s1 = Ok ((pivot', hint'), s2)
      /\ range_perm a b s1 s2 /\ a <= pivot' < b)
      as (pivot' & hint' & s2 & R3 & P3 & Hpiv').
    { destruct (is_decreasing hint).
      - destruct (@reverseRange_run _ a b s1 ltac:(lia) ltac:(lia))
          as (s2 & R & P).
        run R. do 3 eexists. split; [reflexivity|].
        split; [exact P|lia].
      - do 3 eexists. split; [reflexivity|].
        split; [apply range_perm_refl|lia]. }
    run R3.
    assert (P02 : range_perm a b s s2) by eauto using range_perm_trans.
    assert (L2 : length s2 = length s) by (eapply range_perm_length; eauto).
    assert (G2 : Forall good s2) by (eapply range_perm_good; eauto).
    assert (B2 : bounded_below a b s2)
      by (eapply bounded_below_perm; [| | |exact Hbelow]; auto).
    assert (exists sorted s3,
      (if wasBalanced && wasPartitioned && is_increasing hint'
       then partialInsertionSort_func less a b
       else ret false) s2 = Ok (sorted, s3)
      /\ range_perm a b s2 s3
      /\ (sorted = true -> sorted_range a b s3))
      as (sorted & s3 & R4 & P4 & S4).
    { destruct (wasBalanced && wasPartitioned && is_increasing hint').
      - apply partialInsertionSort_sorts; auto; lia.
      - do 2 eexists. split; [reflexivity|].
        split; [apply range_perm_refl|discriminate]. }
    run R4.
    assert (P03 : range_perm a b s s3) by eauto using range_perm_trans.
    assert (L3 : length s3 = length s) by (eapply range_perm_length; eauto).
    assert (G3 : Forall good s3) by (eapply range_perm_good; eauto).
    assert (B3 : bounded_below a b s3)
      by (eapply bounded_below_perm; [| | |exact Hbelow]; auto).
    destruct sorted.
    { exists s3. split; [reflexivity|]. auto. }
    assert (exists dup,
      (if 0 <? a then c <- Less less (a - 1) pivot' ;; ret (negb c)
       else ret false)%go s3 = Ok (dup, s3)
      /\ (dup = true -> 0 < a /\ lessAt s3 (a - 1) pivot' = false))
      as (dup & R5 & Hdup).
    { destruct (Nat.ltb_spec 0 a).
      - run (@Less_run _ less (a - 1) pivot' s3 ltac:(lia) ltac:(lia)).
        eexists. split; [reflexivity|].
        intros E. split; [assumption|].
        now destruct (lessAt s3 (a - 1) pivot').
      - eexists. split; [reflexivity|discriminate]. }
    run R5.
    destruct dup.
    + destruct (Hdup eq_refl) as [Ha0 Hd].
      destruct (@partitionEqual_run _ less a b pivot' s3)
        as (mid & s4 & R6 & P6 & M1 & M2 & [Heq Hgt] & Hpv); try lia.
      run R6.
      assert (L4 : length s4 = length s)
        by (apply range_perm_length in P6; lia).
      assert (G4 : Forall good s4) by (eapply range_perm_good; eauto).
      assert (B4 : bounded_below a b s4)
        by (eapply bounded_below_perm; [| | |exact B3]; auto; lia).
      assert (Hd4 : lessAt s4 (a - 1) a = false).
      { unfold SortSpec.lessAt. destruct P6 as [_ O6].
        rewrite Hpv, (O6 (a - 1)) by lia. exact Hd. }
      assert (Hover : forall p k, a <= p -> p < mid -> mid <= k -> k < b ->
                lessAt s4 k p = false).
      { intros p k H1 H2 H3 H4.
        assert (Hka : lessAt s4 k a = false)
          by (apply at_asym; auto; apply Hgt; lia).
        destruct (Nat.eq_dec p a) as [->|Hne]; [exact Hka|].
        apply (@at_trans s4 p a k); auto; try lia.
        apply Heq; lia. }
      destruct (IH mid b limit' wasBalanced wasPartitioned s4)
        as (s5 & R7 & P7 & S7); auto; try lia.
      { right. intros k H1 H2. apply Hover; lia. }
      exists s5. split; [exact R7|]. split.
      * eapply range_perm_trans; [exact P03|].
        eapply range_perm_trans; [exact P6|].
        eapply range_perm_widen; [| |exact P7]; lia.
      * assert (G5 : Forall good s5) by (eapply range_perm_good; eauto).
        pose proof P7 as [_ O7].
        assert (L5 : length s5 = length s)
          by (apply range_perm_length in P7; lia).
        apply (@sorted_join_eq a mid b s5 G5 Ha0 M1 M2 ltac:(lia)).
        -- eapply bounded_below_perm; [| | |exact B4]; try lia.
           eapply range_perm_widen; [| |exact P7]; lia.
        -- rewrite (@lessAt_outside mid b (a - 1) a s4 s5 O7) by lia.
           exact Hd4.
        -- split.
           ++ intros k H1 H2.
              rewrite (@lessAt_outside mid b a k s4 s5 O7) by lia.
              apply Heq; lia.
           ++ intros k H1 H2.
              apply (@range_perm_lessAt_r mid b a true s4 s5
                       ltac:(lia) ltac:(lia) ltac:(lia) P7); [|lia|lia].
              intros k' H3 H4. apply Hgt; lia.
        -- exact S7.
    + destruct (@partition_run _ less a b pivot' s3)
        as (mid & already & s4 & R6 & P6 & M1 & M2 & [Hlt Hge] & _);
        try lia.
      run R6.
      assert (L4 : length s4 = length s)
        by (apply range_perm_length in P6; lia).
      assert (G4 : Forall good s4) by (eapply range_perm_good; eauto).
      assert (B4 : bounded_below a b s4)
        by (eapply bounded_below_perm; [| | |exact B3]; auto; lia).
      assert (Bl : bounded_below a mid s4)
        by (eapply bounded_below_narrow; [|exact B4]; lia).
      assert (Br : bounded_below (mid + 1) b s4).
      { right. intros k H1 H2.
        replace (mid + 1 - 1) with mid by lia. apply Hge; lia. }
      destruct (Nat.ltb_spec (mid - a) (b - mid)).
      * destruct (IH a mid limit' true true s4)
          as (s5 & R7 & P7 & S7); auto; try lia.
        run R7.
        assert (L5 : length s5 = length s)
          by (apply range_perm_length in P7; lia).
        assert (G5 : Forall good s5) by (eapply range_perm_good; eauto).
        pose proof P7 as [_ O7].
        assert (Br5 : bounded_below (mid + 1) b s5).
        { right. intros k H1 H2.
          replace (mid + 1 - 1) with mid by lia.
          rewrite (@lessAt_outside a mid k mid s4 s5 O7) by lia.
          apply Hge; lia. }
        destruct (IH (mid + 1) b limit' ((b - a) / 8 <=? mid - a)
                    already s5 G5 ltac:(lia) ltac:(lia) ltac:(lia) Br5)
          as (s6 & R8 & P8 & S8).
        exists s6. split; [exact R8|]. split.
        -- eapply range_perm_trans; [exact P03|].
           eapply range_perm_trans; [exact P6|].
           eapply range_perm_trans.
           ++ eapply range_perm_widen; [| |exact P7]; lia.
           ++ eapply range_perm_widen; [| |exact P8]; lia.
        -- pose proof P8 as [_ O8].
           apply (@sorted_join a mid b s6).
           ++ eapply range_perm_good; eauto.
           ++ eapply sorted_range_outside; [exact O8|lia|exact S7].
           ++ exact S8.
           ++ split.
              ** intros k H1 H2.
                 rewrite (@lessAt_outside (mid + 1) b k mid s5 s6 O8)
                   by lia.
                 apply (@range_perm_lessAt_l a mid mid true s4 s5
                          ltac:(lia) ltac:(lia) ltac:(lia) P7);
                   [|lia|lia].
                 intros k' H3 H4. apply Hlt; lia.
              ** intros k H1 H2.
                 apply (@range_perm_lessAt_l (mid + 1) b mid false s5 s6
                          ltac:(lia) ltac:(lia) ltac:(lia) P8);
                   [|lia|lia].
                 intros k' H3 H4.
                 rewrite (@lessAt_outside a mid k' mid s4 s5 O7) by lia.
                 apply Hge; lia.
      * destruct (IH (mid + 1) b limit' true true s4)
          as (s5 & R7 & P7 & S7); auto; try lia.
        run R7.
        assert (L5 : length s5 = length s)
          by (apply range_perm_length in P7; lia).
        assert (G5 : Forall good s5) by (eapply range_perm_good; eauto).
        pose proof P7 as [_ O7].
        assert (Bl5 : bounded_below a mid s5).
        { destruct Bl as [H0|Hbl]; [now left|]. right.
          intros k H1 H2.
          rewrite (@lessAt_outside (mid + 1) b k (a - 1) s4 s5 O7)
            by lia.
          apply Hbl; lia. }
        destruct (IH a mid limit' ((b - a) / 8 <=? b - mid)
                    already s5 G5 ltac:(lia) ltac:(lia) ltac:(lia) Bl5)
          as (s6 & R8 & P8 & S8).
        exists s6. split; [exact R8|]. split.
        -- eapply range_perm_trans; [exact P03|].
           eapply range_perm_trans; [exact P6|].
           eapply range_perm_trans.
           ++ eapply range_perm_widen; [| |exact P7]; lia.
           ++ eapply range_perm_widen; [| |exact P8]; lia.
        -- pose proof P8 as [_ O8].
           apply (@sorted_join a mid b s6).
           ++ eapply range_perm_good; eauto.
           ++ exact S8.
           ++ eapply sorted_range_outside; [exact O8|lia|exact S7].
           ++ split.
              ** intros k H1 H2.
                 apply (@range_perm_lessAt_l a mid mid true s5 s6
                          ltac:(lia) ltac:(lia) ltac:(lia) P8);
                   [|lia|lia].
                 intros k' H3 H4.
                 rewrite (@lessAt_outside (mid + 1) b k' mid s4 s5 O7)
                   by lia.
                 apply Hlt; lia.
              ** intros k H1 H2.
                 rewrite (@lessAt_outside a mid k mid s5 s6 O8) by lia.
                 apply (@range_perm_lessAt_l (mid + 1) b mid false s4 s5
                          ltac:(lia) ltac:(lia) ltac:(lia) P7);
                   [|lia|lia].
                 intros k' H3 H4. apply Hge; lia.
Qed.

(** On elements that [less] orders, [sort.Slice] returns them
    sorted. *)
Lemma Slice_sorts (x : list T) :
  Forall good x ->
  exists x',
    Slice less x = Ok x'
    /\ Permutation x x'
    /\ SortSpec.sorted less x'.
Proof.
  intros Hg. unfold Slice, pdqsort_func.
  destruct (@pdqsort_loop_sorts (S (length x - 0)) 0 (length x)
              (bits_Len (length x)) true true x)
    as (x' & R & P & S); auto; try lia.
  { now left. }
  rewrite R. exists x'. split; [reflexivity|]. split; [apply P|].
  unfold SortSpec.sorted. now rewrite (range_perm_length P).
Qed.

End Ordered.
End SortOrdered.

(* ================================================================== *)
(** * Properties of the ranking *)

(** ** The order of [float64] *)

Module FloatOrder.

Ltac cmp_cases :=
  repeat match goal with
  | H : context [Z.compare ?a ?b] |- _ =>
      destruct (Z.compare_spec a b); subst
  | |- context [Z.compare ?a ?b] =>
      destruct (Z.compare_spec a b); subst
  | H : context [Pos.compare_cont Eq ?a ?b] |- _ =>
      change (Pos.compare_cont Eq a b) with (Pos.compare a b) in H;
      destruct (Pos.compare_spec a b); subst
  | |- context [Pos.compare_cont Eq ?a ?b] =>
      change (Pos.compare_cont Eq a b) with (Pos.compare a b);
      destruct (Pos.compare_spec a b); subst
  end.

(** Every case of the comparison of two or three numbers. *)
Ltac sf_cases :=
  unfold SFltb, SFleb, SFeqb, SFcompare; intros;
  repeat match goal with
  | x : spec_float |- _ => destruct x
  | b : bool |- _ => destruct b
  end;
  simpl in *; try discriminate; try reflexivity;
  cmp_cases; simpl in *; try discriminate; try reflexivity; try lia.

Lemma SFltb_irrefl x : SFltb x x = false.
Proof. sf_cases. Qed.

Lemma SFltb_asym x y : SFltb x y = true -> SFltb y x = false.
Proof. sf_cases. Qed.

Lemma SFltb_not_trans x y z :
  SFeqb x x = true -> SFeqb y y = true -> SFeqb z z = true ->
  SFltb x y = false -> SFltb y z = false -> SFltb x z = false.
Proof. sf_cases. Qed.

Lemma SFleb_of_not_ltb a b :
  SFeqb a a = true -> SFeqb b b = true ->
  SFltb a b = false -> SFleb b a = true.
Proof. sf_cases. Qed.

Lemma SFltb_equal x y c :
  SFeqb x c = true -> SFeqb y c = true -> SFltb y x = false.
Proof. sf_cases. Qed.

Lemma fgt_irrefl x : fgt x x = false.
Proof. unfold fgt. rewrite FloatAxioms.ltb_spec. apply SFltb_irrefl. Qed.

Lemma fgt_asym x y : fgt x y = true -> fgt y x = false.
Proof. unfold fgt. rewrite !FloatAxioms.ltb_spec. apply SFltb_asym. Qed.

Lemma not_fgt_trans x y z :
  not_nan x = true -> not_nan y = true -> not_nan z = true ->
  fgt y x = false -> fgt z y = false -> fgt z x = false.
Proof.
  unfold fgt, not_nan, feq. rewrite !FloatAxioms.ltb_spec, !FloatAxioms.eqb_spec.
  intros Hx Hy Hz H1 H2. exact (SFltb_not_trans _ _ _ Hx Hy Hz H1 H2).
Qed.

Lemma fle_of_not_fgt x y :
  not_nan x = true -> not_nan y = true -> fgt y x = false ->
  fle y x = true.
Proof.
  unfold fgt, fle, not_nan, feq. rewrite FloatAxioms.ltb_spec, FloatAxioms.leb_spec, !FloatAxioms.eqb_spec.
  intros Hx Hy H. now apply SFleb_of_not_ltb.
Qed.

Lemma not_fgt_equal x y c :
  feq x c = true -> feq y c = true -> fgt x y = false.
Proof.
  unfold fgt, feq. rewrite FloatAxioms.ltb_spec, !FloatAxioms.eqb_spec. apply SFltb_equal.
Qed.

End FloatOrder.

Section Ranking.
Local Open Scope list_scope.
Local Open Scope nat_scope.

(** ** Sorting samples *)

(** On samples whose CPU values are numbers, [sort.Slice] with the
    closure of the program returns them sorted; it keeps the ties when
    they are at most 12. *)
Lemma Slice_cpu_sorts (samples : list ProcessInfo) :
  Forall cpu_not_nan samples ->
  exists ranked,
    sort.Slice cpu_greater samples = Ok ranked
    /\ Permutation samples ranked
    /\ SortSpec.sorted cpu_greater ranked
    /\ (length samples <= 12 ->
        SortSpec.ties_kept cpu_greater samples ranked).
Proof.
  intros Hg.
  destruct (@SortOrdered.Slice_sorts ProcessInfo cpu_greater cpu_not_nan)
    with (x := samples) as (ranked & Hrun & Hperm & Hsorted); auto.
  - intros x _. apply FloatOrder.fgt_irrefl.
  - intros x y _ _. apply FloatOrder.fgt_asym.
  - intros x y z Hx Hy Hz. now apply FloatOrder.not_fgt_trans.
  - exists ranked. repeat split; auto.
    destruct (SortAny.Slice_run cpu_greater samples)
      as (ranked' & Hrun' & _ & Hties).
    rewrite Hrun in Hrun'. injection Hrun' as <-. exact Hties.
Qed.

Lemma sorted_descending (l : list ProcessInfo) :
  Forall cpu_not_nan l -> SortSpec.sorted cpu_greater l -> descending l.
Proof.
  intros Hg Hs i j p q Hij Hp Hq.
  assert (Hj : j < length l) by (apply nth_error_Some; congruence).
  specialize (Hs i j ltac:(lia) Hij Hj).
  unfold SortSpec.lessAt in Hs. rewrite Hp, Hq in Hs.
  rewrite Forall_forall in Hg.
  apply FloatOrder.fle_of_not_fgt; auto.
  - apply (Hg p). eapply nth_error_In; eauto.
  - apply (Hg q). eapply nth_error_In; eauto.
Qed.

Lemma descending_truncate10 (l : list ProcessInfo) :
  descending l -> descending (truncate10 l).
Proof.
  unfold truncate10. destruct (10 <? length l); [|auto].
  intros Hd i j p q Hij Hp Hq.
  rewrite nth_error_firstn in Hp, Hq.
  destruct (i <? 10), (j <? 10); try discriminate. eauto.
Qed.

Lemma ties_truncate10 (samples ranked : list ProcessInfo) :
  SortSpec.ties_kept cpu_greater samples ranked ->
  ties_in_enumeration_order samples (truncate10 ranked).
Proof.
  intros Hties c. unfold with_cpu.
  rewrite <- (Hties (fun p => feq (CPU p) c)).
  - unfold truncate10. destruct (10 <? length ranked).
    + exists (filter (fun p => feq (CPU p) c) (skipn 10 ranked)).
      now rewrite <- filter_app, firstn_skipn.
    + exists []. now rewrite app_nil_r.
  - intros x y Hx Hy. eapply FloatOrder.not_fgt_equal; eauto.
Qed.

(** Both rankers, on samples whose CPU values are numbers: the list
    returned is sorted by CPU value descending, has at most ten
    entries, is the first ten of a rearrangement of the samples, and
    keeps ties in enumeration order when there are at most 12
    samples. *)
Lemma ranking_spec (samples : list ProcessInfo) :
  Forall cpu_not_nan samples ->
  exists ranked,
    sort.Slice cpu_greater samples = Ok ranked
    /\ Permutation samples ranked
    /\ descending (truncate10 ranked)
    /\ length (truncate10 ranked) <= 10
    /\ (length samples <= 12 ->
        ties_in_enumeration_order samples (truncate10 ranked)).
Proof.
  intros Hg.
  destruct (Slice_cpu_sorts Hg) as (ranked & Hrun & Hperm & Hs & Ht).
  exists ranked. split; [exact Hrun|]. split; [exact Hperm|].
  split; [|split].
  - apply descending_truncate10, sorted_descending; auto.
    eapply Permutation_Forall; eauto.
  - apply truncate10_length.
  - intros Hlen. apply ties_truncate10. auto.
Qed.

Lemma truncate10_skipn {A} (l : list A) :
  truncate10 l ++ skipn 10 l = l.
Proof.
  unfold truncate10. destruct (Nat.ltb_spec 10 (length l)).
  - apply firstn_skipn.
  - rewrite skipn_all2 by lia. apply app_nil_r.
Qed.

Lemma truncate10_min {A} (l : list A) :
  length (truncate10 l) = Nat.min 10 (length l).
Proof.
  unfold truncate10. destruct (Nat.ltb_spec 10 (length l)).
  - rewrite length_firstn. reflexivity.
  - lia.
Qed.

(** The ten that are kept are the highest: in a list sorted
    descending, none of those after the tenth is above one of the
    first ten. *)
Lemma descending_none_above (ranked : list ProcessInfo) :
  descending ranked -> none_above (truncate10 ranked) (skipn 10 ranked).
Proof.
  intros Hd p q Hp Hq.
  apply In_nth_error in Hq. destruct Hq as (j & Hq).
  rewrite nth_error_skipn in Hq.
  unfold truncate10 in Hp.
  destruct (Nat.ltb_spec 10 (length ranked)) as [Hlong|Hshort].
  - apply In_nth_error in Hp. destruct Hp as (i & Hp).
    assert (Hi : i < 10).
    { assert (H : i < length (firstn 10 ranked))
        by (apply nth_error_Some; congruence).
      rewrite length_firstn in H. lia. }
    rewrite nth_error_firstn in Hp.
    destruct (Nat.ltb_spec i 10); [|lia].
    apply (Hd i (10 + j) p q); auto. lia.
  - assert (10 + j < length ranked)
      by (apply nth_error_Some; congruence).
    lia.
Qed.

(** Both rankers, on samples whose CPU values are numbers: the
    samples are sorted by CPU value descending and the first ten are
    kept, so those kept are the highest. *)
Lemma ranking_keeps_the_highest (samples : list ProcessInfo) :
  Forall cpu_not_nan samples ->
  exists ranked,
    sort.Slice cpu_greater samples = Ok ranked
    /\ Permutation samples ranked
    /\ descending ranked
    /\ descending (truncate10 ranked)
    /\ length (truncate10 ranked) = Nat.min 10 (length samples)
    /\ none_above (truncate10 ranked) (skipn 10 ranked)
    /\ (length samples <= 12 ->
        ties_in_enumeration_order samples (truncate10 ranked)).
Proof.
  intros Hg.
  destruct (Slice_cpu_sorts Hg) as (ranked & Hrun & Hperm & Hs & Ht).
  assert (Hd : descending ranked).
  { apply sorted_descending; [|exact Hs].
    eapply Permutation_Forall; eauto. }
  exists ranked. repeat split; auto.
  - now apply descending_truncate10.
  - now rewrite truncate10_min, (Permutation_length Hperm).
  - now apply descending_none_above.
  - intros Hlen. apply ties_truncate10. auto.
Qed.

(** ** C2: sorted, stable, truncated *)

(** C2, the claim refuted, twice.  Of thirteen samples of which twelve
    have the CPU value 0, the one with PID 4 is returned before the one
    with PID 1, which was enumerated first: the ties are not in
    enumeration order.  And of three samples with the CPU values 2, NaN
    and 3, the one with 3 is returned last: the list is not sorted
    descending. *)
Lemma ranking_is_not_stable_nor_sorted_with_nan :
  (exists l,
     parseProcessOutput thirteen_rows "linux" = Ok (l, None)
     /\ map PID (parsed_samples thirteen_rows "linux")
        = [1; 2; 3; 4; 5; 6; 7; 8; 9; 10; 11; 12; 13]%Z
     /\ map PID l = [7; 4; 3; 1; 5; 6; 2; 8; 9; 10]%Z
     /\ map CPU l = [5; 0; 0; 0; 0; 0; 0; 0; 0; 0]%float
     /\ ~ ties_in_enumeration_order
            (parsed_samples thirteen_rows "linux") l)
  /\ (exists l,
        parseProcessOutput (rows_with_nan "2.0" "3.0") "linux"
        = Ok (l, None)
        /\ map PID l = [1; 2; 3]%Z
        /\ map CPU l = [2; nan; 3]%float
        /\ ~ descending l).
Proof.
  split.
  - eexists. split; [vm_compute; reflexivity|].
    repeat split; try (vm_compute; reflexivity).
    intros H. destruct (H 0%float) as [rest Hrest].
    vm_compute in Hrest. discriminate Hrest.
  - eexists. split; [vm_compute; reflexivity|].
    repeat split; try (vm_compute; reflexivity).
    intros H.
    specialize (H 0 2 _ _ ltac:(lia) eq_refl eq_refl).
    vm_compute in H. discriminate H.
Qed.

(** C2, as the code has it.  For every collection of parsed process
    samples whose CPU values are numbers, the list returned is the
    collection sorted by CPU value descending and truncated to its
    first ten entries: it holds the ten highest samples, or all of
    them when there are fewer, in descending order, and no sample left
    out has a CPU value above that of a sample returned.  Ties are in
    enumeration order when the collection has at most 12 samples;
    [sort.Slice] promises no order of ties beyond that. *)
Theorem ranked_list_is_sorted_and_truncated (output os : string) :
  Forall cpu_not_nan (parsed_samples output os) ->
  exists l ranked,
    parseProcessOutput output os = Ok (l, None)
    /\ Permutation (parsed_samples output os) ranked
    /\ descending ranked
    /\ l = truncate10 ranked
    /\ descending l
    /\ length l = Nat.min 10 (length (parsed_samples output os))
    /\ none_above l (skipn 10 ranked)
    /\ (length (parsed_samples output os) <= 12 ->
        ties_in_enumeration_order (parsed_samples output os) l).
Proof.
  intros Hg.
  destruct (ranking_keeps_the_highest Hg)
    as (ranked & Hrun & Hperm & Hd & Hdl & Hlen & Habove & Ht).
  exists (truncate10 ranked), ranked. split.
  - unfold parseProcessOutput. rewrite collect_spec. cbn [bindR].
    rewrite Hrun. reflexivity.
  - repeat split; auto.
Qed.

(** Fifteen samples with distinct CPU values: the ten highest are
    returned, in descending order. *)
Example ten_highest_of_fifteen :
  exists l,
    parseProcessOutput
      (ps_output
         (map (fun n => ps_row n (n ++ ".5") ("c" ++ n))
            ["3"; "14"; "7"; "1"; "15"; "9"; "4"; "11"; "2"; "13"; "6";
             "10"; "5"; "12"; "8"]))
      "linux" = Ok (l, None)
    /\ map CPU l
       = [15.5; 14.5; 13.5; 12.5; 11.5; 10.5; 9.5; 8.5; 7.5; 6.5]%float.
Proof. eexists. split; vm_compute; reflexivity. Qed.

Lemma all_cpu_not_nan_of (l : list ProcessInfo) :
  forallb (fun p => not_nan (CPU p)) l = true -> Forall cpu_not_nan l.
Proof.
  rewrite forallb_forall, Forall_forall. auto.
Qed.

(** Eleven rows with the CPU values 11.0 down to 1.0. *)
Lemma ranked_list_is_sorted_and_truncated_witness :
  exists l ranked,
    parseProcessOutput eleven_rows "linux" = Ok (l, None)
    /\ Permutation (parsed_samples eleven_rows "linux") ranked
    /\ descending ranked
    /\ l = truncate10 ranked
    /\ descending l
    /\ length l = Nat.min 10 (length (parsed_samples eleven_rows "linux"))
    /\ none_above l (skipn 10 ranked)
    /\ (length (parsed_samples eleven_rows "linux") <= 12 ->
        ties_in_enumeration_order (parsed_samples eleven_rows "linux") l).
Proof.
  apply (@ranked_list_is_sorted_and_truncated eleven_rows "linux").
  apply all_cpu_not_nan_of. vm_compute. reflexivity.
Defined.

(** The same for the ranker that asks every process directly. *)
Lemma direct_ranker_sorts_and_truncates env st procs :
  process_Processes env = (procs, None) ->
  Forall cpu_not_nan (DirectRanker.collect procs []) ->
  exists l ranked st',
    DirectRanker.getTopCPUProcesses env st = Ok ((l, None), st')
    /\ Permutation (DirectRanker.collect procs []) ranked
    /\ descending ranked
    /\ l = truncate10 ranked
    /\ descending l
    /\ length l = Nat.min 10 (length (DirectRanker.collect procs []))
    /\ none_above l (skipn 10 ranked)
    /\ (length (DirectRanker.collect procs []) <= 12 ->
        ties_in_enumeration_order (DirectRanker.collect procs []) l).
Proof.
  intros Hprocs Hg.
  destruct (ranking_keeps_the_highest Hg)
    as (ranked & Hrun & Hperm & Hd & Hdl & Hlen & Habove & Ht).
  exists (truncate10 ranked), ranked. eexists. split.
  - unfold DirectRanker.getTopCPUProcesses, bind, call_process_Processes,
      bind, emit, ret, lift.
    rewrite Hprocs, Hrun. reflexivity.
  - repeat split; auto.
Qed.

(** ** C7: fewer processes than the limit *)

(** C7, the claim refuted.  Three rows parse, fewer than the limit;
    their CPU columns read 1.0, NaN and 2.0.  All three samples are
    returned, in that order: the last has a greater CPU value than the
    first, so the list is not sorted descending. *)
Lemma three_samples_with_nan_are_not_sorted :
  exists l,
    parseProcessOutput (rows_with_nan "1.0" "2.0") "linux" = Ok (l, None)
    /\ length (parsed_samples (rows_with_nan "1.0" "2.0") "linux") = 3
    /\ map CPU l = [1; nan; 2]%float
    /\ ~ descending l.
Proof.
  eexists. split; [vm_compute; reflexivity|].
  repeat split; try (vm_compute; reflexivity).
  intros H. specialize (H 0 2 _ _ ltac:(lia) eq_refl eq_refl).
  vm_compute in H. discriminate H.
Qed.

(** C7, as the code has it.  For every input with fewer parsable
    processes than the limit of 10 and no CPU value that is NaN, the
    ranker returns all of them, no more and no fewer, sorted by CPU
    value descending, ties in enumeration order. *)
Theorem fewer_than_the_limit_are_all_returned (output os : string) :
  length (parsed_samples output os) < 10 ->
  Forall cpu_not_nan (parsed_samples output os) ->
  exists l,
    parseProcessOutput output os = Ok (l, None)
    /\ Permutation (parsed_samples output os) l
    /\ descending l
    /\ ties_in_enumeration_order (parsed_samples output os) l.
Proof.
  intros Hlen Hg.
  destruct (ranking_spec Hg) as (ranked & Hrun & Hperm & Hd & Hl & Ht).
  assert (E : truncate10 ranked = ranked).
  { apply truncate10_short. rewrite <- (Permutation_length Hperm). lia. }
  rewrite E in *.
  exists ranked. split.
  - unfold parseProcessOutput. rewrite collect_spec. cbn [bindR].
    rewrite Hrun. cbn [bindR]. rewrite E. reflexivity.
  - repeat split; auto. apply Ht. lia.
Qed.

(** The example of the spec: three samples, limit 10. *)
Lemma fewer_than_the_limit_are_all_returned_witness :
  let output :=
    ps_output [ps_row "1" "0.5" "a"; ps_row "2" "7.5" "b";
               ps_row "3" "2.5" "c"] in
  exists l,
    parseProcessOutput output "linux" = Ok (l, None)
    /\ Permutation (parsed_samples output "linux") l
    /\ descending l
    /\ ties_in_enumeration_order (parsed_samples output "linux") l.
Proof.
  cbv zeta.
  apply (@fewer_than_the_limit_are_all_returned
           (ps_output [ps_row "1" "0.5" "a"; ps_row "2" "7.5" "b";
                       ps_row "3" "2.5" "c"]) "linux").
  - vm_compute. lia.
  - apply all_cpu_not_nan_of. vm_compute. reflexivity.
Defined.

Example three_samples_sorted :
  parseProcessOutput
    (ps_output [ps_row "1" "0.5" "a"; ps_row "2" "7.5" "b";
                ps_row "3" "2.5" "c"]) "linux"
  = Ok ([{| PID := 2; CPU := 7.5; Name := "b" |};
         {| PID := 3; CPU := 2.5; Name := "c" |};
         {| PID := 1; CPU := 0.5; Name := "a" |}], None).
Proof. vm_compute. reflexivity. Qed.

End Ranking.

(* ================================================================== *)
(** * More on the check: what a run does and leaves undone *)

Module FloatFacts.

(** A number minus itself is zero, or NaN when it is infinite or NaN. *)
Lemma self_difference x :
  Prim2SF (x - x)%float = S754_zero false
  \/ Prim2SF (x - x)%float = S754_nan.
Proof.
  rewrite FloatAxioms.sub_spec.
  destruct (Prim2SF x) as [s|s| |s m e]; cbn.
  - left. now destruct s.
  - right. now destruct s.
  - now right.
  - left. unfold SF64sub, SFsub. now rewrite Z.sub_diag.
Qed.

(** The percentage that [usage] computes from two such differences is
    NaN. *)
Lemma percent_of_zero_by_zero n d :
  Prim2SF n = S754_zero false \/ Prim2SF n = S754_nan ->
  Prim2SF d = S754_zero false \/ Prim2SF d = S754_nan ->
  Prim2SF (n / d * 100)%float = S754_nan.
Proof.
  intros Hn Hd.
  rewrite FloatAxioms.mul_spec, FloatAxioms.div_spec.
  destruct Hn as [-> | ->], Hd as [-> | ->]; reflexivity.
Qed.

Lemma hundred_minus_nan x :
  Prim2SF x = S754_nan -> Prim2SF (100 - x)%float = S754_nan.
Proof.
  intros Hx. rewrite FloatAxioms.sub_spec, Hx. reflexivity.
Qed.

(** Nothing is above or below NaN. *)
Lemma nan_above_nothing x c : Prim2SF x = S754_nan -> fgt x c = false.
Proof.
  intros Hx. unfold fgt. rewrite FloatAxioms.ltb_spec, Hx.
  unfold SFltb, SFcompare. now destruct (Prim2SF c).
Qed.

Lemma nan_differs_from_itself x : Prim2SF x = S754_nan -> feq x x = false.
Proof.
  intros Hx. unfold feq. rewrite FloatAxioms.eqb_spec, Hx. reflexivity.
Qed.

Lemma SFltb_leb_trans c x y :
  SFltb c x = true -> SFleb x y = true -> SFltb c y = true.
Proof. FloatOrder.sf_cases. Qed.

(** What is above [c] stays above it when it grows. *)
Lemma fgt_fle_trans c x y :
  fgt x c = true -> fle x y = true -> fgt y c = true.
Proof.
  unfold fgt, fle.
  rewrite !FloatAxioms.ltb_spec, FloatAxioms.leb_spec.
  apply SFltb_leb_trans.
Qed.

Lemma SFleb_not_ltb x y : SFleb x y = true -> SFltb y x = false.
Proof. FloatOrder.sf_cases. Qed.

(** What is at most [y] is not above it. *)
Lemma fle_not_fgt x y : fle x y = true -> fgt x y = false.
Proof.
  unfold fgt, fle. rewrite FloatAxioms.ltb_spec, FloatAxioms.leb_spec.
  apply SFleb_not_ltb.
Qed.

Lemma SFltb_above_leb w c x :
  SFltb c x = true -> SFleb w c = true -> SFltb w x = true.
Proof. FloatOrder.sf_cases. Qed.

(** What is above [c] is above what is at most [c]. *)
Lemma fgt_above_fle x c w :
  fgt x c = true -> fle w c = true -> fgt x w = true.
Proof.
  unfold fgt, fle. rewrite !FloatAxioms.ltb_spec, FloatAxioms.leb_spec.
  apply SFltb_above_leb.
Qed.

End FloatFacts.

Section Runs.
Local Open Scope list_scope.
Local Open Scope nat_scope.

(** [parseProcessOutput] returns at most ten samples, whatever it
    reads. *)
Lemma parseProcessOutput_returns (output os : string) :
  exists l, parseProcessOutput output os = Ok (l, None) /\ length l <= 10.
Proof.
  destruct (parseProcessOutput_spec output os)
    as (ranked & _ & _ & Hrun).
  exists (truncate10 ranked). split; [exact Hrun|].
  apply truncate10_length.
Qed.

(** Either ranker returns, takes no snapshot, prints no report and
    hands back at most ten samples. *)
Lemma ranker_run env getTop st :
  ranker_of env getTop ->
  exists top err st' evs,
    getTop st = Ok ((top, err), st')
    /\ times_calls st' = times_calls st
    /\ log st' = log st ++ evs
    /\ reports evs = []
    /\ length top <= 10.
Proof.
  intros [-> | ->].
  - assert (Hcmd : forall name args,
      exists top err st' evs,
        CommandRanker.run_and_parse env name args st = Ok ((top, err), st')
        /\ times_calls st' = times_calls st
        /\ log st' = log st ++ evs
        /\ reports evs = []
        /\ length top <= 10).
    { intros name args.
      unfold CommandRanker.run_and_parse, bind, call_cmd_Output, bind,
        emit, ret.
      destruct (cmd_Output env name args) as [output [e0|]].
      - exists [], (Some (Errorf "error executing command: " e0)).
        eexists. exists [EvExec name args].
        repeat split; cbn; lia.
      - destruct (parseProcessOutput_returns output (runtime_GOOS env))
          as (l & Hrun & Hlen).
        unfold lift. rewrite Hrun.
        exists l, None. eexists. exists [EvExec name args].
        repeat split; auto. }
    unfold CommandRanker.getTopCPUProcesses.
    destruct (String.eqb (runtime_GOOS env) "darwin"
              || String.eqb (runtime_GOOS env) "linux"); [apply Hcmd|].
    destruct (String.eqb (runtime_GOOS env) "windows"); [apply Hcmd|].
    exists [], (Some (Errorf "unsupported operating system: "
                        (runtime_GOOS env))), st, [].
    repeat split; cbn; try lia. now rewrite app_nil_r.
  - unfold DirectRanker.getTopCPUProcesses, bind, call_process_Processes,
      bind, emit, ret.
    destruct (process_Processes env) as [procs [e0|]].
    + exists [], (Some e0). eexists. exists [EvProcesses].
      repeat split; cbn; lia.
    + destruct (SortAny.Slice_run cpu_greater (DirectRanker.collect procs []))
        as (ranked & Hrun & _).
      unfold lift. rewrite Hrun.
      exists (truncate10 ranked), None. eexists. exists [EvProcesses].
      repeat split; auto. apply truncate10_length.
Qed.

Lemma reports_app (l1 l2 : list Event) :
  reports (l1 ++ l2) = reports l1 ++ reports l2.
Proof. apply filter_app. Qed.

Lemma reports_unchanged (l evs : list Event) :
  reports evs = [] -> reports (l ++ evs) = reports l.
Proof. intros H. now rewrite reports_app, H, app_nil_r. Qed.

(** Every way [executeCheck] can go with a ranker that returns. *)
Lemma executeCheck_cases env plugin getTop st :
  ranker_of env getTop ->
  let n := times_calls st in
  let nanos := (Interval plugin * 1000000000)%Z in
  (* the first snapshot fails *)
  (exists l e,
     cpu_Times env n = (l, Some e)
     /\ executeCheck env plugin getTop st
        = Ok ((CheckStateCritical,
               Some (Errorf "error obtaining CPU timings: " e)),
              {| times_calls := S n; log := log st ++ [EvTimes] |}))
  (* the first snapshot is empty *)
  \/ (cpu_Times env n = ([], None)
      /\ executeCheck env plugin getTop st = Panic)
  (* the interval does not fit a duration *)
  \/ (exists s ss e,
        cpu_Times env n = (s :: ss, None)
        /\ (9223372036 < Z.abs (Interval plugin))%Z
        /\ executeCheck env plugin getTop st
           = Ok ((CheckStateCritical,
                  Some (Errorf "error parsing duration: " e)),
                 {| times_calls := S n; log := log st ++ [EvTimes] |}))
  (* the second snapshot fails *)
  \/ (exists s ss l e,
        cpu_Times env n = (s :: ss, None)
        /\ (Z.abs (Interval plugin) <= 9223372036)%Z
        /\ cpu_Times env (S n) = (l, Some e)
        /\ executeCheck env plugin getTop st
           = Ok ((CheckStateCritical,
                  Some (Errorf "error obtaining CPU timings: " e)),
                 {| times_calls := S (S n);
                    log := log st ++ [EvTimes; EvSleep nanos; EvTimes] |}))
  (* the second snapshot is empty *)
  \/ (exists s ss,
        cpu_Times env n = (s :: ss, None)
        /\ (Z.abs (Interval plugin) <= 9223372036)%Z
        /\ cpu_Times env (S n) = ([], None)
        /\ executeCheck env plugin getTop st = Panic)
  (* the ranker fails *)
  \/ (exists s ss e es top err evs,
        cpu_Times env n = (s :: ss, None)
        /\ (Z.abs (Interval plugin) <= 9223372036)%Z
        /\ cpu_Times env (S n) = (e :: es, None)
        /\ reports evs = []
        /\ executeCheck env plugin getTop st
           = Ok ((CheckStateCritical,
                  Some (Errorf "error obtaining top CPU processes: " err)),
                 {| times_calls := S (S n);
                    log := log st ++ [EvTimes; EvSleep nanos; EvTimes]
                           ++ evs |})
        /\ getTop (sampled plugin st)
           = Ok ((top, Some err),
                 {| times_calls := S (S n);
                    log := log st ++ [EvTimes; EvSleep nanos; EvTimes]
                           ++ evs |}))
  (* the report *)
  \/ (exists s ss e es top evs,
        cpu_Times env n = (s :: ss, None)
        /\ (Z.abs (Interval plugin) <= 9223372036)%Z
        /\ cpu_Times env (S n) = (e :: es, None)
        /\ reports evs = []
        /\ length top <= 10
        /\ executeCheck env plugin getTop st
           = Ok ((fst (threshold_status plugin (usedPct (usage s e))),
                  None),
                 {| times_calls := S (S n);
                    log := log st ++ [EvTimes; EvSleep nanos; EvTimes]
                           ++ evs
                           ++ [EvPrintf
                                 (snd (threshold_status plugin
                                         (usedPct (usage s e))))
                                 (usedPct (usage s e))
                                 (perfData (usage s e)) top] |})).
Proof.
  intros Hr n nanos.
  destruct (cpu_Times env n) as [[|s ss] [e1|]] eqn:H1.
  - left. exists [], e1. split; [reflexivity|].
    unfold executeCheck, bind, call_cpu_Times. fold n. now rewrite H1.
  - right. left. split; [reflexivity|].
    unfold executeCheck, bind, call_cpu_Times. fold n. now rewrite H1.
  - left. exists (s :: ss), e1. split; [reflexivity|].
    unfold executeCheck, bind, call_cpu_Times. fold n. now rewrite H1.
  - do 2 right.
    assert (Hd : ParseDuration_seconds (Interval plugin)
                 = if (Z.abs (Interval plugin) >? 9223372036)%Z
                   then (0%Z, Some "time: invalid duration")
                   else (nanos, None)) by reflexivity.
    destruct (Z.abs (Interval plugin) >? 9223372036)%Z eqn:Hbig.
    { left. exists s, ss, "time: invalid duration".
      split; [reflexivity|]. split; [lia|].
      unfold executeCheck, bind, call_cpu_Times. fold n. rewrite H1.
      cbn [lift index nth_error]. now rewrite Hd. }
    right.
    assert (Hfit : (Z.abs (Interval plugin) <= 9223372036)%Z) by lia.
    assert (Hstart : forall r,
      (forall st1,
         st1 = {| times_calls := S (S n);
                  log := log st ++ [EvTimes; EvSleep nanos; EvTimes] |} ->
         (let '(end_, err) := cpu_Times env (S n) in
          match err with
          | Some e =>
              ret (CheckStateCritical,
                   Some (Errorf "error obtaining CPU timings: " e))
          | None =>
              bind (lift (index end_ 0)) (fun end0 =>
              let u := usage s end0 in
              bind getTop (fun x =>
              let '(topProcesses, err) := x in
              match err with
              | Some e =>
                  ret (CheckStateCritical,
                       Some (Errorf "error obtaining top CPU processes: "
                               e))
              | None =>
                  if fgt (usedPct u) (Critical plugin) then
                    bind (emit (EvPrintf "Critical" (usedPct u) (perfData u)
                            topProcesses)) (fun _ =>
                    ret (CheckStateCritical, None))
                  else if fgt (usedPct u) (Warning plugin) then
                    bind (emit (EvPrintf "Warning" (usedPct u) (perfData u)
                            topProcesses)) (fun _ =>
                    ret (CheckStateWarning, None))
                  else
                    bind (emit (EvPrintf "OK" (usedPct u) (perfData u)
                            topProcesses)) (fun _ =>
                    ret (CheckStateOK, None))
              end))
          end) st1 = r) ->
      executeCheck env plugin getTop st = r).
    { intros r Hrest.
      unfold executeCheck, bind at 1, call_cpu_Times. fold n. rewrite H1.
      unfold bind at 1. cbn [lift index nth_error]. rewrite Hd.
      unfold bind at 1, emit. cbn [times_calls log].
      unfold bind at 1. cbn [times_calls log].
      rewrite <- (Hrest _ eq_refl).
      rewrite <- !app_assoc. cbn [app].
      destruct (cpu_Times env (S n)) as [end_ [e2|]]; reflexivity. }
    destruct (cpu_Times env (S n)) as [[|e es] [e2|]] eqn:H2.
    + left. exists s, ss, [], e2. repeat split; auto;
        apply Hstart; intros st1 ->; reflexivity.
    + right. left. exists s, ss. repeat split; auto;
        apply Hstart; intros st1 ->; reflexivity.
    + left. exists s, ss, (e :: es), e2. repeat split; auto;
        apply Hstart; intros st1 ->; reflexivity.
    + do 2 right.
      destruct (ranker_run
                  {| times_calls := S (S n);
                     log := log st ++ [EvTimes; EvSleep nanos; EvTimes] |}
                  Hr)
        as (top & err & st' & evs & Hrun & Htc & Hlog & Hrep & Hlen).
      cbn [times_calls log] in Htc, Hlog.
      assert (Hst' : st' = {| times_calls := S (S n);
                              log := log st
                                     ++ [EvTimes; EvSleep nanos; EvTimes]
                                     ++ evs |}).
      { destruct st' as [tc lg]. cbn in Htc, Hlog. subst tc lg.
        now rewrite <- app_assoc. }
      assert (Hsampled : sampled plugin st
                         = {| times_calls := S (S n);
                              log := log st
                                     ++ [EvTimes; EvSleep nanos; EvTimes] |}).
      { unfold sampled. rewrite Hd. cbn [fst]. fold n.
        now rewrite <- !app_assoc. }
      destruct err as [err|].
      * left. exists s, ss, e, es, top, err, evs.
        repeat split; auto.
        -- apply Hstart. intros st1 ->.
           unfold bind at 1. cbn [lift index nth_error].
           unfold bind at 1. rewrite Hrun, Hst'. reflexivity.
        -- now rewrite Hsampled, Hrun, Hst'.
      * right. exists s, ss, e, es, top, evs.
        repeat split; auto.
        apply Hstart. intros st1 ->.
        unfold bind at 1. cbn [lift index nth_error].
        unfold bind at 1. rewrite Hrun, Hst'.
        unfold threshold_status.
        destruct (fgt (usedPct (usage s e)) (Critical plugin));
          [unfold bind, emit, ret; cbn [times_calls log fst snd];
           now rewrite <- !app_assoc|].
        destruct (fgt (usedPct (usage s e)) (Warning plugin));
          unfold bind, emit, ret; cbn [times_calls log fst snd];
          now rewrite <- !app_assoc.
Qed.


(** ** X1: a run that fails *)

(** X1.  With either ranker, whenever [executeCheck] returns an error
    its status is CRITICAL and it has printed no report: the reports
    on standard output are those that were there before. *)
Theorem a_failed_run_is_critical_and_prints_nothing
  env plugin getTop st status err st' :
  ranker_of env getTop ->
  executeCheck env plugin getTop st = Ok ((status, Some err), st') ->
  status = CheckStateCritical /\ reports (log st') = reports (log st).
Proof.
  intros Hr Hrun.
  destruct (executeCheck_cases plugin st Hr)
    as [(l & e & _ & H) | [(_ & H) | [(s & ss & e & _ & _ & H)
       | [(s & ss & l & e & _ & _ & _ & H) | [(s & ss & _ & _ & _ & H)
       | [(s & ss & e & es & top & e0 & evs & _ & _ & _ & Hrep & H & _)
       | (s & ss & e & es & top & evs & _ & _ & _ & _ & _ & H)]]]]]];
    rewrite H in Hrun; try discriminate Hrun;
    injection Hrun as <- _ <-; (split; [reflexivity|]);
    cbn [log]; apply reports_unchanged; try reflexivity.
  exact Hrep.
Qed.

(** On a host where [ps] fails, the check is CRITICAL and prints
    nothing. *)
Lemma a_failed_run_is_critical_and_prints_nothing_witness :
  let s := snapshot 0%float 0%float 0%float in
  let e := snapshot 0%float 80%float 20%float in
  let env := host_without_ps s e in
  exists status err st',
    executeCheck env thresholds_90_75
      (CommandRanker.getTopCPUProcesses env) initial
    = Ok ((status, Some err), st')
    /\ status = CheckStateCritical
    /\ reports (log st') = reports (log initial).
Proof.
  cbv zeta. do 3 eexists. split; [vm_compute; reflexivity|].
  eapply (@a_failed_run_is_critical_and_prints_nothing
            (host_without_ps (snapshot 0%float 0%float 0%float)
               (snapshot 0%float 80%float 20%float))
            thresholds_90_75 _ initial);
    [left; reflexivity | vm_compute; reflexivity].
Defined.

(** ** X2: a run that succeeds *)



(** ** X3: the snapshot that is empty *)

(** X3.  [executeCheck] reads [start[0]] and [end[0]] without looking
    at the length of what [cpu.Times] returned.  With either ranker it
    panics exactly when [cpu.Times] returns an empty slice and a nil
    error, at its first call or, once the interval was slept, at its
    second. *)
Theorem the_check_panics_exactly_on_an_empty_snapshot
  env plugin getTop st :
  ranker_of env getTop ->
  (executeCheck env plugin getTop st = Panic <->
   cpu_Times env (times_calls st) = ([], None)
   \/ (exists s ss, cpu_Times env (times_calls st) = (s :: ss, None))
      /\ (Z.abs (Interval plugin) <= 9223372036)%Z
      /\ cpu_Times env (S (times_calls st)) = ([], None)).
Proof.
  intros Hr.
  destruct (executeCheck_cases plugin st Hr)
    as [(l & e & H1 & H) | [(H1 & H) | [(s & ss & e & H1 & Hd & H)
       | [(s & ss & l & e & H1 & Hd & H2 & H)
       | [(s & ss & H1 & Hd & H2 & H)
       | [(s & ss & e & es & top & e0 & evs & H1 & Hd & H2 & _ & H & _)
       | (s & ss & e & es & top & evs & H1 & Hd & H2 & _ & _ & H)]]]]]];
    rewrite H, H1; try rewrite H2; split;
    try discriminate; try tauto;
    try (intros [Hx | ((s' & ss' & Hx) & Hy & Hz)];
         try discriminate; try lia).
  right. split; [|split]; eauto.
Qed.

(** A host whose [cpu.Times] answers an empty slice: the check
    panics. *)
Lemma the_check_panics_exactly_on_an_empty_snapshot_witness :
  executeCheck host_without_counters thresholds_90_75
    (CommandRanker.getTopCPUProcesses host_without_counters) initial
  = Panic.
Proof.
  apply (proj2 (@the_check_panics_exactly_on_an_empty_snapshot
                  host_without_counters thresholds_90_75
                  (CommandRanker.getTopCPUProcesses host_without_counters)
                  initial (or_introl eq_refl))).
  left. reflexivity.
Defined.

(** ** X4: an interval that is no duration *)

(** X4.  An interval of more than 9223372036 seconds, in either
    direction, does not fit a [time.Duration]: once the first
    snapshot is taken the check fails, CRITICAL, without sleeping,
    without a second snapshot, without asking for the processes and
    without a report.  [checkArgs] lets such an interval through. *)
Theorem an_interval_too_long_fails_after_the_first_snapshot
  env plugin getTop st s ss :
  cpu_Times env (times_calls st) = (s :: ss, None) ->
  (9223372036 < Z.abs (Interval plugin))%Z ->
  (exists err,
     executeCheck env plugin getTop st
     = Ok ((CheckStateCritical, Some err),
           {| times_calls := S (times_calls st);
              log := log st ++ [EvTimes] |}))
  /\ checkArgs {| Critical := 90; Warning := 75;
                  Interval := Interval plugin |}
     = (CheckStateOK, None).
Proof.
  intros H1 Hbig. split.
  - exists (Errorf "error parsing duration: " "time: invalid duration").
    unfold executeCheck, bind, call_cpu_Times. rewrite H1.
    cbn [lift index nth_error]. unfold ParseDuration_seconds.
    destruct (Z.abs (Interval plugin) >? 9223372036)%Z eqn:E;
      [reflexivity | lia].
  - apply checkArgs_accepts. cbn [Critical Warning Interval].
    assert (E : (Interval plugin =? 0)%Z = false) by lia.
    rewrite E. reflexivity.
Qed.

(** An interval of 10^10 seconds. *)
Lemma an_interval_too_long_fails_after_the_first_snapshot_witness :
  let s := snapshot 0%float 0%float 0%float in
  let plugin :=
    {| Critical := 90; Warning := 75; Interval := 10000000000 |} in
  (exists err,
     executeCheck (small_host s s) plugin
       (CommandRanker.getTopCPUProcesses (small_host s s)) initial
     = Ok ((CheckStateCritical, Some err),
           {| times_calls := 1; log := [EvTimes] |}))
  /\ checkArgs plugin = (CheckStateOK, None).
Proof.
  cbv zeta.
  apply (@an_interval_too_long_fails_after_the_first_snapshot
           (small_host (snapshot 0%float 0%float 0%float)
              (snapshot 0%float 0%float 0%float))
           {| Critical := 90; Warning := 75; Interval := 10000000000 |}
           (CommandRanker.getTopCPUProcesses
              (small_host (snapshot 0%float 0%float 0%float)
                 (snapshot 0%float 0%float 0%float)))
           initial (snapshot 0%float 0%float 0%float) []);
    [reflexivity | vm_compute; reflexivity].
Defined.

(** ** X5: two snapshots that are the same *)

(** X5.  When the two snapshots are the same, whatever their counters
    and whatever the thresholds, every percentage the check computes
    is NaN and the status it returns is OK. *)
Theorem identical_snapshots_always_report_ok
  env plugin getTop st s ss es top st' :
  cpu_Times env (times_calls st) = (s :: ss, None) ->
  snd (ParseDuration_seconds (Interval plugin)) = None ->
  cpu_Times env (S (times_calls st)) = (s :: es, None) ->
  getTop (sampled plugin st) = Ok ((top, None), st') ->
  executeCheck env plugin getTop st
  = Ok ((CheckStateOK, None), reported plugin (usage s s) top st')
  /\ not_nan (usedPct (usage s s)) = false
  /\ Forall (fun p => not_nan p = false) (categories (usage s s)).
Proof.
  intros H1 Hd H2 Htop.
  assert (Hpct : forall x, Prim2SF
            ((x - x) / (total s - total s) * 100)%float = S754_nan).
  { intros x. apply FloatFacts.percent_of_zero_by_zero;
      apply FloatFacts.self_difference. }
  assert (Hused : Prim2SF (usedPct (usage s s)) = S754_nan).
  { apply FloatFacts.hundred_minus_nan, Hpct. }
  split; [|split].
  - rewrite (executeCheck_success env plugin getTop st H1 Hd H2 Htop).
    unfold threshold_status.
    now rewrite (@FloatFacts.nan_above_nothing _ (Critical plugin) Hused),
      (@FloatFacts.nan_above_nothing _ (Warning plugin) Hused).
  - apply FloatFacts.nan_differs_from_itself, Hused.
  - unfold categories.
    repeat (constructor;
            [apply FloatFacts.nan_differs_from_itself, Hpct|]).
    constructor.
Qed.

(** Two readings of counters at 1000 and 5000 seconds, thresholds
    whatever: here -1 and -2. *)
Lemma identical_snapshots_always_report_ok_witness :
  let s := snapshot 0%float 1000%float 5000%float in
  let plugin := {| Critical := (-1)%float; Warning := (-2)%float;
                   Interval := 2 |} in
  exists st'',
    executeCheck (small_host s s) plugin
      (CommandRanker.getTopCPUProcesses (small_host s s)) initial
    = Ok ((CheckStateOK, None), st'')
    /\ not_nan (usedPct (usage s s)) = false
    /\ Forall (fun p => not_nan p = false) (categories (usage s s)).
Proof.
  cbv zeta. eexists.
  eapply (@identical_snapshots_always_report_ok
            (small_host (snapshot 0%float 1000%float 5000%float)
               (snapshot 0%float 1000%float 5000%float))
            {| Critical := (-1)%float; Warning := (-2)%float;
               Interval := 2 |}
            _ initial
            (snapshot 0%float 1000%float 5000%float) [] [] [init_process]);
    vm_compute; reflexivity.
Defined.

(** ** X6: the status grows with the usage *)

(** X6.  Of two runs with the same thresholds, the one whose used
    percentage is less than or equal to the other's never gets the
    more severe status: OK, WARNING and CRITICAL are handed out in the
    order of the used percentage, whatever the thresholds are. *)
Theorem a_busier_cpu_never_gets_a_milder_status plugin
  env getTop st s ss e es top st1
  env' getTop' st' s' ss' e' es' top' st1' :
  cpu_Times env (times_calls st) = (s :: ss, None) ->
  cpu_Times env (S (times_calls st)) = (e :: es, None) ->
  getTop (sampled plugin st) = Ok ((top, None), st1) ->
  cpu_Times env' (times_calls st') = (s' :: ss', None) ->
  cpu_Times env' (S (times_calls st')) = (e' :: es', None) ->
  getTop' (sampled plugin st') = Ok ((top', None), st1') ->
  snd (ParseDuration_seconds (Interval plugin)) = None ->
  fle (usedPct (usage s e)) (usedPct (usage s' e')) = true ->
  exists status status' r r',
    executeCheck env plugin getTop st = Ok ((status, None), r)
    /\ executeCheck env' plugin getTop' st' = Ok ((status', None), r')
    /\ (status <= status')%Z.
Proof.
  intros H1 H2 H3 H1' H2' H3' Hd Hle.
  do 4 eexists. split; [|split].
  - exact (executeCheck_success env plugin getTop st H1 Hd H2 H3).
  - exact (executeCheck_success env' plugin getTop' st' H1' Hd H2' H3').
  - unfold threshold_status.
    destruct (fgt (usedPct (usage s e)) (Critical plugin)) eqn:Ec.
    + now rewrite (@FloatFacts.fgt_fle_trans _ _ _ Ec Hle).
    + destruct (fgt (usedPct (usage s e)) (Warning plugin)) eqn:Ew.
      * rewrite (@FloatFacts.fgt_fle_trans _ _ _ Ew Hle).
        destruct (fgt (usedPct (usage s' e')) (Critical plugin));
          cbn; unfold CheckStateWarning, CheckStateCritical; lia.
      * destruct (fgt (usedPct (usage s' e')) (Critical plugin));
          [cbn; unfold CheckStateOK, CheckStateCritical; lia|].
        destruct (fgt (usedPct (usage s' e')) (Warning plugin));
          cbn; unfold CheckStateOK, CheckStateWarning; lia.
Qed.

(** 50% used against 80% used. *)
Lemma a_busier_cpu_never_gets_a_milder_status_witness :
  let z := snapshot 0%float 0%float 0%float in
  let half := snapshot 0%float 50%float 50%float in
  let most := snapshot 0%float 80%float 20%float in
  exists status status' r r',
    executeCheck (small_host z half) thresholds_90_75
      (CommandRanker.getTopCPUProcesses (small_host z half)) initial
    = Ok ((status, None), r)
    /\ executeCheck (small_host z most) thresholds_90_75
         (CommandRanker.getTopCPUProcesses (small_host z most)) initial
       = Ok ((status', None), r')
    /\ (status <= status')%Z.
Proof.
  cbv zeta.
  eapply (@a_busier_cpu_never_gets_a_milder_status thresholds_90_75
            (small_host (snapshot 0%float 0%float 0%float)
               (snapshot 0%float 50%float 50%float))
            _ initial
            (snapshot 0%float 0%float 0%float) []
            (snapshot 0%float 50%float 50%float) [] [init_process] _
            (small_host (snapshot 0%float 0%float 0%float)
               (snapshot 0%float 80%float 20%float))
            _ initial
            (snapshot 0%float 0%float 0%float) []
            (snapshot 0%float 80%float 20%float) [] [init_process] _);
    vm_compute; reflexivity.
Defined.

(** ** X7: a ranker that fails *)

(** X7.  On an operating system that is none of darwin, linux and
    windows, every check whose two snapshots succeed is CRITICAL: it
    sleeps the interval, takes both snapshots, starts no command,
    prints no report and returns the error of [getTopCPUProcesses],
    whatever the CPU usage was. *)
Theorem an_unsupported_system_fails_every_check env plugin st s ss e es :
  supported (runtime_GOOS env) = false ->
  cpu_Times env (times_calls st) = (s :: ss, None) ->
  snd (ParseDuration_seconds (Interval plugin)) = None ->
  cpu_Times env (S (times_calls st)) = (e :: es, None) ->
  executeCheck env plugin (CommandRanker.getTopCPUProcesses env) st
  = Ok ((CheckStateCritical,
         Some ("error obtaining top CPU processes: "
               ++ "unsupported operating system: "
               ++ runtime_GOOS env)%string),
        sampled plugin st).
Proof.
  intros Hos H1 Hd H2.
  unfold supported, is_unix, is_windows in Hos.
  apply orb_false_elim in Hos. destruct Hos as [Hu Hw].
  unfold executeCheck, bind, call_cpu_Times. cbn [times_calls].
  rewrite H1. cbn [lift index nth_error].
  destruct (ParseDuration_seconds (Interval plugin)) as [d err] eqn:Hpd.
  cbn [snd] in Hd. subst err.
  unfold emit. cbn [times_calls log]. rewrite H2.
  cbn [lift index nth_error].
  unfold CommandRanker.getTopCPUProcesses. rewrite Hu, Hw.
  unfold ret, sampled. rewrite Hpd. reflexivity.
Qed.

(** The same host as before, were it to run Plan 9. *)
Lemma an_unsupported_system_fails_every_check_witness :
  let env := host_on "plan9" in
  executeCheck env thresholds_90_75
    (CommandRanker.getTopCPUProcesses env) initial
  = Ok ((CheckStateCritical,
         Some ("error obtaining top CPU processes: "
               ++ "unsupported operating system: "
               ++ runtime_GOOS env)%string),
        sampled thresholds_90_75 initial).
Proof.
  cbv zeta.
  apply (@an_unsupported_system_fails_every_check (host_on "plan9")
           thresholds_90_75 initial
           (snapshot 0%float 0%float 0%float) []
           (snapshot 0%float 80%float 20%float) []);
    reflexivity.
Defined.

(** X8.  When the command of the ranker fails ([ps] or [tasklist]
    missing, or exiting with an error), every check whose two
    snapshots succeed is CRITICAL and prints no report, whatever the
    CPU usage was and whatever the command had written. *)
Theorem a_failing_command_fails_every_check
  env plugin st s ss e es output err :
  supported (runtime_GOOS env) = true ->
  (forall name args, cmd_Output env name args = (output, Some err)) ->
  cpu_Times env (times_calls st) = (s :: ss, None) ->
  snd (ParseDuration_seconds (Interval plugin)) = None ->
  cpu_Times env (S (times_calls st)) = (e :: es, None) ->
  exists st',
    executeCheck env plugin (CommandRanker.getTopCPUProcesses env) st
    = Ok ((CheckStateCritical,
           Some ("error obtaining top CPU processes: "
                 ++ "error executing command: " ++ err)%string), st')
    /\ reports (log st') = reports (log st).
Proof.
  intros Hos Hcmd H1 Hd H2.
  unfold supported, is_unix, is_windows in Hos.
  unfold executeCheck, bind, call_cpu_Times. cbn [times_calls].
  rewrite H1. cbn [lift index nth_error].
  destruct (ParseDuration_seconds (Interval plugin)) as [d e0] eqn:Hpd.
  cbn [snd] in Hd. subst e0.
  unfold emit. cbn [times_calls log]. rewrite H2.
  cbn [lift index nth_error].
  unfold CommandRanker.getTopCPUProcesses.
  destruct (String.eqb (runtime_GOOS env) "darwin"
            || String.eqb (runtime_GOOS env) "linux").
  - unfold CommandRanker.run_and_parse, bind, call_cmd_Output, bind,
      emit, ret. rewrite Hcmd. cbn [times_calls log].
    eexists. split; [reflexivity|]. cbn [log].
    rewrite <- !app_assoc. now apply reports_unchanged.
  - cbn [orb] in Hos. rewrite Hos.
    unfold CommandRanker.run_and_parse, bind, call_cmd_Output, bind,
      emit, ret. rewrite Hcmd. cbn [times_calls log].
    eexists. split; [reflexivity|]. cbn [log].
    rewrite <- !app_assoc. now apply reports_unchanged.
Qed.

(** The host whose [ps] exits with status 1. *)
Lemma a_failing_command_fails_every_check_witness :
  let s := snapshot 0%float 0%float 0%float in
  let e := snapshot 0%float 80%float 20%float in
  let env := host_without_ps s e in
  exists st',
    executeCheck env thresholds_90_75
      (CommandRanker.getTopCPUProcesses env) initial
    = Ok ((CheckStateCritical,
           Some ("error obtaining top CPU processes: "
                 ++ "error executing command: "
                 ++ "exit status 1")%string), st')
    /\ reports (log st') = reports (log initial).
Proof.
  cbv zeta.
  apply (@a_failing_command_fails_every_check
           (host_without_ps (snapshot 0%float 0%float 0%float)
              (snapshot 0%float 80%float 20%float))
           thresholds_90_75 initial
           (snapshot 0%float 0%float 0%float) []
           (snapshot 0%float 80%float 20%float) [] "" "exit status 1");
    reflexivity.
Defined.

End Runs.
(* ================================================================== *)
(** * More of the sampler: the range of a percentage *)

Section Range.
Local Open Scope list_scope.

(** One percentage, when the counter gained no more than the total. *)
Lemma percent_in_range (d T : float) :
  counted d = true -> counted T = true -> (0 < value T)%Q ->
  (value d <= value T)%Q ->
  finite (d / T * 100) = true
  /\ (0 <= value (d / T * 100))%Q
  /\ (value (d / T * 100) <= 100 + (1 # 1000000000000))%Q.
Proof.
  intros Hd HT Hpos Hle.
  destruct (@Percentages.percent_value d T Hd HT Hpos Hle)
    as (Hc & _ & Hu).
  pose proof (@Percentages.value_nonneg _ Hd) as Hd0.
  assert (Hv0 : (0 <= value d / value T)%Q)
    by (apply Qle_shift_div_l; [exact Hpos|lra]).
  assert (Hv1 : (value d / value T <= 1)%Q)
    by (apply Qle_shift_div_r; [exact Hpos|lra]).
  split; [now apply Percentages.counted_finite|].
  split; [now apply Percentages.value_nonneg|].
  pose proof Percentages.tiny as Htiny.
  set (v := (value d / value T)%Q) in *.
  set (w := value (d / T * 100)) in *.
  set (eta := pow2 (-1074)) in *.
  clearbody v w eta. lra.
Qed.

(** X9.  When every counter gains a finite amount that is not negative
    and not above the total delta, and the total delta is finite and
    positive, every one of the ten percentages that [executeCheck]
    computes is a finite number between 0 and 100, up to 10^-12 on the
    upper side. *)
Theorem every_percentage_lies_between_0_and_100 (A B : TimesStat float) :
  let d := delta A B in
  let T := diff A B in
  (forall c, In c counters ->
     finite (d c) = true /\ fle 0 (d c) = true
     /\ (value (d c) <= value T)%Q) ->
  finite T = true ->
  fgt T 0 = true ->
  forall p, In p (categories (usage A B)) ->
    finite p = true
    /\ (0 <= value p)%Q
    /\ (value p <= 100 + (1 # 1000000000000))%Q.
Proof.
  intros d T Hd HT Hpos p Hp.
  destruct (@Percentages.counted_of_fgt T HT Hpos) as [CT HposQ].
  assert (R : forall c, In c counters ->
            finite (d c / T * 100) = true
            /\ (0 <= value (d c / T * 100))%Q
            /\ (value (d c / T * 100) <= 100 + (1 # 1000000000000))%Q).
  { intros c Hc. destruct (Hd c Hc) as (Hf & H0 & Hle).
    apply percent_in_range; try assumption.
    now apply Percentages.counted_of_fle. }
  change (categories (usage A B))
    with (map (fun c => (d c / T * 100)%float) counters) in Hp.
  apply in_map_iff in Hp. destruct Hp as (c & <- & Hc).
  now apply R.
Qed.

(** The snapshots in which all ten counters advance. *)
Lemma every_percentage_lies_between_0_and_100_witness :
  Forall (fun p => finite p = true
                   /\ (0 <= value p)%Q
                   /\ (value p <= 100 + (1 # 1000000000000))%Q)
    (categories (usage ten_counters_start ten_counters_end)).
Proof.
  apply Forall_forall.
  apply (@every_percentage_lies_between_0_and_100
           ten_counters_start ten_counters_end).
  - intros c Hc. unfold counters in Hc. cbn [In] in Hc.
    repeat (destruct Hc as [<-|Hc];
            [repeat split; vm_compute; first [reflexivity|discriminate]|]).
    destruct Hc.
  - vm_compute. reflexivity.
  - vm_compute. reflexivity.
Defined.

End Range.


(* ================================================================== *)
(** * More on the text functions *)

Module StringFacts.
Local Open Scope list_scope.

Lemma append_nil_r (s : string) : (s ++ "")%string = s.
Proof. induction s as [|c s IH]; cbn; [reflexivity|now rewrite IH]. Qed.

Lemma append_assoc (a b c : string) :
  ((a ++ b) ++ c)%string = (a ++ b ++ c)%string.
Proof. induction a as [|x a IH]; cbn; [reflexivity|now rewrite IH]. Qed.

Lemma bytes_app (a b : string) :
  bytes (a ++ b)%string = bytes a ++ bytes b.
Proof.
  unfold bytes. induction a as [|x a IH]; cbn; [reflexivity|now rewrite IH].
Qed.

(** *** [strings.Split] *)

Lemma Join_cons e rest sep :
  rest <> [] -> Join (e :: rest) sep = (e ++ sep ++ Join rest sep)%string.
Proof. destruct rest; [congruence|reflexivity]. Qed.

Lemma Split_from_join cur s sep :
  Join (strings.Split_from cur s sep) (String sep "")
  = (cur ++ s)%string.
Proof.
  revert cur. induction s as [|c s IH]; intros cur; cbn.
  - now rewrite append_nil_r.
  - destruct (Ascii.eqb_spec c sep) as [->|Hne].
    + rewrite Join_cons by apply Split_from_not_nil.
      rewrite IH. reflexivity.
    + rewrite IH, append_assoc. reflexivity.
Qed.

Lemma Split_from_no_sep cur s sep :
  ~ In sep (bytes cur) ->
  Forall (fun piece => ~ In sep (bytes piece))
    (strings.Split_from cur s sep).
Proof.
  revert cur. induction s as [|c s IH]; intros cur Hcur; cbn.
  - constructor; [exact Hcur|constructor].
  - destruct (Ascii.eqb_spec c sep) as [->|Hne].
    + constructor; [exact Hcur|]. apply IH. intros [].
    + apply IH. rewrite bytes_app. cbn. intros H.
      apply in_app_or in H. destruct H as [H|[H|[]]]; [tauto|congruence].
Qed.

(** The pieces hold bytes of the text only. *)
Lemma Split_from_bytes cur s sep :
  Forall (fun piece => forall y, In y (bytes piece) ->
            In y (bytes cur) \/ In y (bytes s))
    (strings.Split_from cur s sep).
Proof.
  revert cur. induction s as [|c s IH]; intros cur;
    cbn [strings.Split_from].
  - constructor; [tauto|constructor].
  - destruct (Ascii.eqb c sep).
    + constructor; [tauto|].
      eapply Forall_impl; [|apply (IH ""%string)].
      cbn beta. intros piece Hpiece y Hy.
      destruct (Hpiece y Hy) as [[]|Hs]. right. now right.
    + eapply Forall_impl; [|apply (IH (cur ++ String c "")%string)].
      cbn beta. intros piece Hpiece y Hy.
      destruct (Hpiece y Hy) as [Hc|Hs]; [|right; now right].
      rewrite bytes_app in Hc. apply in_app_or in Hc.
      destruct Hc as [Hc|[Hc|[]]]; [now left|right; now left].
Qed.

(** The first piece ends at the first separator. *)
Lemma Split_from_first cur a b sep :
  ~ In sep (bytes a) ->
  strings.Split_from cur (a ++ String sep b) sep
  = (cur ++ a)%string :: strings.Split_from "" b sep.
Proof.
  revert cur. induction a as [|c a IH]; intros cur Ha; cbn.
  - rewrite Ascii.eqb_refl, append_nil_r. reflexivity.
  - destruct (Ascii.eqb_spec c sep) as [->|Hne].
    + exfalso. apply Ha. cbn. now left.
    + rewrite IH, append_assoc; [reflexivity|].
      intros H. apply Ha. cbn. now right.
Qed.

Lemma Split_from_single cur a sep :
  ~ In sep (bytes a) ->
  strings.Split_from cur a sep = [(cur ++ a)%string].
Proof.
  revert cur. induction a as [|c a IH]; intros cur Ha; cbn.
  - now rewrite append_nil_r.
  - destruct (Ascii.eqb_spec c sep) as [->|Hne].
    + exfalso. apply Ha. cbn. now left.
    + rewrite IH, append_assoc; [reflexivity|].
      intros H. apply Ha. cbn. now right.
Qed.

(** *** [strings.Fields] *)

(** A field: not empty, and without white space of one byte. *)
Definition word (f : string) : Prop :=
  f <> ""%string /\ forallb (fun c => negb (is_ascii_space c)) (bytes f) = true.

Lemma space_width_of_space c s :
  is_ascii_space c = true -> strings.space_width (String c s) = Some 1%nat.
Proof.
  unfold is_ascii_space, strings.space_width. cbv zeta.
  intros ->. reflexivity.
Qed.

Lemma word_snoc (cur : option string) (c : ascii) :
  match cur with Some f => word f | None => True end ->
  is_ascii_space c = false ->
  word (match cur with Some f => f | None => ""%string end
        ++ String c "")%string.
Proof.
  intros Hcur Hc. split.
  - destruct cur as [[|x f]|]; cbn; discriminate.
  - rewrite bytes_app, forallb_app. cbn. rewrite Hc. cbn.
    destruct cur as [f|]; [|reflexivity].
    destruct Hcur as [_ ->]. reflexivity.
Qed.

Lemma Fields_from_words skip cur s :
  match cur with Some f => word f | None => True end ->
  Forall word (strings.Fields_from skip cur s).
Proof.
  revert skip cur.
  induction s as [|c s IH]; intros skip cur Hcur.
  - cbn. destruct cur; [constructor; [exact Hcur|]|]; constructor.
  - cbn [strings.Fields_from]. destruct skip as [|k]; [|now apply IH].
    destruct (strings.space_width (String c s)) as [w|] eqn:E.
    + destruct cur as [f|].
      * constructor; [exact Hcur|]. now apply IH.
      * now apply IH.
    + apply IH. apply (word_snoc cur); [exact Hcur|].
      destruct (is_ascii_space c) eqn:Hc; [|reflexivity].
      rewrite (@space_width_of_space c s Hc) in E. discriminate.
Qed.

Lemma Fields_words s : Forall word (strings.Fields s).
Proof. now apply Fields_from_words. Qed.

(** *** [strings.Trim] *)

Lemma TrimLeft_first s c : first_byte (strings.TrimLeft s c) <> Some c.
Proof.
  induction s as [|x s IH]; cbn; [discriminate|].
  destruct (Ascii.eqb_spec x c) as [->|Hne]; [exact IH|].
  cbn. congruence.
Qed.

Lemma TrimRight_first s c :
  first_byte s <> Some c -> first_byte (strings.TrimRight s c) <> Some c.
Proof.
  destruct s as [|x s]; cbn; [discriminate|].
  intros Hx. destruct (strings.TrimRight s c); [|exact Hx].
  destruct (Ascii.eqb x c); [discriminate|exact Hx].
Qed.

Lemma TrimRight_last s c : last_byte (strings.TrimRight s c) <> Some c.
Proof.
  induction s as [|x s IH]; cbn [strings.TrimRight]; [discriminate|].
  destruct (strings.TrimRight s c) as [|y t] eqn:E.
  - destruct (Ascii.eqb_spec x c) as [->|Hne]; cbn; congruence.
  - exact IH.
Qed.

Lemma TrimLeft_bytes s c x :
  In x (bytes (strings.TrimLeft s c)) -> In x (bytes s).
Proof.
  induction s as [|y s IH]; cbn; [auto|].
  destruct (Ascii.eqb y c); [intros H; right; auto|auto].
Qed.

Lemma TrimRight_bytes s c x :
  In x (bytes (strings.TrimRight s c)) -> In x (bytes s).
Proof.
  induction s as [|y s IH]; cbn [strings.TrimRight]; [auto|].
  destruct (strings.TrimRight s c) as [|z t] eqn:E.
  - destruct (Ascii.eqb y c); cbn; [tauto|]. intros [H|[]]. now left.
  - cbn [bytes list_ascii_of_string In] in *.
    intros [H|H]; [now left|right; auto].
Qed.

Lemma Trim_ends s c :
  first_byte (strings.Trim s c) <> Some c
  /\ last_byte (strings.Trim s c) <> Some c.
Proof.
  unfold strings.Trim. split.
  - apply TrimRight_first, TrimLeft_first.
  - apply TrimRight_last.
Qed.

Lemma Trim_bytes s c x : In x (bytes (strings.Trim s c)) -> In x (bytes s).
Proof.
  unfold strings.Trim. intros H.
  now apply TrimLeft_bytes with c, TrimRight_bytes with c.
Qed.

End StringFacts.

(* ================================================================== *)
(** * More on [strconv.ParseFloat]: what it reads *)

Module NumeralFacts.
Import strings strconv.
Local Open Scope list_scope.

(** Every byte that the scanner of [ParseFloat] steps over. *)
Lemma scanned_byte (c : ascii) :
  is_digit c || is_hex_letter c
  || (lower c =? 120)%N || (lower c =? 101)%N || (lower c =? 112)%N
  || Ascii.eqb c "_" || Ascii.eqb c "." || Ascii.eqb c "+"
  || Ascii.eqb c "-" = true ->
  numeral_byte c = true.
Proof.
  destruct c as [[] [] [] [] [] [] [] []]; vm_compute;
    intros H; try reflexivity; discriminate H.
Qed.

(** A byte that matches, case ignored, a lower-case letter. *)
Lemma matched_letter (c p : ascii) :
  ((97 <=? byte p) && (byte p <=? 122))%N = true ->
  ((if ((65 <=? byte c) && (byte c <=? 90))%N
    then (byte c + 32)%N else byte c) =? byte p)%N = true ->
  numeral_byte c = true.
Proof.
  intros Hp Hc. apply N.eqb_eq in Hc.
  apply andb_prop in Hp. destruct Hp as [Hp1 Hp2].
  apply N.leb_le in Hp1, Hp2.
  assert (Hcase : ((65 <=? byte c) && (byte c <=? 90))%N = true
                  \/ ((97 <=? byte c) && (byte c <=? 122))%N = true).
  { destruct ((65 <=? byte c) && (byte c <=? 90))%N;
      [left; reflexivity|right].
    apply andb_true_intro. split; apply N.leb_le; lia. }
  unfold numeral_byte. cbv zeta.
  destruct Hcase as [-> | ->]; rewrite ?orb_true_r; reflexivity.
Qed.

Definition lower_letters (p : string) : Prop :=
  forallb (fun c => ((97 <=? byte c) && (byte c <=? 122))%N) (bytes p) = true.

Lemma commonPrefix_le s p :
  (commonPrefixLenIgnoreCase s p <= String.length s)%nat.
Proof.
  revert p. induction s as [|c s IH]; intros [|x p]; cbn; try lia.
  destruct (_ =? _)%N; [|lia]. specialize (IH p). lia.
Qed.

(** A string that matches a word of lower-case letters all along. *)
Lemma commonPrefix_whole s p :
  lower_letters p ->
  commonPrefixLenIgnoreCase s p = String.length s ->
  forallb numeral_byte (bytes s) = true.
Proof.
  unfold lower_letters, bytes. revert p.
  induction s as [|c s IH]; intros [|x p] Hp H; cbn in H |- *;
    try reflexivity; try discriminate.
  cbn in Hp. apply andb_prop in Hp. destruct Hp as [Hx Hp].
  destruct (_ =? _)%N eqn:E in H; [|discriminate].
  injection H as H.
  rewrite (matched_letter c x Hx E), (IH p Hp H). reflexivity.
Qed.

Lemma special_inf_whole neg nsign s v n :
  special_inf neg nsign s = Some (v, n) ->
  n = (nsign + String.length s)%nat ->
  forallb numeral_byte (bytes s) = true.
Proof.
  unfold special_inf. cbv zeta.
  pose proof (commonPrefix_le s "infinity") as Hle.
  set (k := commonPrefixLenIgnoreCase s "infinity") in *.
  intros H Hn.
  apply (@commonPrefix_whole s "infinity"); [reflexivity|]. fold k.
  destruct ((3 <? k) && (k <? 8))%nat eqn:E.
  - cbn in H. injection H as _ <-.
    apply andb_prop in E. destruct E as [E1 E2].
    apply Nat.ltb_lt in E1, E2. lia.
  - destruct ((k =? 3) || (k =? 8))%nat; [|discriminate].
    injection H as _ <-. lia.
Qed.

Lemma special_whole s v :
  special s = Some (v, String.length s) ->
  forallb numeral_byte (bytes s) = true.
Proof.
  destruct s as [|c s]; [discriminate|].
  unfold special.
  destruct (Ascii.eqb c "+" || Ascii.eqb c "-") eqn:Esign.
  - intros H. cbn [bytes list_ascii_of_string forallb].
    rewrite scanned_byte.
    + apply (special_inf_whole _ _ _ H). reflexivity.
    + apply orb_prop in Esign. destruct Esign as [-> | ->];
        rewrite ?orb_true_r; reflexivity.
  - destruct (Ascii.eqb c "i" || Ascii.eqb c "I").
    + intros H. apply (special_inf_whole _ _ _ H). reflexivity.
    + destruct (Ascii.eqb c "n" || Ascii.eqb c "N"); [|discriminate].
      destruct (Nat.eqb_spec (commonPrefixLenIgnoreCase (String c s) "nan") 3)
        as [E|E]; [|discriminate].
      intros H. injection H as _ H.
      apply (@commonPrefix_whole (String c s) "nan"); [reflexivity|].
      rewrite E. cbn [String.length]. now rewrite <- H.
Qed.

(** The scanner steps over numeral bytes only. *)
Lemma read_digits_prefix hex st s st' rest :
  read_digits hex st s = (st', rest) ->
  exists pre,
    s = (pre ++ rest)%string /\ forallb numeral_byte (bytes pre) = true.
Proof.
  revert st. induction s as [|c s IH]; intros st H.
  - cbn in H. injection H as _ <-. exists ""%string. auto.
  - cbn [read_digits] in H.
    assert (Hstep : forall st0,
      read_digits hex st0 s = (st', rest) ->
      numeral_byte c = true ->
      exists pre,
        String c s = (pre ++ rest)%string
        /\ forallb numeral_byte (bytes pre) = true).
    { intros st0 H0 Hc. destruct (IH st0 H0) as (pre & -> & Hpre).
      exists (String c pre). split; [reflexivity|].
      cbn. now rewrite Hc. }
    assert (Hstop : (st, String c s) = (st', rest) ->
      exists pre,
        String c s = (pre ++ rest)%string
        /\ forallb numeral_byte (bytes pre) = true).
    { intros H0. injection H0 as _ <-. exists ""%string. auto. }
    destruct (Ascii.eqb c "_") eqn:E1.
    { apply (Hstep _ H), scanned_byte. now rewrite E1, !orb_true_r. }
    destruct (Ascii.eqb c ".") eqn:E2.
    { destruct (sawdot st); [now apply Hstop|].
      apply (Hstep _ H), scanned_byte. now rewrite E2, !orb_true_r. }
    destruct (is_digit c) eqn:E3.
    { destruct (Ascii.eqb c "0" && (nd st =? 0)%Z);
        apply (Hstep _ H), scanned_byte; now rewrite E3. }
    destruct (hex && is_hex_letter c) eqn:E4; [|now apply Hstop].
    apply andb_prop in E4. destruct E4 as [_ E4].
    apply (Hstep _ H), scanned_byte. now rewrite E4, !orb_true_r.
Qed.

Lemma read_exponent_prefix e us s e' us' rest :
  read_exponent e us s = (e', us', rest) ->
  exists pre,
    s = (pre ++ rest)%string /\ forallb numeral_byte (bytes pre) = true.
Proof.
  revert e us. induction s as [|c s IH]; intros e us H.
  - cbn in H. injection H as _ _ <-. exists ""%string. auto.
  - cbn [read_exponent] in H.
    assert (Hstep : forall e0 us0,
      read_exponent e0 us0 s = (e', us', rest) ->
      numeral_byte c = true ->
      exists pre,
        String c s = (pre ++ rest)%string
        /\ forallb numeral_byte (bytes pre) = true).
    { intros e0 us0 H0 Hc. destruct (IH e0 us0 H0) as (pre & -> & Hpre).
      exists (String c pre). split; [reflexivity|].
      cbn. now rewrite Hc. }
    destruct (Ascii.eqb c "_") eqn:E1.
    { apply (Hstep _ _ H), scanned_byte. now rewrite E1, !orb_true_r. }
    destruct (is_digit c) eqn:E3.
    { apply (Hstep _ _ H), scanned_byte. now rewrite E3. }
    injection H as _ _ <-. exists ""%string. auto.
Qed.

Lemma whole_prefix s pre :
  s = (pre ++ "")%string -> forallb numeral_byte (bytes pre) = true ->
  forallb numeral_byte (bytes s) = true.
Proof. intros ->. now rewrite StringFacts.append_nil_r. Qed.

(** What is left after the digits, when the numeral is accepted. *)
Lemma exponent_numeral (hex : bool) (dp0 : Z) (us0 : bool) rest :
  match
    (match rest with
    | String ce rest1 =>
        if (lower ce =? (if hex then 112%N else 101%N))%N then
          match rest1 with
          | EmptyString => None
          | String cs rest2 =>
              let esign := if Ascii.eqb cs "-" then (-1)%Z else 1%Z in
              let ds := if Ascii.eqb cs "+" || Ascii.eqb cs "-"
                        then rest2 else rest1 in
              match ds with
              | EmptyString => None
              | String cd _ =>
                  if is_digit cd then
                    let '(e, us, rest3) := read_exponent 0 us0 ds in
                    Some ((dp0 + e * esign)%Z, us, rest3)
                  else None
              end
          end
        else if hex then None
        else Some (dp0, us0, rest)
    | EmptyString =>
        if hex then None else Some (dp0, us0, rest)
    end : option (Z * bool * string))
  with
  | None => false
  | Some (_, _, String _ _) => false
  | Some (_, _, EmptyString) => true
  end = true ->
  forallb numeral_byte (bytes rest) = true.
Proof.
  destruct rest as [|ce rest1]; [reflexivity|].
  destruct (lower ce =? (if hex then 112%N else 101%N))%N eqn:Ee.
  - assert (Hce : numeral_byte ce = true).
    { apply scanned_byte. destruct hex; rewrite Ee, !orb_true_r;
        reflexivity. }
    destruct rest1 as [|cs rest2]; [discriminate|].
    cbv zeta.
    destruct (Ascii.eqb cs "+" || Ascii.eqb cs "-") eqn:Es.
    + assert (Hcs : numeral_byte cs = true).
      { apply scanned_byte. apply orb_prop in Es.
        destruct Es as [-> | ->]; rewrite ?orb_true_r; reflexivity. }
      destruct rest2 as [|cd rest3]; [discriminate|].
      destruct (is_digit cd); [|discriminate].
      destruct (read_exponent 0 us0 (String cd rest3))
        as [[e us] rest4] eqn:E.
      destruct rest4; [|discriminate]. intros _.
      destruct (read_exponent_prefix _ _ _ E) as (pre & Hpre & Hnum).
      cbn [bytes list_ascii_of_string forallb]. rewrite Hce, Hcs.
      exact (whole_prefix _ Hpre Hnum).
    + destruct (is_digit cs); [|discriminate].
      destruct (read_exponent 0 us0 (String cs rest2))
        as [[e us] rest4] eqn:E.
      destruct rest4; [|discriminate]. intros _.
      destruct (read_exponent_prefix _ _ _ E) as (pre & Hpre & Hnum).
      cbn [bytes list_ascii_of_string forallb]. rewrite Hce.
      exact (whole_prefix _ Hpre Hnum).
  - destruct hex; discriminate.
Qed.

(** A numeral that [readFloat] accepts holds numeral bytes only. *)
Lemma read_number_numeral s v :
  read_number s = Some v -> forallb numeral_byte (bytes s) = true.
Proof.
  destruct s as [|c s']; [discriminate|].
  unfold read_number. cbv zeta.
  set (signed := Ascii.eqb c "-" || Ascii.eqb c "+").
  set (body := if signed then s' else String c s').
  destruct (match body with
            | String c0 (String c1 (String _ _ as t)) =>
                if Ascii.eqb c0 "0" && (lower c1 =? 120)%N
                then (true, t) else (false, body)
            | _ => (false, body)
            end) as [hex body2] eqn:Ehex.
  destruct (read_digits hex
              {| mantissa := 0; nd := 0; dp := 0; sawdot := false;
                 sawdigits := false; underscores := false |} body2)
    as [st rest] eqn:Erd.
  destruct (negb (sawdigits st)); [discriminate|].
  intros H.
  assert (Hrest : forallb numeral_byte (bytes rest) = true).
  { match type of H with
    | match ?m with _ => _ end = _ =>
        destruct m as [[[d u] r]|] eqn:E; [|discriminate H]
    end.
    destruct r; [|discriminate H].
    match type of E with
    | context [Some (?d0, ?u0, rest)] =>
        apply (@exponent_numeral hex d0 u0 rest)
    end.
    cbv zeta. rewrite E. reflexivity. }
  clear H.
  assert (Hbody2 : forallb numeral_byte (bytes body2) = true).
  { destruct (read_digits_prefix _ _ _ Erd) as (pre & -> & Hpre).
    rewrite StringFacts.bytes_app, forallb_app, Hpre, Hrest.
    reflexivity. }
  assert (Hbody : forallb numeral_byte (bytes body) = true).
  { destruct body as [|c0 [|c1 [|c2 t]]];
      try (injection Ehex as _ <-; exact Hbody2).
    destruct (Ascii.eqb c0 "0" && (lower c1 =? 120)%N) eqn:E0;
      injection Ehex as _ <-; [|exact Hbody2].
    apply andb_prop in E0. destruct E0 as [E0 E1].
    cbn [bytes list_ascii_of_string forallb] in Hbody2 |- *.
    rewrite (scanned_byte c0), (scanned_byte c1), Hbody2;
      [reflexivity| |].
    - now rewrite E1, !orb_true_r.
    - apply Ascii.eqb_eq in E0. subst c0. reflexivity. }
  subst body. destruct signed eqn:Es; [|exact Hbody].
  change (numeral_byte c && forallb numeral_byte (bytes s') = true).
  rewrite (scanned_byte c), Hbody; [reflexivity|].
  subst signed. apply orb_prop in Es.
  destruct Es as [-> | ->]; rewrite ?orb_true_r; reflexivity.
Qed.

(** [ParseFloat] accepts numerals only. *)
Lemma ParseFloat_numeral s x :
  ParseFloat s = Some x -> forallb numeral_byte (bytes s) = true.
Proof.
  unfold ParseFloat.
  destruct (special s) as [[v n]|] eqn:E.
  - destruct (Nat.eqb_spec n (String.length s)) as [->|]; [|discriminate].
    intros _. exact (special_whole _ E).
  - destruct (read_number s) as [v|] eqn:E'; [|discriminate].
    intros _. exact (read_number_numeral _ E').
Qed.
End NumeralFacts.

(* ================================================================== *)
(** * More on [sort.Slice]: a slice that is sorted already *)

Module SortKept.
Import sort.
Section Kept.
Local Open Scope nat_scope.
Local Open Scope list_scope.
Variable T : Type.
Variable less : T -> T -> bool.

Local Abbreviation lessAt := (SortSpec.lessAt less).
Local Abbreviation sorted_range := (SortSpec.sorted_range less).

Ltac run H :=
  unfold bind at 1;
  let H' := fresh in
  pose proof H as H'; unfold sort.SortM in H';
  rewrite H'; clear H'; cbv beta iota.

Ltac divs :=
  repeat match goal with
  | |- context [?x / ?d] =>
      let q := fresh "q" in
      pose proof (Nat.div_mod_eq x d);
      pose proof (Nat.mod_upper_bound x d ltac:(lia));
      set (q := x / d) in *; clearbody q
  end.

(** A comparison of a later element with an earlier one fails and
    leaves the slice alone. *)
Lemma Less_back a b i j (s : list T) :
  sorted_range a b s -> b <= length s -> a <= i -> i < j -> j < b ->
  Less less j i s = Ok (false, s).
Proof.
  intros Hs Hb Hi Hij Hj.
  rewrite (@SortAny.Less_run T less j i s) by lia.
  now rewrite (Hs i j Hi Hij Hj).
Qed.

Lemma order2_kept a b i j swaps (s : list T) :
  sorted_range a b s -> b <= length s -> a <= i -> i < j -> j < b ->
  order2_func less i j swaps s = Ok ((i, j, swaps), s).
Proof.
  intros Hs Hb Hi Hij Hj. unfold order2_func.
  run (Less_back Hs Hb Hi Hij Hj). reflexivity.
Qed.

Lemma median_kept a b i j k swaps (s : list T) :
  sorted_range a b s -> b <= length s ->
  a <= i -> i < j -> j < k -> k < b ->
  median_func less i j k swaps s = Ok ((j, swaps), s).
Proof.
  intros Hs Hb Hi Hij Hjk Hk. unfold median_func.
  run (@order2_kept a b i j swaps s Hs Hb Hi Hij ltac:(lia)).
  run (@order2_kept a b j k swaps s Hs Hb ltac:(lia) Hjk Hk).
  run (@order2_kept a b i j swaps s Hs Hb Hi Hij ltac:(lia)).
  reflexivity.
Qed.

(** The pivot of a sorted range comes with the hint that it is
    sorted. *)
Lemma choosePivot_kept a b (s : list T) :
  sorted_range a b s -> b <= length s -> 12 < b - a ->
  exists pivot,
    choosePivot_func less a b s = Ok ((pivot, increasingHint), s).
Proof.
  intros Hs Hb Hlen. unfold choosePivot_func, medianAdjacent_func.
  destruct (Nat.leb_spec 8 (b - a)) as [_|H8]; [|lia].
  destruct (Nat.leb_spec 50 (b - a)) as [H50|H50].
  - unfold bind at 1. unfold bind at 1. unfold bind at 1.
    rewrite (@median_kept a b (a + (b - a) / 4 * 1 - 1)
               (a + (b - a) / 4 * 1) (a + (b - a) / 4 * 1 + 1) 0 s Hs Hb)
      by (divs; lia).
    cbv beta iota. unfold bind at 1.
    rewrite (@median_kept a b (a + (b - a) / 4 * 2 - 1)
               (a + (b - a) / 4 * 2) (a + (b - a) / 4 * 2 + 1) 0 s Hs Hb)
      by (divs; lia).
    cbv beta iota. unfold bind at 1.
    rewrite (@median_kept a b (a + (b - a) / 4 * 3 - 1)
               (a + (b - a) / 4 * 3) (a + (b - a) / 4 * 3 + 1) 0 s Hs Hb)
      by (divs; lia).
    cbv beta iota. cbn [ret].
    rewrite (@median_kept a b (a + (b - a) / 4 * 1)
               (a + (b - a) / 4 * 2) (a + (b - a) / 4 * 3) 0 s Hs Hb)
      by (divs; lia).
    eexists. reflexivity.
  - unfold bind at 1. unfold bind at 1. cbn [ret].
    rewrite (@median_kept a b (a + (b - a) / 4 * 1)
               (a + (b - a) / 4 * 2) (a + (b - a) / 4 * 3) 0 s Hs Hb)
      by (divs; lia).
    eexists. reflexivity.
Qed.

Lemma skip_ordered_kept a b fuel i (s : list T) :
  sorted_range a b s -> b <= length s -> a < i -> i <= b ->
  b - i <= fuel ->
  skip_ordered less fuel i b s = Ok (b, s).
Proof.
  intros Hs Hb. revert i.
  induction fuel as [|fuel IH]; intros i Ha Hi Hfuel.
  - assert (i = b) by lia. subst i. cbn [skip_ordered].
    destruct (Nat.ltb_spec b b); [lia|reflexivity].
  - cbn [skip_ordered].
    destruct (Nat.ltb_spec i b) as [Hlt|Hge].
    + run (@Less_back a b (i - 1) i s Hs Hb ltac:(lia) ltac:(lia) Hlt).
      cbn [negb]. apply IH; lia.
    + assert (i = b) by lia. subst i. reflexivity.
Qed.

Lemma partialInsertionSort_kept a b (s : list T) :
  sorted_range a b s -> b <= length s -> a < b ->
  partialInsertionSort_func less a b s = Ok (true, s).
Proof.
  intros Hs Hb Hab. unfold partialInsertionSort_func.
  cbn [partialInsertionSort_steps].
  run (@skip_ordered_kept a b (b - (a + 1)) (a + 1) s Hs Hb
         ltac:(lia) ltac:(lia) ltac:(lia)).
  now rewrite Nat.eqb_refl.
Qed.

Lemma insert_down_kept a b j (s : list T) :
  sorted_range a b s -> b <= length s -> j < b ->
  insert_down less a j s = Ok (tt, s).
Proof.
  intros Hs Hb Hj. destruct j as [|j]; [reflexivity|].
  cbn [insert_down].
  destruct (Nat.ltb_spec a (S j)) as [Ha|Ha]; [|reflexivity].
  run (@Less_back a b j (S j) s Hs Hb ltac:(lia) ltac:(lia) Hj).
  reflexivity.
Qed.

Lemma for_each_kept idxs (body : nat -> SortM T unit) (s : list T) :
  (forall i, In i idxs -> body i s = Ok (tt, s)) ->
  for_each idxs body s = Ok (tt, s).
Proof.
  induction idxs as [|i idxs IH]; intros Hbody; [reflexivity|].
  cbn [for_each]. run (Hbody i (or_introl eq_refl)).
  apply IH. intros k Hk. apply Hbody. now right.
Qed.

Lemma insertionSort_kept a b (s : list T) :
  sorted_range a b s -> b <= length s ->
  insertionSort_func less a b s = Ok (tt, s).
Proof.
  intros Hs Hb. unfold insertionSort_func.
  apply for_each_kept. intros i Hi. apply in_seq in Hi.
  apply (@insert_down_kept a b i s Hs Hb). lia.
Qed.

Lemma bits_Len_pos n : 0 < n -> bits_Len n <> 0.
Proof. destruct n; [lia|]. unfold bits_Len. lia. Qed.

(** [pdqsort_func] on a slice that is sorted: it compares, finds
    nothing to move, and returns. *)
Lemma pdqsort_kept (s : list T) :
  SortSpec.sorted less s ->
  pdqsort_func less 0 (length s) (bits_Len (length s)) s = Ok (tt, s).
Proof.
  intros Hs. unfold SortSpec.sorted in Hs.
  unfold pdqsort_func. cbn [pdqsort_loop].
  rewrite Nat.sub_0_r.
  destruct (Nat.leb_spec (length s) 12) as [Hshort|Hlong].
  - now apply insertionSort_kept.
  - destruct (Nat.eqb_spec (bits_Len (length s)) 0) as [E|_].
    { exfalso. apply (@bits_Len_pos (length s)); [lia|exact E]. }
    cbn [negb]. unfold bind at 1. cbn [ret].
    destruct (@choosePivot_kept 0 (length s) s Hs ltac:(lia) ltac:(lia))
      as (pivot & Hpivot).
    unfold bind at 1.
    pose proof Hpivot as H'. unfold sort.SortM in H'.
    rewrite H'. clear H'. cbv beta iota.
    cbn [is_decreasing is_increasing andb].
    unfold bind at 1. cbn [ret]. cbv beta iota. cbn [is_increasing].
    unfold bind at 1.
    rewrite (@partialInsertionSort_kept 0 (length s) s Hs ltac:(lia)
               ltac:(lia)).
    reflexivity.
Qed.

Lemma Slice_kept (x : list T) :
  SortSpec.sorted less x -> Slice less x = Ok x.
Proof.
  intros Hs. unfold Slice. now rewrite pdqsort_kept.
Qed.

End Kept.
End SortKept.

(* ================================================================== *)
(** * More on the parser and on the rankers *)

Section MoreParsing.
Local Open Scope list_scope.
Local Open Scope nat_scope.

Lemma has_byte_false c s : has_byte c s = false -> ~ In c (bytes s).
Proof.
  unfold has_byte. intros H Hin.
  assert (E : existsb (Ascii.eqb c) (bytes s) = true).
  { apply existsb_exists. exists c. split; [exact Hin|].
    apply Ascii.eqb_refl. }
  congruence.
Qed.

Lemma not_in_has_byte c s : ~ In c (bytes s) -> has_byte c s = false.
Proof.
  unfold has_byte. intros H.
  destruct (existsb (Ascii.eqb c) (bytes s)) eqn:E; [|reflexivity].
  apply existsb_exists in E. destruct E as (x & Hx & Hc).
  apply Ascii.eqb_eq in Hc. subst x. tauto.
Qed.

Lemma field_in (fields : list string) (i : nat) :
  i < length fields -> In (field fields i) fields.
Proof. intros H. unfold field. now apply nth_In. Qed.

Lemma Slice_nil : sort.Slice cpu_greater [] = Ok [].
Proof. reflexivity. Qed.

(** ** X10: the header of [ps] *)

(** The rows of an output of [ps] are the lines after the first. *)
Lemma unix_rows_after_header (h body os : string) :
  is_unix os = true -> has_byte "010" h = false ->
  data_rows (h ++ nl ++ body) os
  = map ps_columns (strings.Split body "010").
Proof.
  intros Hos Hh. unfold data_rows. rewrite Hos.
  unfold strings.Split, nl. cbn [append].
  rewrite StringFacts.Split_from_first by now apply has_byte_false.
  reflexivity.
Qed.

(** X10.  On darwin and linux the first line of the output is taken
    for the header whatever it holds: two outputs that differ in
    their first line only give the same list, and an output of one
    line gives the empty list. *)
Theorem the_first_line_is_never_parsed (h h' body os : string) :
  is_unix os = true ->
  has_byte "010" h = false -> has_byte "010" h' = false ->
  parseProcessOutput (h ++ nl ++ body) os
  = parseProcessOutput (h' ++ nl ++ body) os
  /\ parseProcessOutput h os = Ok ([], None).
Proof.
  intros Hos Hh Hh'. split.
  - unfold parseProcessOutput. rewrite !collect_spec.
    unfold parsed_samples.
    now rewrite !unix_rows_after_header.
  - unfold parseProcessOutput. rewrite collect_spec.
    unfold parsed_samples, data_rows. rewrite Hos.
    unfold strings.Split.
    rewrite StringFacts.Split_from_single by now apply has_byte_false.
    reflexivity.
Qed.

(** A first line that is a row: it is not returned. *)
Lemma the_first_line_is_never_parsed_witness :
  let row := ps_row "1" "99.0" "init" in
  let header := "USER PID %CPU %MEM VSZ RSS TTY STAT START TIME COMMAND" in
  parseProcessOutput (row ++ nl ++ ps_row "2" "1.0" "sh") "linux"
  = parseProcessOutput (header ++ nl ++ ps_row "2" "1.0" "sh") "linux"
  /\ parseProcessOutput row "linux" = Ok ([], None).
Proof.
  cbv zeta.
  apply (@the_first_line_is_never_parsed (ps_row "1" "99.0" "init")
           "USER PID %CPU %MEM VSZ RSS TTY STAT START TIME COMMAND"
           (ps_row "2" "1.0" "sh") "linux");
    vm_compute; reflexivity.
Defined.

(** ** X11, X12: the names *)



(** X12.  On windows the name of every sample returned is the first
    column of its row without the quotes around it: it holds no
    comma and no line feed, and neither starts nor ends with a double
    quote. *)
Theorem names_of_tasklist_rows_are_unquoted (output os : string) :
  is_windows os = true ->
  exists l,
    parseProcessOutput output os = Ok (l, None)
    /\ forall p, In p l ->
         has_byte "," (Name p) = false
         /\ has_byte "010" (Name p) = false
         /\ first_byte (Name p) <> Some quote
         /\ last_byte (Name p) <> Some quote.
Proof.
  intros Hos.
  destruct (returned_samples_come_from_rows output os) as (l & Hrun & Hl).
  exists l. split; [exact Hrun|].
  intros p Hp. destruct (Hl p Hp) as (row & Hin & Hparses & ->).
  unfold data_rows in Hin. rewrite Hos in Hin.
  destruct (is_unix os) eqn:Hu.
  { unfold is_unix, is_windows in *.
    apply String.eqb_eq in Hos. subst os. discriminate Hu. }
  apply in_map_iff in Hin. destruct Hin as (line & <- & Hline).
  unfold parses, tasklist_columns in Hparses.
  cbn [enough_fields cpu_column pid_column] in Hparses.
  apply andb_prop in Hparses. destruct Hparses as [Hparses _].
  apply andb_prop in Hparses. destruct Hparses as [Hlen _].
  apply Nat.leb_le in Hlen.
  unfold sample, tasklist_columns. cbn [Name name_column].
  unfold strings.Split in Hlen, Hline |- *.
  set (f0 := field (strings.Split_from "" line ",") 0).
  assert (Hcomma : ~ In ","%char (bytes f0)).
  { pose proof (@StringFacts.Split_from_no_sep "" line ","
                  ltac:(intros [])) as H.
    rewrite Forall_forall in H. apply H. apply field_in. lia. }
  assert (Hnl : ~ In "010"%char (bytes f0)).
  { assert (Hl0 : ~ In "010"%char (bytes line)).
    { pose proof (@StringFacts.Split_from_no_sep "" output "010"
                    ltac:(intros [])) as H.
      rewrite Forall_forall in H. now apply H. }
    intros H. apply Hl0.
    pose proof (StringFacts.Split_from_bytes ""%string line ","%char)
      as Hsub.
    rewrite Forall_forall in Hsub.
    destruct (Hsub f0 ltac:(apply field_in; lia) "010"%char H)
      as [[]|Hc].
    exact Hc. }
  split; [|split].
  - apply not_in_has_byte. intros H. apply Hcomma.
    now apply StringFacts.Trim_bytes with quote.
  - apply not_in_has_byte. intros H. apply Hnl.
    now apply StringFacts.Trim_bytes with quote.
  - apply StringFacts.Trim_ends.
Qed.

(** A quoted image name. *)
Lemma names_of_tasklist_rows_are_unquoted_witness :
  exists l,
    parseProcessOutput (tasklist_row "cmd.exe" "44" "1.5") "windows"
    = Ok (l, None)
    /\ forall p, In p l ->
         has_byte "," (Name p) = false
         /\ has_byte "010" (Name p) = false
         /\ first_byte (Name p) <> Some quote
         /\ last_byte (Name p) <> Some quote.
Proof.
  apply (@names_of_tasklist_rows_are_unquoted
           (tasklist_row "cmd.exe" "44" "1.5") "windows").
  reflexivity.
Defined.

(** ** X13: the CPU column *)

(** X13.  Every sample returned comes from a row whose CPU column,
    once the quotes and the unit are stripped, is a numeral: it holds
    letters, digits, signs, points and underscores only.  A row whose
    column holds anything else, such as the colon of a time or a
    percent sign, is skipped. *)
Theorem cpu_columns_of_the_samples_are_numerals (output os : string) :
  exists l,
    parseProcessOutput output os = Ok (l, None)
    /\ forall p, In p l ->
         exists row,
           In row (data_rows output os)
           /\ p = sample row
           /\ forallb numeral_byte (bytes (cpu_column row)) = true.
Proof.
  destruct (returned_samples_come_from_rows output os) as (l & Hrun & Hl).
  exists l. split; [exact Hrun|].
  intros p Hp. destruct (Hl p Hp) as (row & Hin & Hparses & ->).
  exists row. split; [exact Hin|]. split; [reflexivity|].
  unfold parses in Hparses.
  apply andb_prop in Hparses. destruct Hparses as [Hparses _].
  apply andb_prop in Hparses. destruct Hparses as [_ Hcpu].
  destruct (strconv.ParseFloat (cpu_column row)) as [x|] eqn:E;
    [|discriminate].
  exact (NumeralFacts.ParseFloat_numeral _ E).
Qed.

End MoreParsing.

Section MoreRanking.
Local Open Scope list_scope.
Local Open Scope nat_scope.

Lemma descendingb_correct (l : list ProcessInfo) :
  descendingb l = true -> descending l.
Proof.
  induction l as [|x l IH]; intros H i j p q Hij Hp Hq.
  - destruct j; discriminate.
  - cbn in H. apply andb_prop in H. destruct H as [Hx Hl].
    destruct j as [|j]; [lia|]. cbn in Hq.
    destruct i as [|i].
    + cbn in Hp. injection Hp as <-.
      rewrite forallb_forall in Hx. apply Hx.
      eapply nth_error_In; eauto.
    + cbn in Hp. apply (IH Hl i j p q); auto. lia.
Qed.

Lemma descending_sorted (l : list ProcessInfo) :
  descending l -> SortSpec.sorted cpu_greater l.
Proof.
  intros Hd i j _ Hij Hj. unfold SortSpec.lessAt.
  destruct (nth_error l j) as [q|] eqn:Hq; [|reflexivity].
  destruct (nth_error l i) as [p|] eqn:Hp; [|reflexivity].
  unfold cpu_greater. apply FloatFacts.fle_not_fgt.
  exact (Hd i j p q Hij Hp Hq).
Qed.

(** ** Rows that are already in order *)



(** ** X16, X17: the ranker that asks every process *)

Lemma direct_collect (procs : list process.Process)
  (acc : list ProcessInfo) :
  DirectRanker.collect procs acc
  = acc ++ map info_of (filter answers procs).
Proof.
  revert acc. induction procs as [|p procs IH]; intros acc;
    cbn [DirectRanker.collect filter].
  - cbn. now rewrite app_nil_r.
  - unfold answers at 1.
    destruct (process.CPUPercent p) as [cpu [e|]] eqn:E1;
      cbn [fst snd is_some negb andb].
    + apply IH.
    + destruct (process.Name p) as [name [e|]] eqn:E2;
        cbn [fst snd is_some negb andb].
      * apply IH.
      * rewrite IH. cbn [map].
        change (info_of p)
          with {| PID := process.Pid p;
                  CPU := fst (process.CPUPercent p);
                  Name := fst (process.Name p) |}.
        rewrite E1, E2. cbn [fst]. now rewrite <- app_assoc.
Qed.

(** X16.  The second [getTopCPUProcesses] skips the processes whose
    [CPUPercent()] or [Name()] returns an error and no others: the
    list it ranks holds exactly the samples of the processes that
    answer, with the CPU value and the name they gave, and the list
    returned is the first ten of it once ranked, so all of it when at
    most ten processes answer. *)
Theorem processes_that_do_not_answer_are_skipped env st procs :
  process_Processes env = (procs, None) ->
  exists ranked st',
    DirectRanker.getTopCPUProcesses env st
    = Ok ((truncate10 ranked, None), st')
    /\ Permutation (map info_of (filter answers procs)) ranked
    /\ (length (filter answers procs) <= 10 ->
        truncate10 ranked = ranked).
Proof.
  intros Hprocs.
  destruct (SortAny.Slice_run cpu_greater (DirectRanker.collect procs []))
    as (ranked & Hrun & Hperm & _).
  rewrite direct_collect in Hperm. cbn [app] in Hperm.
  exists ranked. eexists. split; [|split].
  - unfold DirectRanker.getTopCPUProcesses, bind, call_process_Processes,
      bind, emit, ret, lift.
    rewrite Hprocs, Hrun. reflexivity.
  - exact Hperm.
  - intros Hlen. apply truncate10_short.
    rewrite <- (Permutation_length Hperm), length_map. exact Hlen.
Qed.

(** Three processes, one of which has exited. *)
Lemma processes_that_do_not_answer_are_skipped_witness :
  let z := snapshot 0%float 0%float 0%float in
  exists ranked st',
    DirectRanker.getTopCPUProcesses
      (host_with_processes z z three_processes) initial
    = Ok ((truncate10 ranked, None), st')
    /\ Permutation (map info_of (filter answers three_processes)) ranked
    /\ (length (filter answers three_processes) <= 10 ->
        truncate10 ranked = ranked).
Proof.
  cbv zeta.
  apply (@processes_that_do_not_answer_are_skipped
           (host_with_processes (snapshot 0%float 0%float 0%float)
              (snapshot 0%float 0%float 0%float) three_processes)
           initial three_processes).
  reflexivity.
Defined.


(** ** X14: the two rankers side by side *)



End MoreRanking.

(* ================================================================== *)
(** * More of [checkArgs] *)

Section MoreValidation.

(** X18.  A configuration that [checkArgs] accepts and whose
    thresholds are numbers has its warning threshold at or below its
    critical threshold, so a used percentage above the critical
    threshold is above the warning threshold as well. *)
Theorem accepted_thresholds_are_ordered (plugin : Config) :
  checkArgs plugin = (CheckStateOK, None) ->
  not_nan (Warning plugin) = true ->
  not_nan (Critical plugin) = true ->
  fle (Warning plugin) (Critical plugin) = true
  /\ forall used,
       fgt used (Critical plugin) = true ->
       fgt used (Warning plugin) = true.
Proof.
  unfold checkArgs. intros H Hw Hc.
  destruct (feq (Critical plugin) 0); [discriminate H|].
  destruct (feq (Warning plugin) 0); [discriminate H|].
  destruct (fgt (Warning plugin) (Critical plugin)) eqn:E;
    [discriminate H|].
  assert (Hle : fle (Warning plugin) (Critical plugin) = true)
    by now apply FloatOrder.fle_of_not_fgt.
  split; [exact Hle|].
  intros used Hused. exact (FloatFacts.fgt_above_fle Hused Hle).
Qed.

(** The thresholds of the spec's example. *)
Lemma accepted_thresholds_are_ordered_witness :
  fle (Warning thresholds_90_75) (Critical thresholds_90_75) = true
  /\ forall used,
       fgt used (Critical thresholds_90_75) = true ->
       fgt used (Warning thresholds_90_75) = true.
Proof.
  apply (@accepted_thresholds_are_ordered thresholds_90_75);
    reflexivity.
Defined.

End MoreValidation.
